(** * FiSH for WeeChat: the crypto engine and the key store of [fish.py]

    A shallow embedding of the Blowcrypt message packer, of the two
    non-standard base64 codecs, of the DH1080 key exchange and of the
    key store with its configuration callbacks and its [/blowkey]
    command of [src/fish.py], with the properties of its specification
    proved or refuted on the embedding.

    Conventions of the embedding.
    - A Python [bytes] value is a [list byte]; a Python [str] is a
      [list ascii] (code points below 256).
    - A Python [int] is a [Z]; loop counters and list indices that the
      code only ever increments from zero are [nat].
    - A Python call that may raise returns a [result]; a function that
      mutates its context argument returns the new context next to the
      result, also when it raises.
    - A Python [dict] is an association list in insertion order; what
      WeeChat answers is an argument of the function that asks, and what
      the function tells WeeChat is a list of calls next to its result. *)

From Stdlib Require Import ZArith Zpow_facts Ascii String Bool Arith Lia ZifyNat.
From Stdlib Require Import Strings.Byte List Permutation.
From Bignums Require Import BigN.
Import ListNotations.

Local Open Scope Z_scope.

(** ** Exceptions and results *)

(** The exceptions the modelled code raises.  [FuelExhausted] is not a
    Python exception: it marks a [while] loop of the model that did not
    finish within its iteration budget. *)
Inductive exn : Type :=
| ValueError
| TypeError
| IndexError
| StructError
| AttributeError
| AssertionError
| FuelExhausted.

Inductive result (A : Type) : Type :=
| Ok (a : A)
| Raise (e : exn).

Arguments Ok {A} a.
Arguments Raise {A} e.

Definition bind {A B : Type} (r : result A) (k : A -> result B) : result B :=
  match r with
  | Ok a => k a
  | Raise e => Raise e
  end.

Notation "x <- r ;; k" := (bind r (fun x => k))
  (at level 61, r at next level, right associativity).
Notation "' p <- r ;; k" := (bind r (fun x => let p := x in k))
  (at level 61, p pattern, r at next level, right associativity).

Definition is_ok {A : Type} (r : result A) : bool :=
  match r with Ok _ => true | Raise _ => false end.

(** ** Bytes and strings *)

Definition bytes : Type := list byte.
Definition str : Type := list ascii.

(** A string literal as a [str]. *)
Definition lit (s : string) : str := list_ascii_of_string s.

(** The integer value of a byte, as iterating over [bytes] yields it. *)
Definition byte_val (b : byte) : Z := Z.of_N (Byte.to_N b).

(** [bytes(l)] on a list of integers: [ValueError] unless every element is
    in [range(256)]. *)
Definition byte_new (z : Z) : result byte :=
  if (0 <=? z) && (z <? 256) then
    match Byte.of_N (Z.to_N z) with
    | Some b => Ok b
    | None => Raise ValueError
    end
  else Raise ValueError.

Fixpoint bytes_new (l : list Z) : result bytes :=
  match l with
  | [] => Ok []
  | z :: l' =>
      b <- byte_new z ;;
      bs <- bytes_new l' ;;
      Ok (b :: bs)
  end.

(** [ord(c)]. *)
Definition ord (c : ascii) : nat := nat_of_ascii c.

(** [s.startswith(prefix)]. *)
Fixpoint startswith (s prefix : str) {struct prefix} : bool :=
  match prefix, s with
  | [], _ => true
  | _ :: _, [] => false
  | p :: prefix', c :: s' => Ascii.eqb c p && startswith s' prefix'
  end.

(** [s.split(sep)] with a one-character separator: every occurrence
    splits, empty fields are kept. *)
Fixpoint split (sep : ascii) (s : str) : list str :=
  match s with
  | [] => [[]]
  | c :: s' =>
      if Ascii.eqb c sep then [] :: split sep s'
      else match split sep s' with
           | [] => [[c]]
           | f :: fs => (c :: f) :: fs
           end
  end.

(** [s.split(sep, 1)]: at most one split, at the first occurrence. *)
Fixpoint split1 (sep : ascii) (s : str) : list str :=
  match s with
  | [] => [[]]
  | c :: s' =>
      if Ascii.eqb c sep then [[]; s']
      else match split1 sep s' with
           | f :: fs => (c :: f) :: fs
           | [] => [[c]]
           end
  end.

(** ** Big-endian integers: [bytes2int] and [int2bytes] *)

(** [bytes2int]: the loop [n *= 256; n += p] over the bytes. *)
Definition bytes2int (b : bytes) : Z :=
  fold_left (fun n p => n * 256 + byte_val p) b 0.

(** The loop [while n: b.insert(0, n % 256); n //= 256] of [int2bytes]. *)
Fixpoint int2bytes_loop (fuel : nat) (n : Z) (b : list Z) : result (list Z) :=
  if n =? 0 then Ok b
  else match fuel with
       | O => Raise FuelExhausted
       | S fuel' => int2bytes_loop fuel' (n / 256) (n mod 256 :: b)
       end.

(** The iteration budget of [int2bytes]: one more than the bit length
    of [n] (the loop runs once per base-256 digit). *)
Definition int2bytes_fuel (n : Z) : nat := S (Z.to_nat (Z.log2 n)).

Definition int2bytes (n : Z) : result bytes :=
  if n =? 0 then Ok [x00]
  else
    b <- int2bytes_loop (int2bytes_fuel n) n [] ;;
    bytes_new b.


(** ** Indexing and slicing *)

(** [l[i]] for a Python sequence: a negative index counts from the end,
    an index outside the sequence raises [IndexError]. *)
Definition py_index {A : Type} (l : list A) (i : Z) : result A :=
  let n := Z.of_nat (length l) in
  let j := if i <? 0 then i + n else i in
  if (0 <=? j) && (j <? n) then
    match nth_error l (Z.to_nat j) with
    | Some a => Ok a
    | None => Raise IndexError
    end
  else Raise IndexError.

(** [l[i] = v] for a counter [i] that is never negative. *)
Fixpoint list_set {A : Type} (l : list A) (i : nat) (v : A) : result (list A) :=
  match l, i with
  | [], _ => Raise IndexError
  | _ :: l', O => Ok (v :: l')
  | a :: l', S i' => l'' <- list_set l' i' v ;; Ok (a :: l'')
  end.

(** [l[i]] for a counter [i] that is never negative. *)
Definition list_get {A : Type} (l : list A) (i : nat) : result A :=
  match nth_error l i with
  | Some a => Ok a
  | None => Raise IndexError
  end.

(** [s.index(p)] for a one-character [p]: the first position of [p], or
    [ValueError]. *)
Fixpoint str_index (s : str) (p : ascii) : result Z :=
  match s with
  | [] => Raise ValueError
  | c :: s' =>
      if Ascii.eqb c p then Ok 0
      else i <- str_index s' p ;; Ok (i + 1)
  end.

(** ** Wire Codec A: the Blowcrypt base64 *)

Definition B64 : str :=
  lit "./0123456789abcdefghijklmnopqrstuvwxyzABCDEFGHIJKLMNOPQRSTUVWXYZ".

(** One big-endian unsigned 32-bit word of [struct.unpack('>LL', _)]. *)
Definition be32 (b0 b1 b2 b3 : byte) : Z :=
  ((byte_val b0 * 256 + byte_val b1) * 256 + byte_val b2) * 256 + byte_val b3.

(** [struct.unpack('>LL', b)]: exactly eight bytes, or [struct.error]. *)
Definition struct_unpack_LL (b : bytes) : result (Z * Z) :=
  match b with
  | [b0; b1; b2; b3; b4; b5; b6; b7] => Ok (be32 b0 b1 b2 b3, be32 b4 b5 b6 b7)
  | _ => Raise StructError
  end.

(** [for i in range(n): res += B64[w & 0x3f]; w >>= 6]. *)
Fixpoint encode_word (n : nat) (w : Z) (res : str) : result (Z * str) :=
  match n with
  | O => Ok (w, res)
  | S n' =>
      c <- py_index B64 (Z.land w 0x3f) ;;
      encode_word n' (Z.shiftr w 6) (res ++ [c])
  end.

(** The loop [while s: ...; s = s[8:]] of [blowcrypt_b64encode]. *)
Fixpoint blowcrypt_b64encode_loop (fuel : nat) (s : bytes) (res : str)
  : result str :=
  match s with
  | [] => Ok res
  | _ :: _ =>
      match fuel with
      | O => Raise FuelExhausted
      | S fuel' =>
          '(left_, right_) <- struct_unpack_LL (firstn 8 s) ;;
          '(_, res1) <- encode_word 6 right_ res ;;
          '(_, res2) <- encode_word 6 left_ res1 ;;
          blowcrypt_b64encode_loop fuel' (skipn 8 s) res2
      end
  end.

(** Every iteration drops eight bytes of a non-empty [s], so [len(s)]
    iterations are enough. *)
Definition blowcrypt_b64encode (s : bytes) : result str :=
  blowcrypt_b64encode_loop (length s) s [].

(** [for i, p in enumerate(chunk): acc |= B64.index(p) << (i * 6)],
    entered with [i] as the next position. *)
Fixpoint decode_word (chunk : str) (i : Z) (acc : Z) : result Z :=
  match chunk with
  | [] => Ok acc
  | p :: chunk' =>
      x <- str_index B64 p ;;
      decode_word chunk' (i + 1) (Z.lor acc (Z.shiftl x (i * 6)))
  end.

(** [for i in range(0, 4):
       res.append((w & (0xFF << ((3 - i) * 8))) >> ((3 - i) * 8))]. *)
Definition word_bytes (w : Z) : list Z :=
  map (fun i => Z.shiftr (Z.land w (Z.shiftl 0xFF ((3 - i) * 8))) ((3 - i) * 8))
      [0; 1; 2; 3].

(** The loop [while s: ...; s = s[12:]] of [blowcrypt_b64decode]. *)
Fixpoint blowcrypt_b64decode_loop (fuel : nat) (s : str) (res : list Z)
  : result (list Z) :=
  match s with
  | [] => Ok res
  | _ :: _ =>
      match fuel with
      | O => Raise FuelExhausted
      | S fuel' =>
          right_ <- decode_word (firstn 6 s) 0 0 ;;
          left_ <- decode_word (firstn 6 (skipn 6 s)) 0 0 ;;
          blowcrypt_b64decode_loop fuel' (skipn 12 s)
            (res ++ word_bytes left_ ++ word_bytes right_)
      end
  end.

Definition blowcrypt_b64decode (s : str) : result bytes :=
  res <- blowcrypt_b64decode_loop (length s) s [] ;;
  bytes_new res.

(** ** Padding *)

(** [padto(msg, length)] on [bytes].  The divisor is 8 or 12 at every
    call site. *)
Definition padto (msg : bytes) (len : nat) : result bytes :=
  let L := length msg in
  let msg' :=
    if (L mod len =? 0)%nat then msg
    else msg ++ repeat x00 (len - L mod len) in
  if (length msg' mod len =? 0)%nat then Ok msg' else Raise AssertionError.

(** [padto(msg, length)] on a [str]: [msg += b'\x00' * n] adds [bytes]
    to a [str], which raises [TypeError]; an aligned [msg] is returned as
    it is. *)
Definition padto_str (msg : str) (len : nat) : result str :=
  if (length msg mod len =? 0)%nat then Ok msg else Raise TypeError.

(** [b.strip(c)] for a one-byte [c]: drops the leading and the trailing
    run of [c]. *)
Fixpoint lstrip (c : byte) (b : bytes) : bytes :=
  match b with
  | [] => []
  | x :: b' => if Byte.eqb x c then lstrip c b' else b
  end.

Definition rstrip (c : byte) (b : bytes) : bytes :=
  rev (lstrip c (rev b)).

Definition strip (c : byte) (b : bytes) : bytes :=
  rstrip c (lstrip c b).

(** [b.replace(c, b'')] for a one-byte [c]: every occurrence removed. *)
Definition remove_byte (c : byte) (b : bytes) : bytes :=
  filter (fun x => negb (Byte.eqb x c)) b.

(** [s.encode('utf-8')] for code points below 256. *)
Definition utf8_encode (s : str) : bytes :=
  flat_map
    (fun c =>
       let n := N_of_ascii c in
       if (n <? 128)%N then
         match Byte.of_N n with Some b => [b] | None => [] end
       else
         match Byte.of_N (N.lor 192 (N.shiftr n 6)),
               Byte.of_N (N.lor 128 (N.land n 63)) with
         | Some b1, Some b2 => [b1; b2]
         | _, _ => []
         end)
    s.


(** ** The cipher library *)

(** The Blowfish primitive and the standard base64 come from libraries
    outside the repository ([Crypto.Cipher.Blowfish], [base64]); the
    embedding takes them as an interface.  A call that the library may
    refuse returns a [result]. *)
Class CryptoLib : Type := {
  (** A cipher object in ECB mode. *)
  ecb_cipher : Type;
  (** A cipher object in CBC mode; it carries its IV. *)
  cbc_cipher : Type;
  (** [CryptoBlowfish.new(key, CryptoBlowfish.MODE_ECB)]. *)
  new_ecb : bytes -> result ecb_cipher;
  (** [CryptoBlowfish.new(key, CryptoBlowfish.MODE_CBC[, iv])]; without an
      IV the library draws one. *)
  new_cbc : bytes -> option bytes -> result cbc_cipher;
  cbc_iv : cbc_cipher -> bytes;
  ecb_encrypt : ecb_cipher -> bytes -> result bytes;
  ecb_decrypt : ecb_cipher -> bytes -> result bytes;
  cbc_encrypt : cbc_cipher -> bytes -> result bytes;
  cbc_decrypt : cbc_cipher -> bytes -> result bytes;
  (** [base64.b64encode(b).decode('utf-8')] and [base64.b64decode(s)]. *)
  std_b64encode : bytes -> str;
  std_b64decode : str -> result bytes
}.

(** What the properties below use of the library's ECB mode: on data
    aligned to the 8-byte block both directions succeed and keep the
    length, and decryption undoes encryption. *)
Class CryptoLibLaws (L : CryptoLib) : Prop := {
  ecb_encrypt_aligned : forall c data,
    (length data mod 8 = 0)%nat ->
    exists ct, ecb_encrypt c data = Ok ct /\ length ct = length data;
  ecb_decrypt_aligned : forall c data,
    (length data mod 8 = 0)%nat ->
    exists pt, ecb_decrypt c data = Ok pt /\ length pt = length data;
  ecb_decrypt_encrypt : forall c data ct,
    ecb_encrypt c data = Ok ct -> ecb_decrypt c ct = Ok data
}.

Section Blowcrypt.

Context {L : CryptoLib}.

(** ** The [Blowfish] wrapper class *)

(** The attribute [self.blowfish] exists only when the constructor was
    given a non-empty key. *)
Record Blowfish : Type := { blowfish : option ecb_cipher }.

(** [Blowfish.__init__(self, key=None)]. *)
Definition Blowfish_init (key : option str) : result Blowfish :=
  match key with
  | Some ((_ :: _) as key) =>
      let key := if (72 <? length key)%nat then firstn 72 key else key in
      c <- new_ecb (utf8_encode key) ;;
      Ok {| blowfish := Some c |}
  | _ => Ok {| blowfish := None |}
  end.

Definition Blowfish_decrypt (self : Blowfish) (data : bytes) : result bytes :=
  match blowfish self with
  | Some c => ecb_decrypt c data
  | None => Raise AttributeError
  end.

Definition Blowfish_encrypt (self : Blowfish) (data : bytes) : result bytes :=
  match blowfish self with
  | Some c => ecb_encrypt c data
  | None => Raise AttributeError
  end.

(** ** The message packer and unpacker *)

(** [blowcrypt_pack(msg, cipher, cbcKey=None)]. *)
Definition blowcrypt_pack (msg : bytes) (cipher : Blowfish)
  (cbcKey : option str) : result str :=
  match cbcKey with
  | Some cbcKey =>
      cbcCipher <- new_cbc (utf8_encode cbcKey) None ;;
      padded <- padto msg 8 ;;
      ct <- cbc_encrypt cbcCipher padded ;;
      Ok (lit "+OK *" ++ std_b64encode (cbc_iv cbcCipher ++ ct))
  | None =>
      padded <- padto msg 8 ;;
      ct <- Blowfish_encrypt cipher padded ;;
      enc <- blowcrypt_b64encode ct ;;
      Ok (lit "+OK " ++ enc)
  end.

(** The last line of [blowcrypt_unpack]:
    [plain.strip(b'\x00').replace(b'\n', b'')]. *)
Definition unpack_postprocess (plain : bytes) : bytes :=
  remove_byte x0a (strip x00 plain).

(** The CBC branch of [blowcrypt_unpack], entered with [rest[1:]]. *)
Definition unpack_cbc (rest : str) (key : str) : result bytes :=
  let rest :=
    if (length rest mod 4 =? 0)%nat then rest
    else rest ++ repeat "="%char (4 - length rest mod 4) in
  raw <- std_b64decode rest ;;
  let iv := firstn 8 raw in
  let raw := skipn 8 raw in
  cbcCipher <- new_cbc (utf8_encode key) (Some iv) ;;
  padded <- padto raw 8 ;;
  cbc_decrypt cbcCipher padded.

(** The ECB branch of [blowcrypt_unpack]. *)
Definition unpack_ecb (rest : str) (cipher : Blowfish) : result bytes :=
  if (length rest <? 12)%nat then Raise ValueError
  else
    let rest :=
      if (length rest mod 12 =? 0)%nat then rest
      else firstn (length rest - length rest mod 12) rest in
    raw <- match (padded <- padto_str rest 12 ;; blowcrypt_b64decode padded) with
           | Raise TypeError => Raise ValueError
           | r => r
           end ;;
    match raw with
    | [] => Raise ValueError
    | _ :: _ => Blowfish_decrypt cipher raw
    end.

(** [blowcrypt_unpack(msg, cipher, key)]. *)
Definition blowcrypt_unpack (msg : str) (cipher : Blowfish) (key : str)
  : result bytes :=
  if negb (startswith msg (lit "+OK ") || startswith msg (lit "mcps ")) then
    Raise ValueError
  else
    match split1 " "%char msg with
    | [_; rest] =>
        plain <- (if startswith rest (lit "*") then unpack_cbc (skipn 1 rest) key
                  else unpack_ecb rest cipher) ;;
        Ok (unpack_postprocess plain)
    | _ => Raise ValueError
    end.

End Blowcrypt.

(** ** Wire Codec B: the DH1080 base64 *)

Definition b64 : str :=
  lit "ABCDEFGHIJKLMNOPQRSTUVWXYZabcdefghijklmnopqrstuvwxyz0123456789+/".

(** The list [d] of [dh1080_b64encode] holds integers ([0]) and
    one-character strings. *)
Inductive cell : Type :=
| CInt (z : Z)
| CStr (c : ascii).

(** The variables of the encoder's loop. *)
Record enc_state : Type := mk_enc {
  e_i : nat; e_j : nat; e_k : nat; e_t : Z; e_m : Z; e_d : list cell
}.

(** One iteration of [while i < L] in [dh1080_b64encode]. *)
Definition enc_body (s : bytes) (st : enc_state) : result enc_state :=
  let '(mk_enc i j k t m d) := st in
  b <- list_get s (Nat.shiftr i 3) ;;
  let t := if Z.land (byte_val b) m =? 0 then t else Z.lor t 1 in
  let j := S j in
  let m := Z.shiftr m 1 in
  let m := if m =? 0 then 0x80 else m in
  '(d, t, k) <- (if (j mod 6 =? 0)%nat then
                   c <- py_index b64 t ;;
                   d <- list_set d k (CStr c) ;;
                   Ok (d, Z.land t 0, S k)
                 else Ok (d, t, k)) ;;
  let t := Z.shiftl t 1 in
  let t := t mod 0x100 in
  Ok (mk_enc (S i) j k t m d).

Fixpoint enc_loop (fuel : nat) (s : bytes) (L : nat) (st : enc_state)
  : result enc_state :=
  if (e_i st <? L)%nat then
    match fuel with
    | O => Raise FuelExhausted
    | S fuel' => st' <- enc_body s st ;; enc_loop fuel' s L st'
    end
  else Ok st.

(** [for q in d: if q == 0: break; res += q]; adding a non-zero integer
    to a [str] would raise [TypeError]. *)
Fixpoint collect (d : list cell) (res : str) : result str :=
  match d with
  | [] => Ok res
  | CInt z :: d' => if z =? 0 then Ok res else Raise TypeError
  | CStr c :: d' => collect d' (res ++ [c])
  end.

(** [dh1080_b64encode(s)].  The loop counts [i] from 0 to [L], so [L]
    iterations are enough. *)
Definition dh1080_b64encode (s : bytes) : result str :=
  let d := repeat (CInt 0) (length s * 2) in
  let L := (length s * 8)%nat in
  st <- enc_loop L s L (mk_enc 0 0 0 0 0x80 d) ;;
  let '(mk_enc _ j k t _ d) := st in
  let m := 5 - Z.of_nat (j mod 6) in
  let t := Z.shiftl t m in
  let t := t mod 0x100 in
  '(d, k) <- (if m =? 0 then Ok (d, k)
              else
                c <- py_index b64 t ;;
                d <- list_set d k (CStr c) ;;
                Ok (d, S k)) ;;
  d <- list_set d k (CInt 0) ;;
  collect d [].

(** [for i in range(n): st = body(i, st)], entered at [i]. *)
Fixpoint for_range {St : Type} (n i : nat) (body : nat -> St -> result St)
  (st : St) : result St :=
  match n with
  | O => Ok st
  | S n' => st' <- body i st ;; for_range n' (S i) body st'
  end.

(** [buf = [0] * 256; for i in range(64): buf[ord(b64[i])] = i]. *)
Definition dh1080_buf : result (list Z) :=
  for_range 64 0
    (fun i buf => c <- list_get b64 i ;; list_set buf (ord c) (Z.of_nat i))
    (repeat 0 256).

(** [buf[ord(s[k])]]. *)
Definition buf_at (buf : list Z) (s : str) (k : nat) : result Z :=
  c <- list_get s k ;;
  list_get buf (ord c).

(** [for i in reversed(list(range(L - 1))):
       if buf[ord(s[i])] == 0: L -= 1
       else: break],
    over the indices still to visit. *)
Fixpoint trim_loop (buf : list Z) (s : str) (idxs : list nat) (L : nat)
  : result nat :=
  match idxs with
  | [] => Ok L
  | i :: idxs' =>
      v <- buf_at buf s i ;;
      if v =? 0 then trim_loop buf s idxs' (L - 1) else Ok L
  end.

(** How an iteration of a [while True] loop ends. *)
Inductive flow (St : Type) : Type :=
| Continue (st : St)
| Break (st : St).

Arguments Continue {St} st.
Arguments Break {St} st.

(** The variables of the decoder's loop. *)
Record dec_state : Type := mk_dec { d_i : nat; d_k : nat; d_d : list Z }.

(** [d[i - 1] = v; d[i - 1] %= 0x100]. *)
Definition dec_store (d : list Z) (i : nat) (v : Z) : result (list Z) :=
  d <- list_set d (i - 1) v ;;
  x <- list_get d (i - 1) ;;
  list_set d (i - 1) (x mod 0x100).

(** [d[i - 1] |= v]. *)
Definition dec_or (d : list Z) (i : nat) (v : Z) : result (list Z) :=
  x <- list_get d (i - 1) ;;
  list_set d (i - 1) (Z.lor x v).

(** One iteration of [while True] in [dh1080_b64decode]. *)
Definition dec_body (buf : list Z) (s : str) (L : nat) (st : dec_state)
  : result (flow dec_state) :=
  let '(mk_dec i k d) := st in
  let i := S i in
  if negb (k + 1 <? L)%nat then Ok (Break (mk_dec i k d)) else
  v <- buf_at buf s k ;;
  d <- dec_store d i (Z.shiftl v 2) ;;
  let k := S k in
  if negb (k <? L)%nat then Ok (Break (mk_dec i k d)) else
  v <- buf_at buf s k ;;
  d <- dec_or d i (Z.shiftr v 4) ;;
  let i := S i in
  if negb (k + 1 <? L)%nat then Ok (Break (mk_dec i k d)) else
  v <- buf_at buf s k ;;
  d <- dec_store d i (Z.shiftl v 4) ;;
  let k := S k in
  if negb (k <? L)%nat then Ok (Break (mk_dec i k d)) else
  v <- buf_at buf s k ;;
  d <- dec_or d i (Z.shiftr v 2) ;;
  let i := S i in
  if negb (k + 1 <? L)%nat then Ok (Break (mk_dec i k d)) else
  v <- buf_at buf s k ;;
  d <- dec_store d i (Z.shiftl v 6) ;;
  let k := S k in
  if negb (k <? L)%nat then Ok (Break (mk_dec i k d)) else
  v <- buf_at buf s k ;;
  d <- dec_or d i (v mod 0x100) ;;
  let k := S k in
  Ok (Continue (mk_dec i k d)).

Fixpoint dec_loop (fuel : nat) (buf : list Z) (s : str) (L : nat)
  (st : dec_state) : result dec_state :=
  match fuel with
  | O => Raise FuelExhausted
  | S fuel' =>
      f <- dec_body buf s L st ;;
      match f with
      | Break st' => Ok st'
      | Continue st' => dec_loop fuel' buf s L st'
      end
  end.

(** [dh1080_b64decode(s)].  An iteration that does not break moves [k]
    four characters on, so [L + 1] iterations are enough. *)
Definition dh1080_b64decode (s : str) : result bytes :=
  buf <- dh1080_buf ;;
  let L := length s in
  if (L <? 2)%nat then Raise ValueError else
  L <- trim_loop buf s (rev (seq 0 (L - 1))) L ;;
  if (L <? 2)%nat then Raise ValueError else
  let d := repeat 0 L in
  st <- dec_loop (S L) buf s L (mk_dec 0 0 d) ;;
  bytes_new (firstn (d_i st - 1) (d_d st)).

(** ** DH1080 *)

Definition g_dh1080 : Z := 2.

Definition p_dh1080 : Z :=
  0xFBE1022E23D213E8ACFA9AE8B9DFADA3EA6B7AC7A7B7E95AB5EB2DF858921FEADE95E6AC7BE7DE6ADBAB8A783E7AF7A7FA6A2B7BEB1E72EAE2B72F9FA2BFB2A2EFBEFAC868BADB3E828FA8BADFADA3E4CC1BE7E8AFE85E9698A783EB68FA07A77AB6AD7BEB618ACF9CA2897EB28A6189EFA07AB99A8A7FA9AE299EFA7BA66DEAFEFBEFBF0B7D8B.

Definition q_dh1080 : Z := (p_dh1080 - 1) / 2.

(** The built-in [pow(b, e, m)] for an exponent [e >= 0] and a modulus
    [m > 0]; every exponent of the code is a [bytes2int] value or
    [q_dh1080]. *)
Definition pow3 (b e m : Z) : Z := b ^ e mod m.

(** [dh_validate_public(public, q, p)]. *)
Definition dh_validate_public (pub q p : Z) : bool :=
  1 =? pow3 pub q p.

(** The DH1080 context; [state] is the integer 0 or 1 of the code. *)
Record DH1080Ctx : Type := mk_ctx {
  public : Z;
  private : Z;
  secret : Z;
  state : Z;
  cbc : bool
}.

Definition set_state (ctx : DH1080Ctx) (v : Z) : DH1080Ctx :=
  mk_ctx (public ctx) (private ctx) (secret ctx) v (cbc ctx).

(** The test of the key generation loop:
    [2 <= public <= p_dh1080 - 1 and dh_validate_public(...) == 1];
    [and] evaluates its right operand only when the left one holds, and a
    Python [bool] equals 1 exactly when it is [True]. *)
Definition keypair_ok (pub : Z) : bool :=
  if (2 <=? pub) && (pub <=? p_dh1080 - 1) then
    dh_validate_public pub q_dh1080 p_dh1080
  else false.

(** The loop [while True] of [DH1080Ctx.__init__].  [urandom] lists the
    successive results of [urandom(bits // 8)]; the result is [None] when
    every listed draw is rejected (the loop goes on drawing). *)
Fixpoint keygen_loop (urandom : list bytes) : option (Z * Z) :=
  match urandom with
  | [] => None
  | r :: urandom' =>
      let priv := bytes2int r in
      let pub := pow3 g_dh1080 priv p_dh1080 in
      if keypair_ok pub then Some (priv, pub)
      else keygen_loop urandom'
  end.

(** [DH1080Ctx.__init__(self, cbc=True)]. *)
Definition DH1080Ctx_init (cbc : bool) (urandom : list bytes)
  : option DH1080Ctx :=
  match keygen_loop urandom with
  | Some (priv, pub) => Some (mk_ctx pub priv 0 0 cbc)
  | None => None
  end.

(** [dh1080_pack(ctx)]: the context is updated before the message is
    built. *)
Definition dh1080_pack (ctx : DH1080Ctx) : result str * DH1080Ctx :=
  let '(cmd, ctx) :=
    if state ctx =? 0 then (lit "DH1080_INIT ", set_state ctx 1)
    else (lit "DH1080_FINISH ", ctx) in
  (b <- int2bytes (public ctx) ;;
   e <- dh1080_b64encode b ;;
   Ok (cmd ++ e ++ (if cbc ctx then lit " CBC" else [])),
   ctx).

Definition str_eqb (a b : str) : bool :=
  if list_eq_dec ascii_dec a b then true else false.

(** The first statements of the [try] blocks of [dh1080_unpack]:
    [cmd, public_raw, *rest = msg.split(' ')] and
    [public = bytes2int(dh1080_b64decode(public_raw))]. *)
Definition unpack_fields (msg : str) : result (str * Z * list str) :=
  match split " "%char msg with
  | cmd :: public_raw :: rest =>
      b <- dh1080_b64decode public_raw ;;
      Ok (cmd, bytes2int b, rest)
  | _ => Raise ValueError
  end.

(** The body of a [try] block of [dh1080_unpack]; [legacy] tells whether
    the command [DH1080_INIT_CBC] selects CBC (the first block) or not. *)
Definition unpack_try (legacy : bool) (msg : str) (ctx : DH1080Ctx)
  : result DH1080Ctx :=
  '(cmd, peer_public, rest) <- unpack_fields msg ;;
  if negb ((1 <? peer_public) && (peer_public <? p_dh1080)) then
    Raise ValueError
  else
    let new_secret := pow3 peer_public (private ctx) p_dh1080 in
    let new_cbc :=
      existsb (str_eqb (lit "CBC")) rest
      || (legacy && str_eqb cmd (lit "DH1080_INIT_CBC")) in
    Ok (mk_ctx (public ctx) (private ctx) new_secret (state ctx) new_cbc).

(** [except Exception: raise ValueError]: the assignments made before the
    exception stay. *)
Definition unpack_except (ctx : DH1080Ctx) (r : result DH1080Ctx)
  : result bool * DH1080Ctx :=
  match r with
  | Ok ctx' => (Ok true, ctx')
  | Raise _ => (Raise ValueError, ctx)
  end.

(** [dh1080_unpack(msg, ctx)]. *)
Definition dh1080_unpack (msg : str) (ctx : DH1080Ctx)
  : result bool * DH1080Ctx :=
  if negb (startswith msg (lit "DH1080_")) then (Raise ValueError, ctx)
  else if state ctx =? 0 then
    if negb (startswith msg (lit "DH1080_INIT "))
       && negb (startswith msg (lit "DH1080_INIT_CBC "))
    then (Raise ValueError, ctx)
    else
      let ctx := set_state ctx 1 in
      unpack_except ctx (unpack_try true msg ctx)
  else if state ctx =? 1 then
    if negb (startswith msg (lit "DH1080_FINISH ")) then (Raise ValueError, ctx)
    else
      let ctx := set_state ctx 1 in
      unpack_except ctx (unpack_try false msg ctx)
  else (Ok true, ctx).

(** The test [if not dh1080_unpack(...)] of [fish_modifier_in_notice_cb]:
    whether the caller takes its failure branch after a call that did not
    raise. *)
Definition notice_cb_failure_branch (msg : str) (ctx : DH1080Ctx) : bool :=
  match fst (dh1080_unpack msg ctx) with
  | Ok b => negb b
  | Raise _ => false
  end.

(** ** Definitions used to state the properties *)

(** Whether [B64.index(p)] succeeds. *)
Definition in_B64 (p : ascii) : bool := is_ok (str_index B64 p).

(** The decrypt-side rule as the specification words it: strip the
    trailing zero bytes only, then remove every newline byte. *)
Definition spec_postprocess (plain : bytes) : bytes :=
  remove_byte x0a (rstrip x00 plain).

(** A small instance of the cipher interface, to run the model on
    concrete messages: the byte-wise complement stands for the block
    cipher, and data not aligned to 8 bytes is refused as the library
    does. *)
Definition flip_byte (b : byte) : byte :=
  match Byte.of_N (255 - Byte.to_N b) with
  | Some x => x
  | None => b
  end.

Definition flip_block (data : bytes) : result bytes :=
  if (length data mod 8 =? 0)%nat then Ok (map flip_byte data)
  else Raise ValueError.

Definition flip_new (key : bytes) : result bytes :=
  match key with
  | [] => Raise ValueError
  | _ :: _ => Ok key
  end.

Definition FlipLib : CryptoLib := {|
  ecb_cipher := bytes;
  cbc_cipher := bytes;
  new_ecb := flip_new;
  new_cbc := fun key iv =>
    match iv with
    | Some iv => Ok iv
    | None => Ok (repeat x00 8)
    end;
  cbc_iv := fun c => c;
  ecb_encrypt := fun _ => flip_block;
  ecb_decrypt := fun _ => flip_block;
  cbc_encrypt := fun _ => flip_block;
  cbc_decrypt := fun _ => flip_block;
  std_b64encode := fun _ => [];
  std_b64decode := fun _ => Raise ValueError
|}.

(** The payload the ECB branch decodes: [rest] cut down to the nearest
    lower multiple of 12 characters. *)
Definition ecb_payload (rest : str) : str :=
  firstn (length rest - length rest mod 12) rest.

(** The cipher object [Blowfish(key)] of the small instance. *)
Definition flip_cipher (key : str) : @Blowfish FlipLib :=
  @Build_Blowfish FlipLib (Some (utf8_encode key)).

(** The scenario of the specification: key [testkey], plaintext
    [hello world]. *)
Definition hello_world : bytes :=
  [x68; x65; x6c; x6c; x6f; x20; x77; x6f; x72; x6c; x64].

(** A payload of 13 characters: the last one is dropped. *)
Definition payload13 : str := lit "0...Z1/.....x".

(** Bit [i] of the bit stream of [s], the most significant bit of each
    byte first; [false] past the end of [s]. *)
Definition bit_at (s : bytes) (i : nat) : bool :=
  match nth_error s (i / 8) with
  | Some b => Z.testbit (byte_val b) (Z.of_nat (7 - i mod 8))
  | None => false
  end.

(** The number that the [len] bits from bit [start] on spell. *)
Fixpoint bits_val (s : bytes) (start len : nat) : Z :=
  match len with
  | O => 0
  | S len' => 2 * bits_val s start len' + Z.b2z (bit_at s (start + len'))
  end.

(** The character of Wire Codec B for a 6-bit value. *)
Definition b64char (v : Z) : ascii := nth (Z.to_nat v) b64 "A"%char.

(** The 6-bit value of character [g] of the encoding of [s]. *)
Definition enc_val (s : bytes) (g : nat) : Z := bits_val s (6 * g) 6.

(** The first [k] characters of the encoding of [s]: one per group of six
    bits, the last group filled with zero bits. *)
Definition enc_chars (s : bytes) (k : nat) : str :=
  map (fun g => b64char (enc_val s g)) (seq 0 k).

(** The state of the encoder's loop after [i] iterations. *)
Definition enc_inv (s : bytes) (i : nat) : enc_state :=
  mk_enc i i (i / 6)
    (2 * bits_val s (i - i mod 6) (i mod 6))
    (2 ^ Z.of_nat (7 - i mod 8))
    (map CStr (enc_chars s (i / 6)) ++ repeat (CInt 0) (length s * 2 - i / 6)).

(** The table [buf] of the decoder. *)
Definition buf_table : list Z :=
  match dh1080_buf with
  | Ok buf => buf
  | Raise _ => []
  end.

(** The length the decoder keeps of the encoding of [s] after visiting
    the indices [m - 1], ..., [0], entered with length [L]: one less for
    every zero-valued character until the first non-zero one. *)
Fixpoint trim_spec (s : bytes) (m L : nat) : nat :=
  match m with
  | O => L
  | S m' => if enc_val s m' =? 0 then trim_spec s m' (L - 1) else L
  end.

(** The number of bytes the decoder's loop produces from [L]
    characters: three per four characters, and one less than the
    characters left over. *)
Definition dec_count (L : nat) : nat := (3 * (L / 4) + (L mod 4 - 1))%nat.

(** The list [d] of the decoder once [x] bytes are written, on the
    encoding of [s] kept to [L] characters. *)
Definition dec_done (s : bytes) (L x : nat) : list Z :=
  map (fun i => bits_val s (8 * i) 8) (seq 0 x) ++ repeat 0 (L - x).

(** Whether [dh1080_unpack] accepts the command token of [msg] in the
    state [st]. *)
Definition command_ok (st : Z) (msg : str) : bool :=
  startswith msg (lit "DH1080_")
  && (if st =? 0 then
        startswith msg (lit "DH1080_INIT ")
        || startswith msg (lit "DH1080_INIT_CBC ")
      else startswith msg (lit "DH1080_FINISH ")).

(** One operation on a context: [dh1080_pack] or [dh1080_unpack] of any
    message, with the context it leaves behind (also when it raises). *)
Inductive ctx_step : DH1080Ctx -> DH1080Ctx -> Prop :=
| step_pack (ctx : DH1080Ctx) : ctx_step ctx (snd (dh1080_pack ctx))
| step_unpack (msg : str) (ctx : DH1080Ctx) :
    ctx_step ctx (snd (dh1080_unpack msg ctx)).

(** The contexts the code can hold: built by the constructor, then used
    by [dh1080_pack] and [dh1080_unpack] in any order. *)
Inductive reachable : DH1080Ctx -> Prop :=
| reach_init (cbc : bool) (urandom : list bytes) (ctx : DH1080Ctx) :
    DH1080Ctx_init cbc urandom = Some ctx -> reachable ctx
| reach_step (ctx ctx' : DH1080Ctx) :
    reachable ctx -> ctx_step ctx ctx' -> reachable ctx'.

(** Square-and-multiply on machine-word integers, to evaluate [pow3] on
    1080-bit operands. *)
Fixpoint powmodN (b : bigN) (e : positive) (m : bigN) : bigN :=
  match e with
  | xH => BigN.modulo b m
  | xO e' =>
      let r := powmodN b e' m in
      BigN.modulo (BigN.mul r r) m
  | xI e' =>
      let r := powmodN b e' m in
      BigN.modulo (BigN.mul (BigN.modulo (BigN.mul r r) m) b) m
  end.

Definition pow3_fast (b e m : Z) : Z :=
  BigN.to_Z (powmodN (BigN.N_of_Z b) (Z.to_pos e) (BigN.N_of_Z m)).

(** Two draws of [urandom(135)]: the first gives an odd private
    exponent, which the key generation rejects; the second is accepted. *)
Definition draw1 : bytes :=
  list_byte_of_string
    "It was the best of times, it was the worst of times, it was the age of wisdom, it was the age of foolishness, it was the epoch of belie".

Definition draw2 : bytes :=
  list_byte_of_string
    "Call me Ishmael. Some years ago, never mind how long precisely, having little or no money in my purse, and nothing particular to inter.".

(** The public value of the second draw, [g ^ private mod p]. *)
Definition public2 : Z :=
  Eval vm_compute in pow3_fast g_dh1080 (bytes2int draw2) p_dh1080.

(** The context the constructor builds from these draws. *)
Definition ctx2 : DH1080Ctx := mk_ctx public2 (bytes2int draw2) 0 0 true.

(** The message a peer's [dh1080_pack] builds for the public value
    [p_dh1080 - 1]. *)
Definition msg_p_minus_1 : str :=
  lit "DH1080_INIT ++ECLiPSE+is+proud+to+present+latest+FiSH+release+featuring+even+more+security+for+you+++shouts+go+out+to+TMG+for+helping+to+generate+this+cool+sophie+germain+prime+number++++/C32KA".

(** The value of a list of base-256 digits, most significant first. *)
Definition digits_val (l : list Z) : Z :=
  fold_left (fun n p => n * 256 + p) l 0.

(** Every index below 64 names a character of [B64] that [index] maps
    back: the alphabet has no repeated character. *)
Definition alphabet_ok (alpha : str) : bool :=
  forallb
    (fun n =>
       match py_index alpha (Z.of_nat n) with
       | Ok c =>
           match str_index alpha c with
           | Ok y => y =? Z.of_nat n
           | Raise _ => false
           end
       | Raise _ => false
       end)
    (seq 0 64).

(** What every operation keeps: the state is 0 or 1, and a non-zero
    secret comes with state 1. *)
Definition ctx_inv (ctx : DH1080Ctx) : Prop :=
  (state ctx = 0 \/ state ctx = 1) /\ (secret ctx <> 0 -> state ctx = 1).

(** ** The session key of an exchange *)

Section SessionKey.

(** [hashlib.sha256(s).digest()], from the standard library of Python. *)
Variable sha256 : bytes -> bytes.

(** [dh1080_secret(ctx)]. *)
Definition dh1080_secret (ctx : DH1080Ctx) : result str :=
  if secret ctx =? 0 then Raise ValueError
  else
    b <- int2bytes (secret ctx) ;;
    dh1080_b64encode (sha256 b).

End SessionKey.

(** Whether a character is in the alphabet of Wire Codec B. *)
Definition in_b64 (c : ascii) : bool := existsb (Ascii.eqb c) b64.


(** A third draw of [urandom(135)], accepted as well, and its context. *)
Definition draw3 : bytes :=
  list_byte_of_string
    "Happy families are all alike; every unhappy family is unhappy in its own way. Everything was in confusion in the Oblonskys' house. The.".

Definition public3 : Z :=
  Eval vm_compute in pow3_fast g_dh1080 (bytes2int draw3) p_dh1080.

Definition ctx3 : DH1080Ctx := mk_ctx public3 (bytes2int draw3) 0 0 true.

(** A stand-in for SHA-256 with its output length, to run
    [dh1080_secret] on concrete contexts. *)
Definition short_digest (b : bytes) : bytes := firstn 32 (b ++ repeat x00 32).

(** Whether a character is not the separator that [msg.split(" ")]
    cuts at. *)
Definition no_space (c : ascii) : bool := negb (Ascii.eqb c " ").

(** How the decoder of Wire Codec B reads a character: one outside the
    alphabet counts as [A], whose value is 0. *)
Definition read_as (c : ascii) : ascii :=
  if in_b64 c then c else "A"%char.

(** ** The library's CBC mode *)

(** What the properties below use of the library's CBC mode and of the
    standard base64 codec: the encoding has a multiple of four characters
    and decodes to what was encoded; a cipher made without an IV has an
    IV of one block; on aligned data encryption succeeds and keeps the
    length; and a cipher made from the same key and that IV undoes it. *)
Class CbcLaws (L : CryptoLib) : Prop := {
  std_b64_roundtrip : forall b, std_b64decode (std_b64encode b) = Ok b;
  std_b64_length : forall b, (length (std_b64encode b) mod 4 = 0)%nat;
  cbc_iv_length : forall key c,
    new_cbc key None = Ok c -> length (cbc_iv c) = 8%nat;
  cbc_encrypt_aligned : forall c data,
    (length data mod 8 = 0)%nat ->
    exists ct, cbc_encrypt c data = Ok ct /\ length ct = length data;
  cbc_decrypt_encrypt : forall key c data ct,
    new_cbc key None = Ok c ->
    cbc_encrypt c data = Ok ct ->
    exists c',
      new_cbc key (Some (cbc_iv c)) = Ok c' /\ cbc_decrypt c' ct = Ok data
}.

(** A small instance with a working text codec, to run the CBC branch on
    concrete messages: every byte is written as its character four
    times. *)
Definition quad_encode (b : bytes) : str :=
  flat_map (fun x => let c := ascii_of_byte x in [c; c; c; c]) b.

Fixpoint quad_decode (s : str) : result bytes :=
  match s with
  | [] => Ok []
  | c :: _ :: _ :: _ :: s' =>
      r <- quad_decode s' ;;
      Ok (byte_of_ascii c :: r)
  | _ => Raise ValueError
  end.

Definition QuadLib : CryptoLib := {|
  ecb_cipher := bytes;
  cbc_cipher := bytes;
  new_ecb := flip_new;
  new_cbc := fun key iv =>
    match iv with
    | Some iv => Ok iv
    | None => Ok (repeat x00 8)
    end;
  cbc_iv := fun c => c;
  ecb_encrypt := fun _ => flip_block;
  ecb_decrypt := fun _ => flip_block;
  cbc_encrypt := fun _ => flip_block;
  cbc_decrypt := fun _ => flip_block;
  std_b64encode := quad_encode;
  std_b64decode := quad_decode
|}.

(** ** The key store and its commands *)

(** A Python [dict] with string keys, in insertion order; a key occurs
    once. *)
Definition dict (V : Type) : Type := list (str * V).

(** [d.get(k)]. *)
Fixpoint dict_get {V : Type} (d : dict V) (k : str) : option V :=
  match d with
  | [] => None
  | (k', v) :: d' => if str_eqb k' k then Some v else dict_get d' k
  end.

(** [k in d]. *)
Definition dict_mem {V : Type} (d : dict V) (k : str) : bool :=
  match dict_get d k with
  | Some _ => true
  | None => false
  end.

(** [d[k] = v]: a key that is present keeps its place. *)
Fixpoint dict_set {V : Type} (d : dict V) (k : str) (v : V) : dict V :=
  match d with
  | [] => [(k, v)]
  | (k', v') :: d' =>
      if str_eqb k' k then (k', v) :: d' else (k', v') :: dict_set d' k v
  end.

(** [del d[k]]; the code deletes only after testing [k in d]. *)
Definition dict_del {V : Type} (d : dict V) (k : str) : dict V :=
  filter (fun kv => negb (str_eqb (fst kv) k)) d.

(** [d.get(k, False)] on a dictionary of truth values, as a test. *)
Definition dict_flag (d : dict bool) (k : str) : bool :=
  match dict_get d k with
  | Some b => b
  | None => false
  end.

(** The order of [str]: by code point, a proper prefix first. *)
Fixpoint str_compare (a b : str) : comparison :=
  match a, b with
  | [], [] => Eq
  | [], _ :: _ => Lt
  | _ :: _, [] => Gt
  | x :: a', y :: b' =>
      match Nat.compare (ord x) (ord y) with
      | Eq => str_compare a' b'
      | c => c
      end
  end.

(** The order of the pairs [(target, key)]. *)
Definition item_leb (x y : str * str) : bool :=
  match str_compare (fst x) (fst y) with
  | Lt => true
  | Gt => false
  | Eq =>
      match str_compare (snd x) (snd y) with
      | Gt => false
      | _ => true
      end
  end.

Fixpoint insert_item (x : str * str) (l : list (str * str))
  : list (str * str) :=
  match l with
  | [] => [x]
  | y :: l' => if item_leb x y then x :: l else y :: insert_item x l'
  end.

(** [sorted(d.items())]. *)
Definition sorted_items (d : dict str) : list (str * str) :=
  fold_right insert_item [] d.

(** [s.lower()] on characters below 256: the letters [A] to [Z] and the
    capital letters of Latin-1 move up by 32. *)
Definition lower_char (c : ascii) : ascii :=
  let n := ord c in
  if ((65 <=? n)%nat && (n <=? 90)%nat)
     || ((192 <=? n)%nat && (n <=? 222)%nat && negb (n =? 215)%nat)
  then ascii_of_nat (n + 32)
  else c.

Definition lower (s : str) : str := map lower_char s.

(** [s.find(c)] from the start of [s]. *)
Fixpoint find_first (s : str) (c : ascii) : option nat :=
  match s with
  | [] => None
  | x :: s' =>
      if Ascii.eqb x c then Some O
      else match find_first s' c with
           | Some i => Some (S i)
           | None => None
           end
  end.

(** [s.find(c, start)]: the lowest index from [start] on, or -1; a
    negative [start] counts from the end. *)
Definition str_find (s : str) (c : ascii) (start : Z) : Z :=
  let n := Z.of_nat (length s) in
  let start := if start <? 0 then Z.max 0 (start + n) else start in
  if n <? start then -1
  else
    match find_first (skipn (Z.to_nat start) s) c with
    | Some i => start + Z.of_nat i
    | None => -1
    end.

(** [s[start:]]. *)
Definition slice_from (s : str) (start : Z) : str :=
  let n := Z.of_nat (length s) in
  let start := if start <? 0 then Z.max 0 (start + n) else start in
  skipn (Z.to_nat start) s.

(** [del l[i]] at an index the code has tested to exist. *)
Definition list_del {A : Type} (l : list A) (i : nat) : list A :=
  firstn i l ++ skipn (S i) l.

(** The globals of the script that hold keys: [fish_cyphers] holds the
    cipher objects, of a type [C] that the code below only deletes. *)
Record fish_globals (C : Type) : Type := mk_globals {
  fish_keys : dict str;
  fish_cbc : dict bool;
  fish_cyphers : dict C;
  fish_DH1080ctx : dict DH1080Ctx
}.

Arguments mk_globals {C} _ _ _ _.
Arguments fish_keys {C} _.
Arguments fish_cbc {C} _.
Arguments fish_cyphers {C} _.
Arguments fish_DH1080ctx {C} _.

(** What the script asks of WeeChat for a buffer:
    [weechat.buffer_get_string(buffer, "localvar_...")]. *)
Record weechat_buffer : Type := mk_buffer {
  localvar_server : str;
  localvar_type : str;
  localvar_channel : str
}.

(** The calls [weechat.prnt(buffer, msg)] and
    [weechat.command(buffer, cmd)], on the buffer of the command. *)
Inductive weechat_call : Type :=
| prnt (msg : str)
| command (cmd : str).

Inductive weechat_rc : Type :=
| WEECHAT_RC_OK
| WEECHAT_RC_ERROR.

Inductive config_rc : Type :=
| WEECHAT_CONFIG_OPTION_SET_ERROR
| WEECHAT_CONFIG_OPTION_SET_OK_CHANGED.

(** [fish_config_keys_read_cb(data, config_file, section_name,
    option_name, value)]; [option] tells whether
    [weechat.config_new_option] returned an option. *)
Definition fish_config_keys_read_cb {C : Type} (option : bool)
  (option_name value : str) (g : fish_globals C)
  : config_rc * fish_globals C :=
  if negb option then (WEECHAT_CONFIG_OPTION_SET_ERROR, g)
  else
    let '(cbcs, value) :=
      if startswith value (lit "cbc:") then
        (dict_set (fish_cbc g) option_name true, skipn 4 value)
      else (fish_cbc g, value) in
    (WEECHAT_CONFIG_OPTION_SET_OK_CHANGED,
     mk_globals (dict_set (fish_keys g) option_name value) cbcs
       (fish_cyphers g) (fish_DH1080ctx g)).

(** [fish_config_keys_write_cb(data, config_file, section_name)]: the
    lines it passes to [weechat.config_write_line], as pairs of a name
    and a value. *)
Definition fish_config_keys_write_cb {C : Type} (section_name : str)
  (g : fish_globals C) : list (str * str) :=
  (section_name, [])
  :: map (fun '(target, key) =>
            (target,
             if dict_flag (fish_cbc g) target then lit "cbc:" ++ key
             else key))
       (sorted_items (fish_keys g)).

(** The read callback called on a list of lines, one after the other. *)
Definition read_lines {C : Type} (lines : list (str * str))
  (g : fish_globals C) : fish_globals C :=
  fold_left
    (fun g line => snd (fish_config_keys_read_cb true (fst line) (snd line) g))
    lines g.

(** The loop of [fish_list_keys]; [(server, nick) = target.split("/")]
    raises [ValueError] unless there are two fields. *)
Fixpoint list_keys_loop (cbcs : dict bool) (items : list (str * str))
  : result unit * list weechat_call :=
  match items with
  | [] => (Ok tt, [])
  | (target, key) :: items' =>
      match split "/" target with
      | [server; nick] =>
          let key :=
            if dict_flag cbcs target then lit "cbc:" ++ key else key in
          let '(r, out) := list_keys_loop cbcs items' in
          (r,
           prnt ("009"%char :: nick ++ lit "(" ++ server ++ lit "): " ++ key)
           :: out)
      | _ => (Raise ValueError, [])
      end
  end.

(** [fish_list_keys(buffer)]. *)
Definition fish_list_keys {C : Type} (g : fish_globals C)
  : result unit * list weechat_call :=
  let '(r, out) := list_keys_loop (fish_cbc g) (sorted_items (fish_keys g)) in
  (r, prnt ("009"%char :: lit "FiSH Keys: form target(server): key") :: out).

(** The branch [if argv[0] == "set"] of [fish_cmd_blowkey]. *)
Definition blowkey_set {C : Type} (target targetl argv2eol : str)
  (g : fish_globals C) : result weechat_rc * fish_globals C * list weechat_call :=
  let '(cbcs, argv2eol) :=
    if startswith argv2eol (lit "cbc:") then
      (dict_set (fish_cbc g) targetl true, skipn 4 argv2eol)
    else if dict_mem (fish_cbc g) targetl then
      (dict_del (fish_cbc g) targetl, argv2eol)
    else (fish_cbc g, argv2eol) in
  let keys := dict_set (fish_keys g) targetl argv2eol in
  let cyphers :=
    if dict_mem (fish_cyphers g) targetl then dict_del (fish_cyphers g) targetl
    else fish_cyphers g in
  let cbcNote := if dict_flag cbcs targetl then lit " (cbc)" else [] in
  (Ok WEECHAT_RC_OK,
   mk_globals keys cbcs cyphers (fish_DH1080ctx g),
   [prnt (lit "set key for " ++ target ++ lit " to " ++ argv2eol ++ cbcNote)]).

(** The branch [if argv[0] == "remove"]. *)
Definition blowkey_remove {C : Type} (argv : list str) (target targetl : str)
  (g : fish_globals C) : result weechat_rc * fish_globals C * list weechat_call :=
  if negb (length argv =? 2)%nat then (Ok WEECHAT_RC_ERROR, g, [])
  else if negb (dict_mem (fish_keys g) targetl) then
    (Ok WEECHAT_RC_ERROR, g, [])
  else
    let keys := dict_del (fish_keys g) targetl in
    let cyphers :=
      if dict_mem (fish_cyphers g) targetl
      then dict_del (fish_cyphers g) targetl
      else fish_cyphers g in
    (Ok WEECHAT_RC_OK,
     mk_globals keys (fish_cbc g) cyphers (fish_DH1080ctx g),
     [prnt (lit "removed key for " ++ target)]).

(** The branch [if argv[0] == "exchange"]: [dh1080_pack] works on the
    context that the dictionary holds.  [urandom] lists the draws of the
    constructor, which goes on drawing when all of them are rejected. *)
Definition blowkey_exchange {C : Type} (urandom : list bytes)
  (server_name target_user target targetl : str) (g : fish_globals C)
  : result weechat_rc * fish_globals C * list weechat_call :=
  if str_eqb server_name [] then (Ok WEECHAT_RC_ERROR, g, [])
  else
    let out := prnt (lit "Initiating DH1080 Exchange with " ++ target) in
    match DH1080Ctx_init true urandom with
    | None => (Raise FuelExhausted, g, [out])
    | Some ctx =>
        let '(msg, ctx) := dh1080_pack ctx in
        let g :=
          mk_globals (fish_keys g) (fish_cbc g) (fish_cyphers g)
            (dict_set (fish_DH1080ctx g) targetl ctx) in
        match msg with
        | Raise e => (Raise e, g, [out])
        | Ok msg =>
            (Ok WEECHAT_RC_OK, g,
             [out;
              command (lit "/mute notice -server " ++ server_name ++ lit " "
                       ++ target_user ++ lit " " ++ msg)])
        end
    end.

(** The choice of [target_user] in [fish_cmd_blowkey]; [None] is the
    return of [WEECHAT_RC_ERROR] for a command without a target. *)
Definition blowkey_target_user (buffer : weechat_buffer) (argv : list str)
  : option str :=
  let buffer_type := localvar_type buffer in
  if str_eqb (nth 0 argv []) (lit "exchange") && (length argv =? 1)%nat
     && str_eqb buffer_type (lit "private")
  then Some (localvar_channel buffer)
  else if str_eqb (nth 0 argv []) (lit "set")
          && (str_eqb buffer_type (lit "private")
              || str_eqb buffer_type (lit "channel"))
          && (length argv =? 2)%nat
  then Some (localvar_channel buffer)
  else if (length argv <? 2)%nat then None
  else Some (nth 1 argv []).

(** The computation of [argv2eol] in [fish_cmd_blowkey]; [if pos:] fails
    only for [pos == 0]. *)
Definition blowkey_argv2eol (args : str) : str :=
  let pos := str_find args " " 0 in
  if pos =? 0 then []
  else
    let pos := str_find args " " (pos + 1) in
    if 0 <? pos then slice_from args (pos + 1)
    else slice_from args (str_find args " " 0 + 1).

(** [fish_cmd_blowkey] from [buffer_type = ...] on, with the values of
    [server_name], [argv] and [args] at that point. *)
Definition blowkey_dispatch {C : Type} (urandom : list bytes)
  (buffer : weechat_buffer) (server_name : str) (argv : list str)
  (args : str) (g : fish_globals C)
  : result weechat_rc * fish_globals C * list weechat_call :=
  match blowkey_target_user buffer argv with
  | None => (Ok WEECHAT_RC_ERROR, g, [])
  | Some target_user =>
      let argv2eol := blowkey_argv2eol args in
      let target := server_name ++ lit "/" ++ target_user in
      let targetl := lower target in
      if str_eqb (nth 0 argv []) (lit "set") then
        blowkey_set target targetl argv2eol g
      else if str_eqb (nth 0 argv []) (lit "remove") then
        blowkey_remove argv target targetl g
      else if str_eqb (nth 0 argv []) (lit "exchange") then
        blowkey_exchange urandom server_name target_user target targetl g
      else (Ok WEECHAT_RC_ERROR, g, [])
  end.

(** [fish_cmd_blowkey(data, buffer, args)]. *)
Definition fish_cmd_blowkey {C : Type} (urandom : list bytes)
  (buffer : weechat_buffer) (args : str) (g : fish_globals C)
  : result weechat_rc * fish_globals C * list weechat_call :=
  if str_eqb args [] || str_eqb args (lit "list") then
    let '(r, out) := fish_list_keys g in
    (_ <- r ;; Ok WEECHAT_RC_OK, g, out)
  else
    let argv := split " " args in
    if (2 <? length argv)%nat && str_eqb (nth 1 argv []) (lit "-server") then
      let server_name := nth 2 argv [] in
      let argv := list_del (list_del argv 2) 1 in
      let pos := str_find args " " 0 in
      let pos := str_find args " " (pos + 1) in
      let args := slice_from args (pos + 1) in
      blowkey_dispatch urandom buffer server_name argv args g
    else
      blowkey_dispatch urandom buffer (localvar_server buffer) argv args g.

(** The text after the first word of [rest], or [rest] when it is a
    single word. *)
Definition after_word (rest : str) : str :=
  match find_first rest " " with
  | Some i => skipn (S i) rest
  | None => rest
  end.

(** A store for concrete runs: a CBC key for a nick and an ECB key for a
    channel. *)
Definition store_bob : fish_globals unit :=
  mk_globals
    [(lit "net/bob", lit "secret"); (lit "net/#chan", lit "k2")]
    [(lit "net/bob", true)] [] [].

(** * Properties *)

(** ** Results and bytes *)

Lemma byte_val_range (b : byte) : 0 <= byte_val b < 256.
Proof.
  unfold byte_val. pose proof (Byte.to_N_bounded b). lia.
Qed.

Lemma byte_new_val (b : byte) : byte_new (byte_val b) = Ok b.
Proof.
  unfold byte_new. pose proof (byte_val_range b) as H.
  replace (0 <=? byte_val b) with true by (symmetry; apply Z.leb_le; lia).
  replace (byte_val b <? 256) with true by (symmetry; apply Z.ltb_lt; lia).
  cbn [andb]. unfold byte_val. rewrite N2Z.id, Byte.of_to_N. reflexivity.
Qed.

Lemma byte_new_ok (z : Z) :
  0 <= z < 256 -> exists b, byte_new z = Ok b /\ byte_val b = z.
Proof.
  intros H. unfold byte_new.
  replace (0 <=? z) with true by (symmetry; apply Z.leb_le; lia).
  replace (z <? 256) with true by (symmetry; apply Z.ltb_lt; lia).
  cbn [andb]. destruct (Byte.of_N (Z.to_N z)) as [b|] eqn:E.
  - exists b. split; [reflexivity|]. apply Byte.to_of_N in E.
    unfold byte_val. rewrite E. lia.
  - apply Byte.of_N_None_iff in E. lia.
Qed.

Lemma byte_val_inj (a b : byte) : byte_val a = byte_val b -> a = b.
Proof.
  intros H. pose proof (byte_new_val a) as Ha. rewrite H, byte_new_val in Ha.
  congruence.
Qed.

Lemma bytes_new_ok (l : list Z) :
  Forall (fun z => 0 <= z < 256) l ->
  exists bs, bytes_new l = Ok bs /\ map byte_val bs = l.
Proof.
  induction 1 as [|z l Hz _ IH]; cbn [bytes_new].
  - exists []. split; reflexivity.
  - destruct (byte_new_ok z Hz) as (b & -> & Hb).
    destruct IH as (bs & -> & Hbs). cbn [bind].
    exists (b :: bs). split; [reflexivity|]. cbn [map]. congruence.
Qed.

Lemma bytes_new_map (bs : bytes) : bytes_new (map byte_val bs) = Ok bs.
Proof.
  induction bs as [|b bs IH]; cbn [map bytes_new]; [reflexivity|].
  rewrite byte_new_val, IH. reflexivity.
Qed.

(** ** [bytes2int] and [int2bytes] *)

Lemma fold_digits_app (l : list Z) (x a : Z) :
  fold_left (fun n p => n * 256 + p) (l ++ [x]) a
  = fold_left (fun n p => n * 256 + p) l a * 256 + x.
Proof. rewrite fold_left_app. reflexivity. Qed.

Lemma bytes2int_digits (bs : bytes) : bytes2int bs = digits_val (map byte_val bs).
Proof.
  unfold bytes2int, digits_val. generalize 0.
  induction bs as [|b bs IH]; intros a; cbn [map fold_left]; [reflexivity|].
  apply IH.
Qed.

Lemma int2bytes_loop_spec (fuel : nat) :
  forall n acc, 0 <= n < 256 ^ Z.of_nat fuel ->
  exists ds,
    int2bytes_loop fuel n acc = Ok (ds ++ acc)
    /\ Forall (fun z => 0 <= z < 256) ds
    /\ digits_val ds = n
    /\ (n = 0 -> ds = [])
    /\ (n <> 0 -> hd 0 ds <> 0).
Proof.
  induction fuel as [|fuel IH]; intros n acc Hn.
  - assert (n = 0) as -> by (cbn in Hn; lia). cbn.
    exists []. repeat split; auto; congruence.
  - cbn [int2bytes_loop]. destruct (n =? 0) eqn:E.
    + apply Z.eqb_eq in E. subst n. exists []. repeat split; auto; congruence.
    + apply Z.eqb_neq in E.
      assert (Hq : 0 <= n / 256 < 256 ^ Z.of_nat fuel).
      { split; [apply Z.div_pos; lia|].
        apply Z.div_lt_upper_bound; [lia|].
        rewrite Nat2Z.inj_succ, Z.pow_succ_r in Hn by lia. lia. }
      destruct (IH (n / 256) (n mod 256 :: acc) Hq) as (ds & Hl & Hr & Hv & H0 & Hh).
      exists (ds ++ [n mod 256]). rewrite <- app_assoc. cbn [app].
      split; [exact Hl|]. split; [|split; [|split]].
      * apply Forall_app. split; [exact Hr|].
        constructor; [|constructor]. apply Z.mod_pos_bound. lia.
      * unfold digits_val in *. rewrite fold_digits_app, Hv.
        pose proof (Z.div_mod n 256). lia.
      * intros ->. congruence.
      * intros _. destruct (Z.eq_dec (n / 256) 0) as [Hz|Hz].
        -- rewrite (H0 Hz). cbn. rewrite Z.mod_small; [exact E|].
           pose proof (Z.div_mod n 256). pose proof (Z.mod_pos_bound n 256). lia.
        -- specialize (Hh Hz). destruct ds as [|d ds]; [cbn in Hh; congruence|].
           exact Hh.
Qed.

Lemma int2bytes_fuel_enough (n : Z) :
  0 <= n -> n < 256 ^ Z.of_nat (int2bytes_fuel n).
Proof.
  intros Hn. unfold int2bytes_fuel.
  destruct (Z.eq_dec n 0) as [->|Hz].
  - cbn. lia.
  - rewrite Nat2Z.inj_succ, Z2Nat.id by apply Z.log2_nonneg.
    replace 256 with (2 ^ 8) by reflexivity.
    rewrite <- Z.pow_mul_r by (pose proof (Z.log2_nonneg n); lia).
    pose proof (Z.log2_spec n ltac:(lia)) as [_ Hlt].
    eapply Z.lt_le_trans; [exact Hlt|].
    apply Z.pow_le_mono_r; pose proof (Z.log2_nonneg n); lia.
Qed.

(** C9. For every non-negative integer [n], [int2bytes(n)] returns a
    non-empty byte string whose big-endian value [bytes2int] is [n]; it is
    the single byte 0x00 for [n = 0] and has no leading zero byte
    otherwise. *)
Theorem bytes2int_int2bytes (n : Z) :
  0 <= n ->
  exists bs,
    int2bytes n = Ok bs
    /\ bytes2int bs = n
    /\ bs <> []
    /\ (n = 0 -> bs = [x00])
    /\ (n <> 0 -> hd x00 bs <> x00).
Proof.
  intros Hn. unfold int2bytes. destruct (n =? 0) eqn:E.
  - apply Z.eqb_eq in E. subst n. exists [x00].
    repeat split; try reflexivity; try discriminate. congruence.
  - apply Z.eqb_neq in E.
    destruct (int2bytes_loop_spec (int2bytes_fuel n) n [])
      as (ds & Hl & Hr & Hv & _ & Hh).
    { split; [exact Hn|]. apply int2bytes_fuel_enough, Hn. }
    rewrite app_nil_r in Hl. rewrite Hl. cbn [bind].
    destruct (bytes_new_ok ds Hr) as (bs & Hb & Hm).
    exists bs. split; [exact Hb|]. split; [|split; [|split]].
    + rewrite bytes2int_digits, Hm. exact Hv.
    + intros ->. cbn in Hm. subst ds. cbn in Hv. congruence.
    + intros ->. congruence.
    + intros _ Hx. specialize (Hh E). subst ds.
      destruct bs as [|b bs]; cbn in *; [congruence|]. subst b.
      apply Hh. reflexivity.
Qed.

Lemma bytes2int_int2bytes_witness :
  exists bs,
    int2bytes 65536 = Ok bs
    /\ bytes2int bs = 65536
    /\ bs <> []
    /\ (65536 = 0 -> bs = [x00])
    /\ (65536 <> 0 -> hd x00 bs <> x00).
Proof. apply (bytes2int_int2bytes 65536). lia. Defined.

(** ** Wire Codec A *)

Lemma alphabet_ok_spec (alpha : str) (x : Z) :
  alphabet_ok alpha = true -> 0 <= x < 64 ->
  exists c, py_index alpha x = Ok c /\ str_index alpha c = Ok x.
Proof.
  intros H Hx. unfold alphabet_ok in H. rewrite forallb_forall in H.
  specialize (H (Z.to_nat x)). rewrite Z2Nat.id in H by lia.
  assert (Hin : In (Z.to_nat x) (seq 0 64)) by (apply in_seq; lia).
  specialize (H Hin).
  destruct (py_index alpha x) as [c|]; [|discriminate].
  destruct (str_index alpha c) as [y|] eqn:E; [|discriminate].
  apply Z.eqb_eq in H. subst y. exists c. split; [reflexivity|exact E].
Qed.

Lemma B64_ok : alphabet_ok B64 = true.
Proof. vm_compute. reflexivity. Qed.

Lemma land_63_range (w : Z) : 0 <= Z.land w 0x3f < 64.
Proof.
  change 0x3f with (Z.ones 6). rewrite Z.land_ones by lia.
  apply Z.mod_pos_bound. lia.
Qed.

Lemma lor_digit_step (w acc i n : Z) :
  0 <= i -> 0 <= n ->
  Z.lor (Z.lor acc (Z.shiftl (Z.land w (Z.ones 6)) (i * 6)))
        (Z.shiftl (Z.land (Z.shiftr w 6) (Z.ones (6 * n))) ((i + 1) * 6))
  = Z.lor acc (Z.shiftl (Z.land w (Z.ones (6 * (n + 1)))) (i * 6)).
Proof.
  intros Hi Hn. apply Z.bits_inj'. intros k Hk.
  rewrite !Z.lor_spec, <- orb_assoc. f_equal.
  rewrite !Z.shiftl_spec by lia.
  destruct (Z.ltb_spec k (i * 6)) as [Hlt|Hge].
  - rewrite !Z.testbit_neg_r by lia. reflexivity.
  - rewrite !Z.land_spec.
    destruct (Z.ltb_spec k ((i + 1) * 6)) as [Hlt2|Hge2].
    + rewrite (Z.testbit_neg_r _ (k - (i + 1) * 6)) by lia.
      rewrite (Z.testbit_ones_nonneg 6), (Z.testbit_ones_nonneg (6 * (n + 1))) by lia.
      rewrite orb_false_r. f_equal.
      destruct (Z.ltb_spec (k - i * 6) 6), (Z.ltb_spec (k - i * 6) (6 * (n + 1)));
        try reflexivity; lia.
    + rewrite Z.shiftr_spec by lia.
      rewrite (Z.testbit_ones_nonneg 6), (Z.testbit_ones_nonneg (6 * (n + 1))),
        (Z.testbit_ones_nonneg (6 * n)) by lia.
      replace (k - (i + 1) * 6 + 6) with (k - i * 6) by lia.
      destruct (Z.ltb_spec (k - i * 6) 6); [lia|].
      rewrite andb_false_r, orb_false_l. f_equal.
      destruct (Z.ltb_spec (k - (i + 1) * 6) (6 * n)),
               (Z.ltb_spec (k - i * 6) (6 * (n + 1))); try reflexivity; lia.
Qed.

Lemma encode_decode_word (n : nat) :
  forall w res,
  exists cs,
    encode_word n w res = Ok (Z.shiftr w (6 * Z.of_nat n), res ++ cs)
    /\ length cs = n
    /\ forall i acc, 0 <= i ->
         decode_word cs i acc
         = Ok (Z.lor acc (Z.shiftl (Z.land w (Z.ones (6 * Z.of_nat n))) (i * 6))).
Proof.
  induction n as [|n IH]; intros w res.
  - exists []. cbn [encode_word decode_word length]. rewrite app_nil_r.
    split; [reflexivity|]. split; [reflexivity|]. intros i acc _.
    cbn. rewrite Z.land_0_r, Z.shiftl_0_l, Z.lor_0_r. reflexivity.
  - cbn [encode_word].
    destruct (alphabet_ok_spec B64 _ B64_ok (land_63_range w)) as (c & Hc & Hi).
    rewrite Hc. cbn [bind].
    destruct (IH (Z.shiftr w 6) (res ++ [c])) as (cs & He & Hl & Hd).
    exists (c :: cs). rewrite He, <- app_assoc. cbn [app].
    rewrite Z.shiftr_shiftr by lia.
    replace (6 + 6 * Z.of_nat n) with (6 * Z.of_nat (S n)) by lia.
    split; [reflexivity|]. split; [cbn; lia|]. intros i acc Hi0.
    cbn [decode_word]. rewrite Hi. cbn [bind]. rewrite Hd by lia.
    f_equal. change 0x3f with (Z.ones 6).
    rewrite lor_digit_step by lia. do 4 f_equal. lia.
Qed.

Lemma be32_range (b0 b1 b2 b3 : byte) : 0 <= be32 b0 b1 b2 b3 < 2 ^ 32.
Proof.
  unfold be32.
  pose proof (byte_val_range b0). pose proof (byte_val_range b1).
  pose proof (byte_val_range b2). pose proof (byte_val_range b3).
  change (2 ^ 32) with 4294967296. lia.
Qed.

Lemma land_ones36_be32 (b0 b1 b2 b3 : byte) :
  Z.land (be32 b0 b1 b2 b3) (Z.ones 36) = be32 b0 b1 b2 b3.
Proof.
  rewrite Z.land_ones by lia. apply Z.mod_small.
  pose proof (be32_range b0 b1 b2 b3).
  assert (2 ^ 32 < 2 ^ 36) by (apply Z.pow_lt_mono_r; lia). lia.
Qed.

(** [(w & (0xFF << s)) >> s] is the byte of [w] at bit offset [s]. *)
Lemma mask_shift (w s : Z) :
  0 <= s ->
  Z.shiftr (Z.land w (Z.shiftl 0xFF s)) s = (w / 2 ^ s) mod 256.
Proof.
  intros Hs. rewrite Z.shiftr_land, Z.shiftr_shiftl_l, Z.sub_diag by lia.
  rewrite Z.shiftl_0_r, Z.shiftr_div_pow2 by lia.
  change 0xFF with (Z.ones 8). rewrite Z.land_ones by lia. reflexivity.
Qed.

Lemma word_bytes_be32 (b0 b1 b2 b3 : byte) :
  word_bytes (be32 b0 b1 b2 b3) = map byte_val [b0; b1; b2; b3].
Proof.
  unfold word_bytes. cbn [map]. rewrite !mask_shift by lia.
  unfold be32.
  pose proof (byte_val_range b0). pose proof (byte_val_range b1).
  pose proof (byte_val_range b2). pose proof (byte_val_range b3).
  change ((3 - 0) * 8) with 24. change ((3 - 1) * 8) with 16.
  change ((3 - 2) * 8) with 8. change ((3 - 3) * 8) with 0.
  change (2 ^ 24) with 16777216. change (2 ^ 16) with 65536.
  change (2 ^ 8) with 256. change (2 ^ 0) with 1.
  repeat f_equal; Z.div_mod_to_equations; lia.
Qed.

Lemma codecA_loops (k : nat) :
  forall (s : bytes) (res : str) (fuel : nat),
  length s = (8 * k)%nat -> (k <= fuel)%nat ->
  exists e,
    blowcrypt_b64encode_loop fuel s res = Ok (res ++ e)
    /\ length e = (12 * k)%nat
    /\ forall fuel' acc, (k <= fuel')%nat ->
         blowcrypt_b64decode_loop fuel' e acc = Ok (acc ++ map byte_val s).
Proof.
  induction k as [|k IH]; intros s res fuel Hlen Hfuel.
  - destruct s; [|discriminate]. exists []. rewrite app_nil_r.
    split; [destruct fuel; reflexivity|]. split; [reflexivity|].
    intros fuel' acc _. cbn [map]. rewrite app_nil_r.
    destruct fuel'; reflexivity.
  - destruct s as [|b0 [|b1 [|b2 [|b3 [|b4 [|b5 [|b6 [|b7 rest]]]]]]]];
      try (cbn in Hlen; lia).
    destruct fuel as [|fuel]; [lia|].
    cbn [blowcrypt_b64encode_loop firstn skipn struct_unpack_LL bind].
    destruct (encode_decode_word 6 (be32 b4 b5 b6 b7) res) as (cr & Hr & Hlr & Hdr).
    rewrite Hr. cbn [bind].
    destruct (encode_decode_word 6 (be32 b0 b1 b2 b3) (res ++ cr))
      as (cl & Hl & Hll & Hdl).
    rewrite Hl. cbn [bind].
    destruct (IH rest ((res ++ cr) ++ cl) fuel) as (e & He & Hle & Hde).
    { cbn in Hlen. lia. }
    { lia. }
    exists (cr ++ cl ++ e). rewrite He, <- !app_assoc.
    split; [reflexivity|]. split; [rewrite !length_app; lia|].
    intros fuel' acc Hf. destruct fuel' as [|fuel']; [lia|].
    assert (Hne : cr ++ cl ++ e = hd "."%char cr :: tl (cr ++ cl ++ e)).
    { destruct cr; [discriminate|reflexivity]. }
    rewrite Hne. cbn [blowcrypt_b64decode_loop]. rewrite <- Hne.
    assert (H1 : firstn 6 (cr ++ cl ++ e) = cr).
    { rewrite <- Hlr at 1. rewrite firstn_app, Nat.sub_diag, firstn_all.
      cbn [firstn]. apply app_nil_r. }
    assert (H2 : skipn 6 (cr ++ cl ++ e) = cl ++ e).
    { rewrite <- Hlr at 1. rewrite skipn_app, Nat.sub_diag, skipn_all.
      reflexivity. }
    assert (H3 : firstn 6 (cl ++ e) = cl).
    { rewrite <- Hll at 1. rewrite firstn_app, Nat.sub_diag, firstn_all.
      cbn [firstn]. apply app_nil_r. }
    assert (H4 : skipn 12 (cr ++ cl ++ e) = e).
    { change 12%nat with (6 + 6)%nat. rewrite <- skipn_skipn, H2.
      rewrite <- Hll at 1. rewrite skipn_app, Nat.sub_diag, skipn_all.
      reflexivity. }
    rewrite H1, H2, H3, H4, Hdr, Hdl by lia. cbn [bind].
    rewrite Hde by lia.
    change (Z.of_nat 6) with 6. change (6 * 6) with 36.
    rewrite !Z.shiftl_0_r, !Z.lor_0_l, !land_ones36_be32, !word_bytes_be32.
    rewrite <- !app_assoc. reflexivity.
Qed.

Lemma codecA_roundtrip (b : bytes) :
  (length b mod 8 = 0)%nat ->
  exists e,
    blowcrypt_b64encode b = Ok e
    /\ length e = (12 * (length b / 8))%nat
    /\ blowcrypt_b64decode e = Ok b.
Proof.
  intros Hmod.
  assert (Hlen : length b = (8 * (length b / 8))%nat).
  { pose proof (Nat.div_mod_eq (length b) 8). lia. }
  destruct (codecA_loops (length b / 8) b [] (length b) Hlen) as (e & He & Hl & Hd).
  { lia. }
  exists e. split; [exact He|]. split; [exact Hl|].
  unfold blowcrypt_b64decode. rewrite Hd by lia. cbn [bind app].
  apply bytes_new_map.
Qed.

(** C7. For every byte string [b] whose length is a multiple of 8,
    [blowcrypt_b64encode(b)] returns a string of 12 characters per 8-byte
    chunk, and [blowcrypt_b64decode] of that string returns [b]. *)
Theorem blowcrypt_b64_roundtrip (b : bytes) :
  (length b mod 8 = 0)%nat ->
  exists e,
    blowcrypt_b64encode b = Ok e
    /\ length e = (12 * (length b / 8))%nat
    /\ blowcrypt_b64decode e = Ok b.
Proof.
  intros Hmod.
  assert (Hlen : length b = (8 * (length b / 8))%nat).
  { pose proof (Nat.div_mod_eq (length b) 8). lia. }
  destruct (codecA_loops (length b / 8) b [] (length b) Hlen)
    as (e & He & Hl & Hd); [lia|].
  exists e. split; [exact He|]. split; [exact Hl|].
  unfold blowcrypt_b64decode. rewrite Hd by lia. cbn [bind app].
  apply bytes_new_map.
Qed.

Lemma blowcrypt_b64_roundtrip_witness :
  exists e,
    blowcrypt_b64encode [x00; x00; x00; x01; xff; x00; x00; x02] = Ok e
    /\ length e = (12 * (8 / 8))%nat
    /\ blowcrypt_b64decode e = Ok [x00; x00; x00; x01; xff; x00; x00; x02].
Proof.
  apply (blowcrypt_b64_roundtrip [x00; x00; x00; x01; xff; x00; x00; x02]).
  reflexivity.
Defined.

(** ** The decrypt-side rule *)

Lemma lstrip_decomp (c : byte) (b : bytes) :
  exists n, b = repeat c n ++ lstrip c b /\ hd_error (lstrip c b) <> Some c.
Proof.
  induction b as [|x b (n & Hb & Hh)]; cbn [lstrip].
  - exists 0%nat. split; [reflexivity|discriminate].
  - destruct (Byte.eqb x c) eqn:E.
    + apply Byte.byte_dec_bl in E. subst x. exists (S n). cbn [repeat app].
      split; [congruence|exact Hh].
    + exists 0%nat. split; [reflexivity|]. cbn. intros [= ->].
      rewrite Byte.byte_dec_lb in E by reflexivity. discriminate.
Qed.

Lemma rev_repeat {A : Type} (a : A) (n : nat) : rev (repeat a n) = repeat a n.
Proof.
  induction n as [|n IH]; [reflexivity|].
  cbn [repeat rev]. rewrite IH. symmetry. apply repeat_cons.
Qed.

Lemma rstrip_decomp (c : byte) (b : bytes) :
  exists n, b = rstrip c b ++ repeat c n
            /\ hd_error (rev (rstrip c b)) <> Some c.
Proof.
  unfold rstrip. destruct (lstrip_decomp c (rev b)) as (n & Hb & Hh).
  exists n. split.
  - rewrite <- (rev_involutive b), Hb at 1.
    rewrite rev_app_distr, rev_repeat. reflexivity.
  - rewrite rev_involutive. exact Hh.
Qed.

Lemma lstrip_id (c : byte) (b : bytes) :
  hd_error b <> Some c -> lstrip c b = b.
Proof.
  destruct b as [|x b]; [reflexivity|]. cbn. intros H.
  destruct (Byte.eqb x c) eqn:E; [|reflexivity].
  apply Byte.byte_dec_bl in E. congruence.
Qed.

Lemma rstrip_keeps_head (c : byte) (b : bytes) :
  hd_error b <> Some c -> hd_error (rstrip c b) <> Some c.
Proof.
  intros H. destruct (rstrip_decomp c b) as (n & Hb & _).
  destruct (rstrip c b) as [|x r]; [discriminate|].
  rewrite Hb in H. exact H.
Qed.

Lemma remove_byte_absent (c : byte) (b : bytes) : ~ In c (remove_byte c b).
Proof.
  unfold remove_byte. intros H. apply filter_In in H. destruct H as [_ H].
  rewrite Byte.byte_dec_lb in H by reflexivity. discriminate.
Qed.

Lemma remove_byte_id (c : byte) (b : bytes) : ~ In c b -> remove_byte c b = b.
Proof.
  unfold remove_byte. induction b as [|x b IH]; intros H; [reflexivity|].
  cbn [filter]. destruct (Byte.eqb x c) eqn:E.
  - apply Byte.byte_dec_bl in E. subst x. exfalso. apply H. left. reflexivity.
  - cbn [negb]. f_equal. apply IH. intros Hin. apply H. right. exact Hin.
Qed.

Lemma remove_byte_other (c x : byte) (b : bytes) :
  x <> c -> (In x (remove_byte c b) <-> In x b).
Proof.
  intros Hx. unfold remove_byte. rewrite filter_In. split.
  - intros [H _]. exact H.
  - intros H. split; [exact H|]. destruct (Byte.eqb x c) eqn:E; [|reflexivity].
    apply Byte.byte_dec_bl in E. congruence.
Qed.

(** C5 (as the code has it). The post-processing of [blowcrypt_unpack]
    splits the decrypted bytes into a leading run of zero bytes, a core
    that neither starts nor ends with a zero byte, and a trailing run of
    zero bytes; it returns the core with every newline byte removed, all
    other bytes of the core (zero bytes inside it too) kept in order.
    The leading zero bytes are stripped as well as the trailing ones. *)
Theorem unpack_postprocess_strips_both_ends (plain : bytes) :
  exists (a b : nat) (core : bytes),
    plain = repeat x00 a ++ core ++ repeat x00 b
    /\ hd_error core <> Some x00
    /\ hd_error (rev core) <> Some x00
    /\ unpack_postprocess plain = remove_byte x0a core
    /\ unpack_postprocess plain = filter (fun x => negb (Byte.eqb x x0a)) core
    /\ ~ In x0a (unpack_postprocess plain)
    /\ (~ In x0a core -> unpack_postprocess plain = core).
Proof.
  destruct (lstrip_decomp x00 plain) as (a & Ha & Hha).
  destruct (rstrip_decomp x00 (lstrip x00 plain)) as (b & Hb & Hhb).
  exists a, b, (strip x00 plain). unfold unpack_postprocess, strip in *.
  split; [rewrite <- Hb; exact Ha|].
  split; [apply rstrip_keeps_head, Hha|].
  split; [exact Hhb|]. split; [reflexivity|]. split; [reflexivity|].
  split; [apply remove_byte_absent|apply remove_byte_id].
Qed.

(** C5 (as the specification words it) fails on a whole block, as the
    cipher returns it: a leading zero byte does not survive, where
    stripping the trailing zero bytes only would keep it.  The block is
    what [blowcrypt_unpack] decrypts from the packing of the four bytes
    [00 61 0a 62], and the call returns [61 62]. *)
Lemma unpack_postprocess_drops_leading_zero :
  (length [x00; x61; x0a; x62; x00; x00; x00; x00] mod 8 = 0)%nat
  /\ unpack_postprocess [x00; x61; x0a; x62; x00; x00; x00; x00] = [x61; x62]
  /\ spec_postprocess [x00; x61; x0a; x62; x00; x00; x00; x00]
     = [x00; x61; x62]
  /\ exists packed raw,
       blowcrypt_pack [x00; x61; x0a; x62] (flip_cipher (lit "testkey")) None
       = Ok packed
       /\ blowcrypt_b64decode (skipn 4 packed) = Ok raw
       /\ Blowfish_decrypt (flip_cipher (lit "testkey")) raw
          = Ok [x00; x61; x0a; x62; x00; x00; x00; x00]
       /\ blowcrypt_unpack packed (flip_cipher (lit "testkey")) (lit "testkey")
          = Ok [x61; x62].
Proof.
  split; [reflexivity|]. split; [reflexivity|]. split; [reflexivity|].
  eexists _, _. split; [vm_compute; reflexivity|].
  split; [vm_compute; reflexivity|]. split; vm_compute; reflexivity.
Qed.

(** Where the decrypted bytes do not start with a zero byte the two
    readings agree. *)
Lemma unpack_postprocess_agrees (plain : bytes) :
  hd_error plain <> Some x00 -> unpack_postprocess plain = spec_postprocess plain.
Proof.
  intros H. unfold unpack_postprocess, spec_postprocess, strip.
  rewrite lstrip_id by exact H. reflexivity.
Qed.

(** ** Decoding an arbitrary payload with Wire Codec A *)

Lemma str_index_raises (s : str) (p : ascii) (e : exn) :
  str_index s p = Raise e -> e = ValueError.
Proof.
  induction s as [|c s IH]; cbn [str_index].
  - congruence.
  - destruct (Ascii.eqb c p); [discriminate|].
    destruct (str_index s p); cbn [bind]; [discriminate|].
    intros [= <-]. apply IH. reflexivity.
Qed.

Lemma decode_word_total (chunk : str) :
  forall i acc,
  (forallb in_B64 chunk = true -> exists w, decode_word chunk i acc = Ok w)
  /\ (forallb in_B64 chunk = false -> decode_word chunk i acc = Raise ValueError).
Proof.
  induction chunk as [|p chunk IH]; intros i acc; cbn [forallb decode_word].
  - split; [eexists; reflexivity|discriminate].
  - unfold in_B64 at 1 3. destruct (str_index B64 p) as [x|e] eqn:E; cbn [is_ok andb bind].
    + apply IH.
    + split; [discriminate|]. intros _. f_equal. eapply str_index_raises, E.
Qed.

Lemma word_bytes_range (w : Z) : Forall (fun z => 0 <= z < 256) (word_bytes w).
Proof.
  unfold word_bytes. cbn [map]. rewrite !mask_shift by lia.
  repeat constructor; apply Z.mod_pos_bound; lia.
Qed.

Lemma forallb_firstn_skipn {A : Type} (f : A -> bool) (n : nat) (l : list A) :
  forallb f l = forallb f (firstn n l) && forallb f (skipn n l).
Proof.
  rewrite <- forallb_app, firstn_skipn. reflexivity.
Qed.

Lemma decode_loop_total (k : nat) :
  forall (s : str) (fuel : nat) (acc : list Z),
  length s = (12 * k)%nat -> (k <= fuel)%nat ->
  (forallb in_B64 s = true ->
   exists ws, blowcrypt_b64decode_loop fuel s acc = Ok (acc ++ ws)
              /\ length ws = (8 * k)%nat
              /\ Forall (fun z => 0 <= z < 256) ws)
  /\ (forallb in_B64 s = false ->
      blowcrypt_b64decode_loop fuel s acc = Raise ValueError).
Proof.
  induction k as [|k IH]; intros s fuel acc Hlen Hfuel.
  - destruct s; [|discriminate]. split; [|discriminate]. intros _.
    exists []. rewrite app_nil_r. split; [destruct fuel; reflexivity|].
    split; [reflexivity|constructor].
  - destruct fuel as [|fuel]; [lia|].
    destruct s as [|c s']; [discriminate|]. remember (c :: s') as s eqn:Hs.
    assert (Hstep : blowcrypt_b64decode_loop (S fuel) s acc
                    = (right_ <- decode_word (firstn 6 s) 0 0 ;;
                       left_ <- decode_word (firstn 6 (skipn 6 s)) 0 0 ;;
                       blowcrypt_b64decode_loop fuel (skipn 12 s)
                         (acc ++ word_bytes left_ ++ word_bytes right_))).
    { rewrite Hs. reflexivity. }
    rewrite Hstep. clear Hstep Hs c s'.
    rewrite (forallb_firstn_skipn in_B64 6 s).
    rewrite (forallb_firstn_skipn in_B64 6 (skipn 6 s)).
    rewrite skipn_skipn. change (6 + 6)%nat with 12%nat.
    assert (Hrest : length (skipn 12 s) = (12 * k)%nat)
      by (rewrite length_skipn; lia).
    destruct (decode_word_total (firstn 6 s) 0 0) as [Hr1 Hr0].
    destruct (decode_word_total (firstn 6 (skipn 6 s)) 0 0) as [Hl1 Hl0].
    destruct (forallb in_B64 (firstn 6 s)).
    + destruct (Hr1 eq_refl) as (r & ->). cbn [bind andb].
      destruct (forallb in_B64 (firstn 6 (skipn 6 s))).
      * destruct (Hl1 eq_refl) as (l & ->). cbn [bind andb].
        destruct (IH (skipn 12 s) fuel (acc ++ word_bytes l ++ word_bytes r) Hrest)
          as [Hok Hbad]; [lia|].
        split; [|exact Hbad]. intros Hall.
        destruct (Hok Hall) as (ws & -> & Hlw & Hrw).
        exists (word_bytes l ++ word_bytes r ++ ws).
        rewrite <- !app_assoc. split; [reflexivity|].
        split; [rewrite !length_app; cbn [word_bytes map length]; lia|].
        repeat (apply Forall_app; split); try apply word_bytes_range. exact Hrw.
      * rewrite (Hl0 eq_refl). cbn [bind andb]. split; [discriminate|reflexivity].
    + rewrite (Hr0 eq_refl). cbn [bind andb]. split; [discriminate|reflexivity].
Qed.

(** [blowcrypt_b64decode] on a string of whole 12-character chunks:
    it succeeds, with eight bytes per chunk, exactly when every character
    is in the alphabet, and raises [ValueError] otherwise. *)
Lemma blowcrypt_b64decode_total (s : str) :
  (length s mod 12 = 0)%nat ->
  (forallb in_B64 s = true ->
   exists raw, blowcrypt_b64decode s = Ok raw
               /\ length raw = (8 * (length s / 12))%nat)
  /\ (forallb in_B64 s = false -> blowcrypt_b64decode s = Raise ValueError).
Proof.
  intros Hmod.
  assert (Hlen : length s = (12 * (length s / 12))%nat).
  { pose proof (Nat.div_mod_eq (length s) 12). lia. }
  destruct (decode_loop_total (length s / 12) s (length s) [] Hlen) as [Hok Hbad].
  { lia. }
  unfold blowcrypt_b64decode. split.
  - intros Hall. destruct (Hok Hall) as (ws & -> & Hlw & Hrw). cbn [bind app].
    destruct (bytes_new_ok ws Hrw) as (raw & -> & Hm). exists raw.
    split; [reflexivity|]. rewrite <- Hlw, <- Hm. symmetry. apply length_map.
  - intros Hall. rewrite (Hbad Hall). reflexivity.
Qed.

(** ** Unpacking ECB-form messages *)

Lemma padto_bytes_spec (msg : bytes) :
  exists n, padto msg 8 = Ok (msg ++ repeat x00 n)
            /\ (length (msg ++ repeat x00 n) mod 8 = 0)%nat.
Proof.
  unfold padto. destruct (length msg mod 8 =? 0)%nat eqn:E.
  - exists 0%nat. cbn [repeat]. rewrite app_nil_r, E.
    split; [reflexivity|]. apply Nat.eqb_eq, E.
  - exists (8 - length msg mod 8)%nat.
    assert (H : (length (msg ++ repeat x00 (8 - length msg mod 8)) mod 8 = 0)%nat).
    { rewrite length_app, repeat_length.
      pose proof (Nat.div_mod_eq (length msg) 8) as Hd.
      pose proof (Nat.mod_upper_bound (length msg) 8 ltac:(lia)) as Hb.
      replace (length msg + (8 - length msg mod 8))%nat
        with ((length msg / 8 + 1) * 8)%nat by lia.
      apply Nat.Div0.mod_mul. }
    rewrite H. split; reflexivity.
Qed.

Lemma ecb_payload_length (rest : str) :
  length (ecb_payload rest) = (12 * (length rest / 12))%nat.
Proof.
  unfold ecb_payload. rewrite length_firstn.
  pose proof (Nat.div_mod_eq (length rest) 12). lia.
Qed.

Section BlowcryptProperties.

Context {L : CryptoLib} {Laws : CryptoLibLaws L}.

Lemma unpack_ecb_spec (rest : str) (c : ecb_cipher) :
  ((length rest < 12)%nat ->
   unpack_ecb rest {| blowfish := Some c |} = Raise ValueError)
  /\ ((12 <= length rest)%nat -> forallb in_B64 (ecb_payload rest) = false ->
      blowcrypt_b64decode (ecb_payload rest) = Raise ValueError
      /\ unpack_ecb rest {| blowfish := Some c |} = Raise ValueError)
  /\ ((12 <= length rest)%nat -> forallb in_B64 (ecb_payload rest) = true ->
      exists raw plain,
        blowcrypt_b64decode (ecb_payload rest) = Ok raw
        /\ ecb_decrypt c raw = Ok plain
        /\ unpack_ecb rest {| blowfish := Some c |} = Ok plain).
Proof.
  unfold unpack_ecb. split; [|split].
  - intros H. apply Nat.ltb_lt in H. rewrite H. reflexivity.
  - intros H Hbad. apply Nat.ltb_ge in H as H'. rewrite H'.
    assert (Hp : (if (length rest mod 12 =? 0)%nat then rest
                  else firstn (length rest - length rest mod 12) rest)
                 = ecb_payload rest).
    { unfold ecb_payload. destruct (length rest mod 12 =? 0)%nat eqn:E;
        [|reflexivity].
      apply Nat.eqb_eq in E. rewrite E, Nat.sub_0_r, firstn_all. reflexivity. }
    rewrite Hp. unfold padto_str.
    assert (Hm : (length (ecb_payload rest) mod 12 = 0)%nat).
    { rewrite ecb_payload_length, Nat.mul_comm. apply Nat.Div0.mod_mul. }
    rewrite Hm. cbn [Nat.eqb bind].
    destruct (blowcrypt_b64decode_total (ecb_payload rest) Hm) as [_ Hb].
    rewrite (Hb Hbad). split; reflexivity.
  - intros H Hall. apply Nat.ltb_ge in H as H'. rewrite H'.
    assert (Hp : (if (length rest mod 12 =? 0)%nat then rest
                  else firstn (length rest - length rest mod 12) rest)
                 = ecb_payload rest).
    { unfold ecb_payload. destruct (length rest mod 12 =? 0)%nat eqn:E;
        [|reflexivity].
      apply Nat.eqb_eq in E. rewrite E, Nat.sub_0_r, firstn_all. reflexivity. }
    rewrite Hp. unfold padto_str.
    assert (Hm : (length (ecb_payload rest) mod 12 = 0)%nat).
    { rewrite ecb_payload_length, Nat.mul_comm. apply Nat.Div0.mod_mul. }
    rewrite Hm. cbn [Nat.eqb bind].
    destruct (blowcrypt_b64decode_total (ecb_payload rest) Hm) as [Ha _].
    destruct (Ha Hall) as (raw & Hraw & Hlen). rewrite Hraw. cbn [bind].
    rewrite ecb_payload_length, (Nat.mul_comm 12), Nat.div_mul in Hlen by lia.
    assert (Hdiv : (1 <= length rest / 12)%nat).
    { apply Nat.div_le_lower_bound; lia. }
    destruct raw as [|b raw']; [cbn [length] in Hlen; lia|].
    destruct (ecb_decrypt_aligned c (b :: raw')) as (plain & Hplain & _).
    { rewrite Hlen, Nat.mul_comm. apply Nat.Div0.mod_mul. }
    exists (b :: raw'), plain. unfold Blowfish_decrypt. cbn [blowfish].
    repeat split; [exact Hplain|exact Hplain].
Qed.

Lemma unpack_prefixed (msg rest key : str) (cipher : Blowfish) :
  msg = lit "+OK " ++ rest \/ msg = lit "mcps " ++ rest ->
  startswith rest (lit "*") = false ->
  blowcrypt_unpack msg cipher key
  = (plain <- unpack_ecb rest cipher ;; Ok (unpack_postprocess plain)).
Proof.
  intros [-> | ->] Hstar; unfold blowcrypt_unpack.
  - change (startswith (lit "+OK " ++ rest) (lit "+OK ")) with true.
    change (split1 " "%char (lit "+OK " ++ rest)) with [lit "+OK"; rest].
    cbn [orb negb]. rewrite Hstar. reflexivity.
  - change (startswith (lit "mcps " ++ rest) (lit "+OK ")) with false.
    change (startswith (lit "mcps " ++ rest) (lit "mcps ")) with true.
    change (split1 " "%char (lit "mcps " ++ rest)) with [lit "mcps"; rest].
    cbn [orb negb]. rewrite Hstar. reflexivity.
Qed.

(** C6 (as the code has it). For an ECB-form message, [blowcrypt_unpack]
    raises [ValueError] exactly when the payload has fewer than 12
    characters or a character of the payload, cut down to the nearest
    lower multiple of 12, is outside the alphabet of Wire Codec A.  With
    12 characters or more the payload is cut down before decoding, and a
    length that is no multiple of 12 is no error of its own. *)
Theorem unpack_ecb_form (msg rest key : str) (c : ecb_cipher) :
  msg = lit "+OK " ++ rest \/ msg = lit "mcps " ++ rest ->
  startswith rest (lit "*") = false ->
  (blowcrypt_unpack msg {| blowfish := Some c |} key = Raise ValueError
   <-> (length rest < 12)%nat \/ forallb in_B64 (ecb_payload rest) = false)
  /\ length (ecb_payload rest) = (12 * (length rest / 12))%nat
  /\ ((12 <= length rest)%nat ->
      blowcrypt_unpack msg {| blowfish := Some c |} key
      = (raw <- blowcrypt_b64decode (ecb_payload rest) ;;
         plain <- ecb_decrypt c raw ;;
         Ok (unpack_postprocess plain)))
  /\ ((12 <= length rest)%nat -> forallb in_B64 (ecb_payload rest) = true ->
      exists plain, blowcrypt_unpack msg {| blowfish := Some c |} key = Ok plain).
Proof.
  intros Hmsg Hstar. rewrite (unpack_prefixed msg rest key _ Hmsg Hstar).
  destruct (unpack_ecb_spec rest c) as (Hshort & Hbad & Hgood).
  split; [|split; [apply ecb_payload_length|split]].
  - split.
    + intros Hfail. destruct (Nat.lt_ge_cases (length rest) 12) as [Hlt|Hge];
        [left; exact Hlt|right].
      destruct (forallb in_B64 (ecb_payload rest)) eqn:E; [|reflexivity].
      destruct (Hgood Hge eq_refl) as (raw & plain & _ & _ & Hu).
      rewrite Hu in Hfail. discriminate.
    + intros [Hlt|Hb].
      * rewrite (Hshort Hlt). reflexivity.
      * destruct (Nat.lt_ge_cases (length rest) 12) as [Hlt|Hge].
        -- rewrite (Hshort Hlt). reflexivity.
        -- destruct (Hbad Hge Hb) as [_ ->]. reflexivity.
  - intros Hge. destruct (forallb in_B64 (ecb_payload rest)) eqn:E.
    + destruct (Hgood Hge eq_refl) as (raw & plain & H1 & H2 & H3).
      rewrite H1, H3. cbn [bind]. rewrite H2. reflexivity.
    + destruct (Hbad Hge eq_refl) as [H1 H2]. rewrite H1, H2. reflexivity.
  - intros Hge Hall. destruct (Hgood Hge Hall) as (raw & plain & _ & _ & ->).
    exists (unpack_postprocess plain). reflexivity.
Qed.

(** ** The ECB round trip *)

Lemma lstrip_repeat (c : byte) (n : nat) (b : bytes) :
  lstrip c (repeat c n ++ b) = lstrip c b.
Proof.
  induction n as [|n IH]; [reflexivity|].
  cbn [repeat app lstrip]. rewrite Byte.byte_dec_lb by reflexivity. exact IH.
Qed.

Lemma hd_error_absent (c : byte) (b : bytes) : ~ In c b -> hd_error b <> Some c.
Proof.
  destruct b as [|x b]; [discriminate|]. cbn. intros H [= ->]. apply H.
  left. reflexivity.
Qed.

Lemma unpack_postprocess_padded (m : bytes) (n : nat) :
  ~ In x00 m -> ~ In x0a m -> unpack_postprocess (m ++ repeat x00 n) = m.
Proof.
  intros H0 Hn. unfold unpack_postprocess, strip.
  assert (Hs : rstrip x00 (lstrip x00 (m ++ repeat x00 n)) = m).
  { destruct m as [|x m].
    - cbn [app]. rewrite <- (app_nil_r (repeat x00 n)), lstrip_repeat.
      reflexivity.
    - rewrite lstrip_id.
      + unfold rstrip. rewrite rev_app_distr, rev_repeat, lstrip_repeat.
        rewrite lstrip_id; [apply rev_involutive|].
        apply hd_error_absent. rewrite <- in_rev. exact H0.
      + cbn. intros [= ->]. apply H0. left. reflexivity. }
  rewrite Hs. apply remove_byte_id, Hn.
Qed.

Lemma star_not_in_B64 : in_B64 "*"%char = false.
Proof. vm_compute. reflexivity. Qed.

(** The empty plaintext packs to the bare prefix, whatever the cipher. *)
Lemma blowcrypt_pack_empty (c : ecb_cipher) :
  blowcrypt_pack [] {| blowfish := Some c |} None = Ok (lit "+OK ").
Proof.
  unfold blowcrypt_pack, Blowfish_encrypt. cbn [blowfish padto length bind].
  change (padto [] 8) with (@Ok bytes []). cbn [bind].
  destruct (ecb_encrypt_aligned c [] eq_refl) as (ct & -> & Hlen).
  destruct ct; [|discriminate]. reflexivity.
Qed.

(** C3 (as the code has it). For every non-empty key that the cipher
    library accepts and every non-empty plaintext without NUL and newline
    bytes, packing in ECB mode gives a string that starts with [+OK ] and
    that unpacks, with the same cipher, to the plaintext. *)
Theorem blowcrypt_ecb_roundtrip (k : str) (m : bytes) (cipher : Blowfish) :
  k <> [] ->
  Blowfish_init (Some k) = Ok cipher ->
  m <> [] -> ~ In x00 m -> ~ In x0a m ->
  exists packed,
    blowcrypt_pack m cipher None = Ok packed
    /\ startswith packed (lit "+OK ") = true
    /\ blowcrypt_unpack packed cipher k = Ok m.
Proof.
  intros Hk Hinit Hm H0 Hn.
  assert (Hc : exists c, cipher = {| blowfish := Some c |}).
  { unfold Blowfish_init in Hinit. destruct k as [|a k]; [congruence|].
    destruct (new_ecb _) as [c|]; cbn [bind] in Hinit; [|discriminate].
    exists c. congruence. }
  destruct Hc as (c & ->). clear Hinit.
  destruct (padto_bytes_spec m) as (n & Hpad & Hal).
  destruct (ecb_encrypt_aligned c _ Hal) as (ct & Henc & Hlen).
  assert (Hal' : (length ct mod 8 = 0)%nat) by (rewrite Hlen; exact Hal).
  destruct (codecA_roundtrip ct Hal') as (e & He & Hle & Hd).
  unfold blowcrypt_pack, Blowfish_encrypt. cbn [blowfish].
  rewrite Hpad. cbn [bind]. rewrite Henc. cbn [bind]. rewrite He. cbn [bind].
  exists (lit "+OK " ++ e). split; [reflexivity|]. split; [reflexivity|].
  assert (Hct : (8 <= length ct)%nat).
  { rewrite Hlen, length_app. destruct m; [congruence|].
    rewrite length_app in Hal. cbn [length] in *.
    pose proof (Nat.div_mod_eq (S (length m) + length (repeat x00 n)) 8). lia. }
  assert (Hq : (1 <= length ct / 8)%nat) by (apply Nat.div_le_lower_bound; lia).
  assert (Hmod : (length e mod 12 = 0)%nat).
  { rewrite Hle, Nat.mul_comm. apply Nat.Div0.mod_mul. }
  assert (Hall : forallb in_B64 e = true).
  { destruct (blowcrypt_b64decode_total e Hmod) as [_ Hb].
    destruct (forallb in_B64 e); [reflexivity|].
    rewrite (Hb eq_refl) in Hd. discriminate. }
  assert (Hstar : startswith e (lit "*") = false).
  { destruct e as [|x e]; [reflexivity|]. cbn [forallb] in Hall.
    apply andb_true_iff in Hall. destruct Hall as [Hx _].
    cbn. destruct (Ascii.eqb x "*") eqn:E; [|reflexivity].
    apply Ascii.eqb_eq in E. subst x. rewrite star_not_in_B64 in Hx.
    discriminate. }
  assert (Hpay : ecb_payload e = e).
  { unfold ecb_payload. rewrite Hmod, Nat.sub_0_r. apply firstn_all. }
  rewrite (unpack_prefixed _ e k _ (or_introl eq_refl) Hstar).
  destruct (unpack_ecb_spec e c) as (_ & _ & Hgood).
  destruct Hgood as (raw & plain & Hraw & Hplain & ->).
  { rewrite Hle. lia. }
  { rewrite Hpay. exact Hall. }
  cbn [bind]. rewrite Hpay, Hd in Hraw. injection Hraw as <-.
  rewrite (ecb_decrypt_encrypt c _ ct Henc) in Hplain. injection Hplain as <-.
  rewrite unpack_postprocess_padded by assumption. reflexivity.
Qed.

End BlowcryptProperties.

(** ** The properties at concrete messages *)

Lemma flip_byte_involutive (b : byte) : flip_byte (flip_byte b) = b.
Proof. destruct b; reflexivity. Qed.

Lemma flip_block_spec (data out : bytes) :
  flip_block data = Ok out ->
  (length data mod 8 = 0)%nat /\ out = map flip_byte data.
Proof.
  unfold flip_block. destruct (length data mod 8 =? 0)%nat eqn:E; [|discriminate].
  intros [= <-]. split; [apply Nat.eqb_eq, E|reflexivity].
Qed.

Lemma flip_block_aligned (data : bytes) :
  (length data mod 8 = 0)%nat ->
  exists out, flip_block data = Ok out /\ length out = length data.
Proof.
  intros H. unfold flip_block. rewrite H. cbn [Nat.eqb].
  exists (map flip_byte data). split; [reflexivity|apply length_map].
Qed.

Lemma FlipLaws : CryptoLibLaws FlipLib.
Proof.
  constructor; cbn [ecb_encrypt ecb_decrypt FlipLib].
  - intros _. exact flip_block_aligned.
  - intros _. exact flip_block_aligned.
  - intros _ data ct H. apply flip_block_spec in H. destruct H as [Hal ->].
    unfold flip_block. rewrite length_map, Hal. cbn [Nat.eqb].
    rewrite map_map, (map_ext _ (fun x => x) flip_byte_involutive), map_id.
    reflexivity.
Qed.

(** An unpacked bare prefix is refused, whatever the cipher. *)
Lemma unpack_bare_prefix {L : CryptoLib} (cipher : Blowfish) (key : str) :
  blowcrypt_unpack (lit "+OK ") cipher key = Raise ValueError.
Proof. reflexivity. Qed.

(** C3 (as the specification words it) fails at the empty plaintext:
    it packs to the bare prefix [+OK ], which [blowcrypt_unpack] refuses
    because the payload has fewer than 12 characters. *)
Lemma blowcrypt_ecb_roundtrip_empty :
  Blowfish_init (Some (lit "testkey")) = Ok (flip_cipher (lit "testkey"))
  /\ blowcrypt_pack [] (flip_cipher (lit "testkey")) None = Ok (lit "+OK ")
  /\ blowcrypt_unpack (lit "+OK ") (flip_cipher (lit "testkey")) (lit "testkey")
     = Raise ValueError.
Proof. repeat split; vm_compute; reflexivity. Qed.

Lemma blowcrypt_ecb_roundtrip_witness :
  exists packed,
    blowcrypt_pack (L := FlipLib) hello_world
      (flip_cipher (lit "testkey")) None = Ok packed
    /\ startswith packed (lit "+OK ") = true
    /\ blowcrypt_unpack packed
         (flip_cipher (lit "testkey")) (lit "testkey")
       = Ok hello_world.
Proof.
  apply (@blowcrypt_ecb_roundtrip FlipLib FlipLaws (lit "testkey") hello_world).
  - discriminate.
  - vm_compute. reflexivity.
  - discriminate.
  - cbn. intuition discriminate.
  - cbn. intuition discriminate.
Defined.

(** C6 (as the specification words it) fails: a payload of 12 characters
    outside the alphabet is refused with [ValueError] although it is not
    shorter than 12 characters. *)
Lemma unpack_ecb_form_undecodable :
  blowcrypt_unpack (L := FlipLib) (lit "+OK !!!!!!!!!!!!")
    (flip_cipher (lit "A")) (lit "A") = Raise ValueError
  /\ startswith (lit "!!!!!!!!!!!!") (lit "*") = false
  /\ length (lit "!!!!!!!!!!!!") = 12%nat.
Proof. repeat split; vm_compute; reflexivity. Qed.

Lemma unpack_ecb_form_witness :
  (blowcrypt_unpack (L := FlipLib) (lit "+OK " ++ payload13)
     (flip_cipher (lit "A")) (lit "A") = Raise ValueError
   <-> (length payload13 < 12)%nat
       \/ forallb in_B64 (ecb_payload payload13) = false)
  /\ length (ecb_payload payload13) = (12 * (length payload13 / 12))%nat
  /\ ((12 <= length payload13)%nat ->
      blowcrypt_unpack (L := FlipLib) (lit "+OK " ++ payload13)
        (flip_cipher (lit "A")) (lit "A")
      = (raw <- blowcrypt_b64decode (ecb_payload payload13) ;;
         plain <- ecb_decrypt (CryptoLib := FlipLib) (utf8_encode (lit "A")) raw ;;
         Ok (unpack_postprocess plain)))
  /\ ((12 <= length payload13)%nat ->
      forallb in_B64 (ecb_payload payload13) = true ->
      exists plain,
        blowcrypt_unpack (L := FlipLib) (lit "+OK " ++ payload13)
          (flip_cipher (lit "A")) (lit "A") = Ok plain).
Proof.
  apply (@unpack_ecb_form FlipLib FlipLaws (lit "+OK " ++ payload13) payload13).
  - left. reflexivity.
  - reflexivity.
Defined.

(** ** Wire Codec B: the encoder *)

Lemma bits_val_range (s : bytes) (start len : nat) :
  0 <= bits_val s start len < 2 ^ Z.of_nat len.
Proof.
  induction len as [|len IH]; [cbn; lia|].
  cbn [bits_val]. rewrite Nat2Z.inj_succ, Z.pow_succ_r by lia.
  destruct (bit_at s (start + len)); cbn [Z.b2z]; lia.
Qed.

Lemma bits_val_split (s : bytes) (start x y : nat) :
  bits_val s start (x + y)
  = bits_val s start x * 2 ^ Z.of_nat y + bits_val s (start + x) y.
Proof.
  induction y as [|y IH].
  - rewrite Nat.add_0_r. cbn. lia.
  - rewrite Nat.add_succ_r. cbn [bits_val]. rewrite IH.
    rewrite Nat2Z.inj_succ, Z.pow_succ_r by lia.
    rewrite Nat.add_assoc. lia.
Qed.

Lemma nth_error_Some_lt_local {A : Type} (l : list A) (n : nat) (a : A) :
  nth_error l n = Some a -> (n < length l)%nat.
Proof. intros H. apply nth_error_Some. congruence. Qed.

Lemma bit_at_past_end (s : bytes) (i : nat) :
  (8 * length s <= i)%nat -> bit_at s i = false.
Proof.
  intros H. unfold bit_at.
  destruct (nth_error s (i / 8)) eqn:E; [|reflexivity].
  apply nth_error_Some_lt_local in E. lia.
Qed.

Lemma bits_val_past_end (s : bytes) (start len : nat) :
  (8 * length s <= start)%nat -> bits_val s start len = 0.
Proof.
  intros H. induction len as [|len IH]; [reflexivity|].
  cbn [bits_val]. rewrite IH, bit_at_past_end by lia. reflexivity.
Qed.

Lemma py_index_nonneg {A : Type} (l : list A) (i : Z) (d : A) :
  0 <= i < Z.of_nat (length l) -> py_index l i = Ok (nth (Z.to_nat i) l d).
Proof.
  intros H. unfold py_index.
  replace (i <? 0) with false by (symmetry; apply Z.ltb_ge; lia).
  replace (0 <=? i) with true by (symmetry; apply Z.leb_le; lia).
  replace (i <? Z.of_nat (length l)) with true by (symmetry; apply Z.ltb_lt; lia).
  cbn [andb].
  destruct (nth_error l (Z.to_nat i)) as [a|] eqn:E.
  - f_equal. symmetry. apply nth_error_nth. exact E.
  - apply nth_error_None in E. lia.
Qed.

Lemma py_index_b64 (v : Z) : 0 <= v < 64 -> py_index b64 v = Ok (b64char v).
Proof. intros H. apply py_index_nonneg. cbn. lia. Qed.

Lemma list_set_app {A : Type} (l1 l2 : list A) (x y : A) :
  list_set (l1 ++ y :: l2) (length l1) x = Ok (l1 ++ x :: l2).
Proof.
  induction l1 as [|a l1 IH]; [reflexivity|].
  cbn [app length list_set]. rewrite IH. reflexivity.
Qed.

Lemma list_set_at {A : Type} (l1 l2 : list A) (x y : A) (k : nat) :
  length l1 = k -> list_set (l1 ++ y :: l2) k x = Ok (l1 ++ x :: l2).
Proof. intros <-. apply list_set_app. Qed.

Lemma list_get_at {A : Type} (l1 l2 : list A) (y : A) (k : nat) :
  length l1 = k -> list_get (l1 ++ y :: l2) k = Ok y.
Proof.
  intros <-. unfold list_get.
  rewrite nth_error_app2, Nat.sub_diag by lia. reflexivity.
Qed.

Lemma list_set_past_end {A : Type} (l : list A) (i : nat) (x : A) :
  (length l <= i)%nat -> list_set l i x = Raise IndexError.
Proof.
  revert i. induction l as [|a l IH]; intros i H; [destruct i; reflexivity|].
  destruct i as [|i]; [cbn in H; lia|]. cbn [list_set].
  rewrite IH by (cbn in H; lia). reflexivity.
Qed.

Lemma land_pow2_eqb (a : Z) (k : Z) :
  0 <= k -> (Z.land a (2 ^ k) =? 0) = negb (Z.testbit a k).
Proof.
  intros Hk. destruct (Z.testbit a k) eqn:E; cbn [negb].
  - apply Z.eqb_neq. intros H.
    assert (Hb : Z.testbit (Z.land a (2 ^ k)) k = true).
    { rewrite Z.land_spec, E, Z.pow2_bits_true by lia. reflexivity. }
    rewrite H, Z.bits_0 in Hb. discriminate.
  - apply Z.eqb_eq. apply Z.bits_inj'. intros n Hn.
    rewrite Z.land_spec, Z.bits_0, Z.pow2_bits_eqb by lia.
    destruct (Z.eqb_spec k n) as [->|_]; [rewrite E; reflexivity|].
    apply andb_false_r.
Qed.

Lemma lor_even_1 (v : Z) : Z.lor (2 * v) 1 = 2 * v + 1.
Proof.
  rewrite <- Z.lxor_lor, <- Z.add_nocarry_lxor; try reflexivity.
  all: apply Z.bits_inj'; intros n Hn; rewrite Z.land_spec, Z.bits_0.
  all: destruct (Z.eq_dec n 0) as [->|Hz];
    [rewrite Z.testbit_even_0; reflexivity|].
  all: replace 1 with (2 ^ 0) by reflexivity;
    rewrite Z.pow2_bits_false by lia; apply andb_false_r.
Qed.

Lemma shiftr3 (i : nat) : Nat.shiftr i 3 = (i / 8)%nat.
Proof. rewrite Nat.shiftr_div_pow2. reflexivity. Qed.

Lemma enc_chars_succ (s : bytes) (k : nat) :
  enc_chars s (S k) = enc_chars s k ++ [b64char (enc_val s k)].
Proof.
  unfold enc_chars. rewrite seq_S, map_app. reflexivity.
Qed.

Lemma enc_chars_length (s : bytes) (k : nat) : length (enc_chars s k) = k.
Proof. unfold enc_chars. rewrite length_map, length_seq. reflexivity. Qed.

Lemma enc_val_range (s : bytes) (g : nat) : 0 <= enc_val s g < 64.
Proof. apply (bits_val_range s (6 * g) 6). Qed.

(** The bit test [s[i >> 3] & m] and the update of [t]. *)
Lemma enc_take_bit (s : bytes) (i : nat) (b : byte) :
  nth_error s (i / 8) = Some b ->
  (if Z.land (byte_val b) (2 ^ Z.of_nat (7 - i mod 8)) =? 0
   then 2 * bits_val s (i - i mod 6) (i mod 6)
   else Z.lor (2 * bits_val s (i - i mod 6) (i mod 6)) 1)
  = bits_val s (i - i mod 6) (S (i mod 6)).
Proof.
  intros Eb. rewrite land_pow2_eqb by lia. cbn [bits_val].
  replace (i - i mod 6 + i mod 6)%nat with i by lia.
  unfold bit_at. rewrite Eb.
  destruct (Z.testbit (byte_val b) (Z.of_nat (7 - i mod 8))); cbn [negb Z.b2z].
  - apply lor_even_1.
  - lia.
Qed.

(** The update of the mask [m]. *)
Lemma enc_next_mask (i : nat) :
  (if Z.shiftr (2 ^ Z.of_nat (7 - i mod 8)) 1 =? 0 then 0x80
   else Z.shiftr (2 ^ Z.of_nat (7 - i mod 8)) 1)
  = 2 ^ Z.of_nat (7 - S i mod 8).
Proof.
  rewrite Z.shiftr_div_pow2 by lia. change (2 ^ 1) with 2.
  destruct (Nat.eq_dec (i mod 8) 7) as [E|E].
  - replace (7 - i mod 8)%nat with 0%nat by lia.
    replace (7 - S i mod 8)%nat with 7%nat by lia. reflexivity.
  - replace (7 - i mod 8)%nat with (S (7 - S i mod 8)) by lia.
    rewrite Nat2Z.inj_succ, Z.pow_succ_r by lia.
    rewrite Z.mul_comm, Z.div_mul by lia.
    assert (0 < 2 ^ Z.of_nat (7 - S i mod 8)) by (apply Z.pow_pos_nonneg; lia).
    replace (2 ^ Z.of_nat (7 - S i mod 8) =? 0) with false
      by (symmetry; apply Z.eqb_neq; lia).
    reflexivity.
Qed.

Lemma enc_body_step (s : bytes) (i : nat) :
  (i < 8 * length s)%nat -> enc_body s (enc_inv s i) = Ok (enc_inv s (S i)).
Proof.
  intros Hi. unfold enc_inv at 1. unfold enc_body. rewrite shiftr3.
  unfold list_get.
  destruct (nth_error s (i / 8)) as [b|] eqn:Eb;
    [|apply nth_error_None in Eb; lia].
  cbn [bind]. rewrite (enc_take_bit s i b Eb), enc_next_mask.
  pose proof (bits_val_range s (i - i mod 6) (S (i mod 6))) as Hr.
  destruct (Nat.eq_dec (i mod 6) 5) as [E|E].
  - replace (S i mod 6 =? 0)%nat with true by (symmetry; apply Nat.eqb_eq; lia).
    rewrite E in Hr |- *.
    replace (i - 5)%nat with (6 * (i / 6))%nat by lia.
    fold (enc_val s (i / 6)).
    rewrite py_index_b64 by apply enc_val_range. cbn [bind].
    replace (length s * 2 - i / 6)%nat with (S (length s * 2 - S (i / 6))) by lia.
    cbn [repeat].
    rewrite list_set_at by (rewrite length_map; apply enc_chars_length).
    cbn [bind].
    rewrite Z.land_0_r, Z.shiftl_0_l. unfold enc_inv.
    replace (S i / 6)%nat with (S (i / 6)) by lia.
    replace (S i mod 6)%nat with 0%nat by lia.
    rewrite enc_chars_succ, map_app, <- app_assoc. cbn [map app bits_val].
    reflexivity.
  - replace (S i mod 6 =? 0)%nat with false by (symmetry; apply Nat.eqb_neq; lia).
    cbn [bind]. unfold enc_inv.
    replace (S i / 6)%nat with (i / 6)%nat by lia.
    replace (S i mod 6)%nat with (S (i mod 6)) by lia.
    replace (S i - S (i mod 6))%nat with (i - i mod 6)%nat by lia.
    rewrite Z.shiftl_mul_pow2 by lia. change (2 ^ 1) with 2.
    assert (Hp : 2 ^ Z.of_nat (S (i mod 6)) <= 2 ^ 5)
      by (apply Z.pow_le_mono_r; lia).
    change (2 ^ 5) with 32 in Hp.
    rewrite Z.mod_small by lia.
    do 2 f_equal. lia.
Qed.

Lemma enc_loop_run (s : bytes) (fuel : nat) :
  forall i, (i <= 8 * length s)%nat -> (8 * length s - i <= fuel)%nat ->
  enc_loop fuel s (length s * 8) (enc_inv s i)
  = Ok (enc_inv s (8 * length s)).
Proof.
  induction fuel as [|fuel IH]; intros i Hi Hf.
  - assert (i = (8 * length s)%nat) as -> by lia. cbn [enc_loop enc_inv e_i].
    replace (8 * length s <? length s * 8)%nat with false
      by (symmetry; apply Nat.ltb_ge; lia).
    reflexivity.
  - cbn [enc_loop]. unfold enc_inv at 1. cbn [e_i]. fold (enc_inv s i).
    destruct (Nat.ltb_spec i (length s * 8)) as [Hlt|Hge].
    + rewrite enc_body_step by lia. cbn [bind]. apply IH; lia.
    + assert (i = (8 * length s)%nat) as -> by lia. reflexivity.
Qed.

Lemma enc_init (s : bytes) :
  mk_enc 0 0 0 0 0x80 (repeat (CInt 0) (length s * 2)) = enc_inv s 0.
Proof.
  unfold enc_inv. cbn [Nat.div Nat.modulo Nat.divmod fst snd Nat.sub bits_val
                       enc_chars seq map app].
  rewrite Nat.sub_0_r. reflexivity.
Qed.

Lemma collect_chars (cs res : str) (rest : list cell) :
  collect (map CStr cs ++ CInt 0 :: rest) res = Ok (res ++ cs).
Proof.
  revert res. induction cs as [|c cs IH]; intros res; cbn [map app collect].
  - rewrite app_nil_r. reflexivity.
  - rewrite IH, <- app_assoc. reflexivity.
Qed.

(** The character emitted after the loop: the pending bits, filled with
    zero bits to a group of six. *)
Lemma enc_last_char (s : bytes) :
  let L := (8 * length s)%nat in
  Z.shiftl (2 * bits_val s (L - L mod 6) (L mod 6)) (5 - Z.of_nat (L mod 6))
    mod 0x100
  = enc_val s (L / 6).
Proof.
  intros L. unfold enc_val.
  replace (6 * (L / 6))%nat with (L - L mod 6)%nat by lia.
  assert (Hs : bits_val s (L - L mod 6) 6
               = bits_val s (L - L mod 6) (L mod 6 + (6 - L mod 6)))
    by (f_equal; lia).
  rewrite Hs, bits_val_split.
  rewrite (bits_val_past_end s (L - L mod 6 + L mod 6)) by lia.
  rewrite Z.shiftl_mul_pow2 by lia.
  replace (Z.of_nat (6 - L mod 6)) with (Z.succ (5 - Z.of_nat (L mod 6))) by lia.
  rewrite Z.pow_succ_r by lia.
  pose proof (bits_val_range s (L - L mod 6) (L mod 6)) as Hr.
  assert (Hp : 2 ^ Z.of_nat (L mod 6) * 2 ^ (5 - Z.of_nat (L mod 6)) = 2 ^ 5).
  { rewrite <- Z.pow_add_r by lia. f_equal. lia. }
  change (2 ^ 5) with 32 in Hp.
  assert (0 < 2 ^ (5 - Z.of_nat (L mod 6))) by (apply Z.pow_pos_nonneg; lia).
  rewrite Z.mod_small by nia. lia.
Qed.

(** The encoder on two bytes or more: one character per started group of
    six bits, and one more character [A] when the bits fill the groups
    exactly. *)
Lemma dh1080_b64encode_spec (s : bytes) :
  (2 <= length s)%nat ->
  dh1080_b64encode s = Ok (enc_chars s (8 * length s / 6 + 1)).
Proof.
  intros Hn. unfold dh1080_b64encode.
  rewrite enc_init, enc_loop_run by lia. cbn [bind].
  unfold enc_inv at 1. cbv zeta.
  replace (5 - Z.of_nat ((8 * length s) mod 6) =? 0) with false
    by (symmetry; apply Z.eqb_neq; lia).
  pose proof (enc_last_char s) as Hc. cbv zeta in Hc. rewrite Hc.
  rewrite py_index_b64 by apply enc_val_range. cbn [bind].
  replace (length s * 2 - 8 * length s / 6)%nat
    with (S (S (length s * 2 - S (S (8 * length s / 6))))) by lia.
  cbn [repeat].
  rewrite list_set_at by (rewrite length_map; apply enc_chars_length).
  cbn [bind].
  replace (map CStr (enc_chars s (8 * length s / 6))
           ++ CStr (b64char (enc_val s (8 * length s / 6)))
           :: CInt 0 :: repeat (CInt 0) (length s * 2 - S (S (8 * length s / 6))))
    with (map CStr (enc_chars s (S (8 * length s / 6)))
          ++ CInt 0 :: repeat (CInt 0) (length s * 2 - S (S (8 * length s / 6))))
    by (rewrite enc_chars_succ, map_app, <- app_assoc; reflexivity).
  rewrite list_set_at by (rewrite length_map; apply enc_chars_length).
  cbn [bind]. rewrite collect_chars, Nat.add_1_r. reflexivity.
Qed.

(** The encoder on a single byte: the end marker [d[k] = 0] falls
    outside the list [d] of two cells. *)
Lemma dh1080_b64encode_one_byte (b : byte) :
  dh1080_b64encode [b] = Raise IndexError.
Proof.
  unfold dh1080_b64encode.
  rewrite enc_init, enc_loop_run by (cbn [length]; lia). cbn [bind].
  unfold enc_inv at 1. cbv zeta. cbn [length].
  change (8 * 1)%nat with 8%nat. change (8 mod 6)%nat with 2%nat.
  change (8 / 6)%nat with 1%nat. change (5 - Z.of_nat 2 =? 0) with false.
  pose proof (enc_last_char [b]) as Hc. cbv zeta in Hc. cbn [length] in Hc.
  change (8 * 1)%nat with 8%nat in Hc. change (8 mod 6)%nat with 2%nat in Hc.
  change (8 / 6)%nat with 1%nat in Hc. rewrite Hc.
  rewrite py_index_b64 by apply enc_val_range. cbn [bind].
  change (1 * 2 - 1)%nat with 1%nat. cbn [repeat].
  rewrite list_set_at by (rewrite length_map; apply enc_chars_length).
  cbn [bind]. rewrite list_set_past_end; [reflexivity|].
  rewrite length_app, length_map, enc_chars_length. cbn [length]. lia.
Qed.

(** ** Wire Codec B: the decoder on an encoding *)

Lemma dh1080_buf_table : dh1080_buf = Ok buf_table.
Proof. vm_compute. reflexivity. Qed.

Lemma buf_table_length : length buf_table = 256%nat.
Proof. vm_compute. reflexivity. Qed.

(** The table maps every character of the alphabet back to its value. *)
Lemma buf_table_b64char (v : Z) :
  0 <= v < 64 -> nth (ord (b64char v)) buf_table 0 = v.
Proof.
  intros H.
  assert (Hall : forallb
                   (fun n => nth (ord (b64char (Z.of_nat n))) buf_table 0
                             =? Z.of_nat n)
                   (seq 0 64) = true) by (vm_compute; reflexivity).
  rewrite forallb_forall in Hall. specialize (Hall (Z.to_nat v)).
  rewrite Z2Nat.id in Hall by lia. apply Z.eqb_eq, Hall, in_seq. lia.
Qed.

Lemma list_get_nth {A : Type} (l : list A) (i : nat) (d : A) :
  (i < length l)%nat -> list_get l i = Ok (nth i l d).
Proof.
  intros H. unfold list_get. destruct (nth_error l i) as [a|] eqn:E.
  - f_equal. symmetry. apply nth_error_nth. exact E.
  - apply nth_error_None in E. lia.
Qed.

Lemma enc_chars_nth (s : bytes) (K k : nat) :
  (k < K)%nat -> nth k (enc_chars s K) "A"%char = b64char (enc_val s k).
Proof.
  intros H. unfold enc_chars.
  rewrite (nth_indep _ "A"%char (b64char (enc_val s 0)))
    by (rewrite length_map, length_seq; exact H).
  rewrite (map_nth (fun g => b64char (enc_val s g)) (seq 0 K) 0%nat k).
  rewrite seq_nth by exact H. reflexivity.
Qed.

Lemma buf_at_enc (s : bytes) (K k : nat) :
  (k < K)%nat -> buf_at buf_table (enc_chars s K) k = Ok (enc_val s k).
Proof.
  intros H. unfold buf_at.
  rewrite (list_get_nth _ _ "A"%char) by (rewrite enc_chars_length; exact H).
  cbn [bind]. rewrite enc_chars_nth by exact H.
  rewrite (list_get_nth _ _ 0).
  - rewrite buf_table_b64char by apply enc_val_range. reflexivity.
  - rewrite buf_table_length. apply nat_ascii_bounded.
Qed.

Lemma rev_seq_succ (m : nat) : rev (seq 0 (S m)) = m :: rev (seq 0 m).
Proof. rewrite seq_S, rev_app_distr. reflexivity. Qed.

Lemma trim_loop_enc (s : bytes) (K m : nat) :
  forall L, (m <= K)%nat ->
  trim_loop buf_table (enc_chars s K) (rev (seq 0 m)) L = Ok (trim_spec s m L).
Proof.
  induction m as [|m IH]; intros L Hm; [reflexivity|].
  rewrite rev_seq_succ. cbn [trim_loop trim_spec].
  rewrite buf_at_enc by lia. cbn [bind].
  destruct (enc_val s m =? 0); [apply IH; lia|reflexivity].
Qed.

Lemma trim_spec_bounds (s : bytes) (m : nat) :
  forall L, (L - m <= trim_spec s m L <= L)%nat.
Proof.
  induction m as [|m IH]; intros L; cbn [trim_spec]; [lia|].
  destruct (enc_val s m =? 0); [|lia]. specialize (IH (L - 1)%nat). lia.
Qed.

Lemma trim_spec_keep (s : bytes) (m L : nat) :
  (1 <= m)%nat -> enc_val s (m - 1) <> 0 -> trim_spec s m L = L.
Proof.
  intros Hm H. destruct m as [|m]; [lia|]. cbn [trim_spec].
  replace (S m - 1)%nat with m in H by lia.
  apply Z.eqb_neq in H. rewrite H. reflexivity.
Qed.

(** ** The three bytes of four characters *)

Lemma lor_disjoint (a x n : Z) :
  0 <= n -> 0 <= x < 2 ^ n -> Z.lor (a * 2 ^ n) x = a * 2 ^ n + x.
Proof.
  intros Hn Hx. rewrite <- Z.lxor_lor, <- Z.add_nocarry_lxor; try reflexivity.
  all: apply Z.bits_inj'; intros k Hk; rewrite Z.land_spec, Z.bits_0.
  all: destruct (Z.ltb_spec k n) as [Hlt|Hge];
    [rewrite Z.mul_pow2_bits_low by lia; reflexivity|].
  all: rewrite <- (Z.mod_small x (2 ^ n)) by lia;
    rewrite Z.mod_pow2_bits_high by lia; apply andb_false_r.
Qed.

Lemma enc_val_split (s : bytes) (g x y : nat) :
  (x + y = 6)%nat ->
  enc_val s g
  = bits_val s (6 * g) x * 2 ^ Z.of_nat y + bits_val s (6 * g + x) y.
Proof.
  intros H. unfold enc_val. rewrite <- H. apply bits_val_split.
Qed.

Lemma dec_byte0 (s : bytes) (a : nat) :
  Z.lor (Z.shiftl (enc_val s (4 * a)) 2 mod 0x100)
        (Z.shiftr (enc_val s (S (4 * a))) 4)
  = bits_val s (8 * (3 * a)) 8.
Proof.
  rewrite Z.shiftl_mul_pow2, Z.shiftr_div_pow2 by lia.
  rewrite (enc_val_split s (S (4 * a)) 2 4) by lia.
  replace (6 * S (4 * a))%nat with (6 * (4 * a) + 6)%nat by lia.
  replace (8 * (3 * a))%nat with (6 * (4 * a))%nat by lia.
  change (bits_val s (6 * (4 * a)) 8)
    with (bits_val s (6 * (4 * a)) (6 + 2)).
  rewrite bits_val_split.
  fold (enc_val s (4 * a)).
  pose proof (enc_val_range s (4 * a)) as H0.
  pose proof (bits_val_range s (6 * (4 * a) + 6) 2) as H1.
  pose proof (bits_val_range s (6 * (4 * a) + 6 + 2) 4) as H2.
  change (2 ^ Z.of_nat 2) with 4 in *. change (2 ^ Z.of_nat 4) with 16 in *.
  change (2 ^ 2) with 4. change (2 ^ 4) with 16.
  rewrite Z.mod_small by lia.
  rewrite Z.div_add_l, (Z.div_small _ 16), Z.add_0_r by lia.
  apply (lor_disjoint _ _ 2); lia.
Qed.

Lemma dec_byte1 (s : bytes) (a : nat) :
  Z.lor (Z.shiftl (enc_val s (S (4 * a))) 4 mod 0x100)
        (Z.shiftr (enc_val s (S (S (4 * a)))) 2)
  = bits_val s (8 * S (3 * a)) 8.
Proof.
  rewrite Z.shiftl_mul_pow2, Z.shiftr_div_pow2 by lia.
  rewrite (enc_val_split s (S (4 * a)) 2 4) by lia.
  rewrite (enc_val_split s (S (S (4 * a))) 4 2) by lia.
  replace (6 * S (4 * a) + 2)%nat with (8 * S (3 * a))%nat by lia.
  replace (6 * S (S (4 * a)))%nat with (8 * S (3 * a) + 4)%nat by lia.
  change (bits_val s (8 * S (3 * a)) 8)
    with (bits_val s (8 * S (3 * a)) (4 + 4)).
  rewrite bits_val_split.
  pose proof (bits_val_range s (6 * S (4 * a)) 2) as H0.
  pose proof (bits_val_range s (8 * S (3 * a)) 4) as H1.
  pose proof (bits_val_range s (8 * S (3 * a) + 4) 4) as H2.
  pose proof (bits_val_range s (8 * S (3 * a) + 4 + 4) 2) as H3.
  change (2 ^ Z.of_nat 2) with 4 in *. change (2 ^ Z.of_nat 4) with 16 in *.
  change (2 ^ 2) with 4. change (2 ^ 4) with 16.
  rewrite Z.div_add_l, (Z.div_small _ 4), Z.add_0_r by lia.
  replace ((bits_val s (6 * S (4 * a)) 2 * 16 + bits_val s (8 * S (3 * a)) 4)
           * 16 mod 256)
    with (bits_val s (8 * S (3 * a)) 4 * 16)
    by (Z.div_mod_to_equations; lia).
  apply (lor_disjoint _ _ 4); lia.
Qed.

Lemma dec_byte2 (s : bytes) (a : nat) :
  Z.lor (Z.shiftl (enc_val s (S (S (4 * a)))) 6 mod 0x100)
        (enc_val s (S (S (S (4 * a)))) mod 0x100)
  = bits_val s (8 * S (S (3 * a))) 8.
Proof.
  rewrite Z.shiftl_mul_pow2 by lia.
  rewrite (enc_val_split s (S (S (4 * a))) 4 2) by lia.
  replace (6 * S (S (4 * a)) + 4)%nat with (8 * S (S (3 * a)))%nat by lia.
  change (bits_val s (8 * S (S (3 * a))) 8)
    with (bits_val s (8 * S (S (3 * a))) (2 + 6)).
  rewrite bits_val_split.
  replace (8 * S (S (3 * a)) + 2)%nat with (6 * S (S (S (4 * a))))%nat by lia.
  fold (enc_val s (S (S (S (4 * a))))).
  pose proof (bits_val_range s (6 * S (S (4 * a))) 4) as H0.
  pose proof (bits_val_range s (8 * S (S (3 * a))) 2) as H1.
  pose proof (enc_val_range s (S (S (S (4 * a))))) as H2.
  change (2 ^ Z.of_nat 2) with 4 in *. change (2 ^ Z.of_nat 4) with 16 in *.
  change (2 ^ Z.of_nat 6) with 64 in *. change (2 ^ 6) with 64.
  rewrite (Z.mod_small (enc_val _ _)) by lia.
  replace ((bits_val s (6 * S (S (4 * a))) 4 * 4 + bits_val s (8 * S (S (3 * a))) 2)
           * 64 mod 256)
    with (bits_val s (8 * S (S (3 * a))) 2 * 64)
    by (Z.div_mod_to_equations; lia).
  apply (lor_disjoint _ _ 6); lia.
Qed.

(** ** The decoder's loop *)

Lemma dec_done_succ (s : bytes) (L x : nat) :
  map (fun i => bits_val s (8 * i) 8) (seq 0 x)
  ++ bits_val s (8 * x) 8 :: repeat 0 (L - S x)
  = dec_done s L (S x).
Proof.
  unfold dec_done. rewrite seq_S, map_app, <- app_assoc. reflexivity.
Qed.

Lemma dec_store_done (s : bytes) (L x : nat) (v : Z) :
  (x < L)%nat ->
  dec_store (dec_done s L x) (S x) v
  = Ok (map (fun i => bits_val s (8 * i) 8) (seq 0 x)
        ++ v mod 0x100 :: repeat 0 (L - S x)).
Proof.
  intros H. unfold dec_store, dec_done.
  replace (S x - 1)%nat with x by lia.
  replace (L - x)%nat with (S (L - S x)) by lia. cbn [repeat].
  rewrite list_set_at by (rewrite length_map, length_seq; reflexivity).
  cbn [bind].
  rewrite list_get_at by (rewrite length_map, length_seq; reflexivity).
  cbn [bind].
  rewrite list_set_at by (rewrite length_map, length_seq; reflexivity).
  reflexivity.
Qed.

Lemma dec_or_done (s : bytes) (x : nat) (y v : Z) (rest : list Z) :
  dec_or (map (fun i => bits_val s (8 * i) 8) (seq 0 x) ++ y :: rest) (S x) v
  = Ok (map (fun i => bits_val s (8 * i) 8) (seq 0 x) ++ Z.lor y v :: rest).
Proof.
  unfold dec_or. replace (S x - 1)%nat with x by lia.
  rewrite list_get_at by (rewrite length_map, length_seq; reflexivity).
  cbn [bind].
  rewrite list_set_at by (rewrite length_map, length_seq; reflexivity).
  reflexivity.
Qed.

Ltac test_true t :=
  replace t with true by (symmetry; apply Nat.ltb_lt; lia); cbn [negb].
Ltac test_false t :=
  replace t with false by (symmetry; apply Nat.ltb_ge; lia); cbn [negb].

(** One byte of the loop: [d[i - 1] = v1; d[i - 1] %= 0x100] and, a
    character later, [d[i - 1] |= v2]. *)
Ltac dec_byte K L k lem :=
  try rewrite (buf_at_enc _ K k) by lia; cbn [bind];
  rewrite dec_store_done by lia; cbn [bind];
  test_true (S k <? L)%nat;
  rewrite (buf_at_enc _ K (S k)) by lia; cbn [bind];
  rewrite dec_or_done; cbn [bind];
  rewrite lem, dec_done_succ.

Lemma dec_body_continue (s : bytes) (K L a : nat) :
  (L <= K)%nat -> (4 * a + 4 <= L)%nat ->
  dec_body buf_table (enc_chars s K) L
    (mk_dec (3 * a) (4 * a) (dec_done s L (3 * a)))
  = Ok (Continue (mk_dec (S (S (S (3 * a)))) (S (S (S (S (4 * a)))))
                   (dec_done s L (S (S (S (3 * a))))))).
Proof.
  intros HK HL. unfold dec_body. cbv beta iota zeta.
  test_true (4 * a + 1 <? L)%nat. dec_byte K L (4 * a)%nat dec_byte0.
  test_true (S (4 * a) + 1 <? L)%nat. dec_byte K L (S (4 * a)) dec_byte1.
  test_true (S (S (4 * a)) + 1 <? L)%nat. dec_byte K L (S (S (4 * a))) dec_byte2.
  reflexivity.
Qed.

Lemma dec_body_break (s : bytes) (K L a : nat) :
  (L <= K)%nat -> (4 * a <= L < 4 * a + 4)%nat ->
  exists k,
    dec_body buf_table (enc_chars s K) L
      (mk_dec (3 * a) (4 * a) (dec_done s L (3 * a)))
    = Ok (Break (mk_dec (S (dec_count L)) k (dec_done s L (dec_count L)))).
Proof.
  intros HK HL. unfold dec_body. cbv beta iota zeta.
  destruct (Nat.le_gt_cases L (4 * a + 1)) as [H1|H1].
  { test_false (4 * a + 1 <? L)%nat. eexists.
    replace (dec_count L) with (3 * a)%nat by (unfold dec_count; lia).
    reflexivity. }
  test_true (4 * a + 1 <? L)%nat. dec_byte K L (4 * a)%nat dec_byte0.
  destruct (Nat.le_gt_cases L (4 * a + 2)) as [H2|H2].
  { test_false (S (4 * a) + 1 <? L)%nat. eexists.
    replace (dec_count L) with (S (3 * a)) by (unfold dec_count; lia).
    reflexivity. }
  test_true (S (4 * a) + 1 <? L)%nat. dec_byte K L (S (4 * a)) dec_byte1.
  test_false (S (S (4 * a)) + 1 <? L)%nat. eexists.
  replace (dec_count L) with (S (S (3 * a))) by (unfold dec_count; lia).
  reflexivity.
Qed.

Lemma dec_loop_run (s : bytes) (K L : nat) (fuel : nat) :
  forall a, (L <= K)%nat -> (4 * a <= L)%nat -> (L < 4 * (a + fuel))%nat ->
  exists k,
    dec_loop fuel buf_table (enc_chars s K) L
      (mk_dec (3 * a) (4 * a) (dec_done s L (3 * a)))
    = Ok (mk_dec (S (dec_count L)) k (dec_done s L (dec_count L))).
Proof.
  induction fuel as [|fuel IH]; intros a HK Ha Hf; [lia|].
  cbn [dec_loop]. destruct (Nat.le_gt_cases (4 * a + 4) L) as [Hc|Hb].
  - rewrite dec_body_continue by lia. cbn [bind].
    replace (S (S (S (3 * a)))) with (3 * S a)%nat by lia.
    replace (S (S (S (S (4 * a))))) with (4 * S a)%nat by lia.
    apply IH; lia.
  - destruct (dec_body_break s K L a HK) as (k & Hk); [lia|].
    rewrite Hk. cbn [bind]. exists k. reflexivity.
Qed.

(** ** The round trip of Wire Codec B *)

Lemma bit_at_byte (s : bytes) (i x : nat) (b : byte) :
  nth_error s i = Some b -> (x < 8)%nat ->
  bit_at s (8 * i + x) = Z.testbit (byte_val b) (Z.of_nat (7 - x)).
Proof.
  intros Hb Hx. unfold bit_at.
  replace ((8 * i + x) / 8)%nat with i by lia.
  replace ((8 * i + x) mod 8)%nat with x by lia.
  rewrite Hb. reflexivity.
Qed.

Lemma bits_val_byte (s : bytes) (i : nat) (b : byte) :
  nth_error s i = Some b -> bits_val s (8 * i) 8 = byte_val b.
Proof.
  intros Hb. cbn [bits_val].
  rewrite !(bit_at_byte s i _ b Hb) by lia.
  destruct b; reflexivity.
Qed.

Lemma firstn_succ_nth_error {A : Type} (l : list A) (n : nat) (a : A) :
  nth_error l n = Some a -> firstn (S n) l = firstn n l ++ [a].
Proof.
  revert n. induction l as [|x l IH]; intros n H.
  - destruct n; discriminate.
  - destruct n as [|n].
    + cbn in H. injection H as ->. reflexivity.
    + cbn [nth_error] in H. rewrite firstn_cons, (IH n H). reflexivity.
Qed.

Lemma map_bits_firstn (s : bytes) (c : nat) :
  (c <= length s)%nat ->
  map (fun i => bits_val s (8 * i) 8) (seq 0 c) = map byte_val (firstn c s).
Proof.
  induction c as [|c IH]; intros H; [reflexivity|].
  destruct (nth_error s c) as [b|] eqn:E; [|apply nth_error_None in E; lia].
  rewrite seq_S, map_app, IH, (firstn_succ_nth_error s c b E), map_app by lia.
  cbn [map Nat.add]. rewrite (bits_val_byte s c b E). reflexivity.
Qed.

Lemma dec_done_firstn (s : bytes) (L c : nat) :
  firstn c (dec_done s L c) = map (fun i => bits_val s (8 * i) 8) (seq 0 c).
Proof.
  unfold dec_done.
  rewrite firstn_app, length_map, length_seq, Nat.sub_diag, firstn_all2
    by (rewrite length_map, length_seq; lia).
  cbn [firstn]. apply app_nil_r.
Qed.

(** The decoder on the encoding of [s]: it keeps [L] characters, refuses
    fewer than two, and returns the first [dec_count L] bytes of [s]. *)
Lemma dh1080_b64decode_enc (s : bytes) :
  (2 <= length s)%nat ->
  dh1080_b64decode (enc_chars s (8 * length s / 6 + 1))
  = if (trim_spec s (8 * length s / 6) (8 * length s / 6 + 1) <? 2)%nat
    then Raise ValueError
    else Ok (firstn (dec_count (trim_spec s (8 * length s / 6)
                                  (8 * length s / 6 + 1))) s).
Proof.
  intros Hn. unfold dh1080_b64decode. rewrite dh1080_buf_table. cbn [bind].
  rewrite enc_chars_length.
  replace (8 * length s / 6 + 1 <? 2)%nat with false
    by (symmetry; apply Nat.ltb_ge; lia).
  replace (8 * length s / 6 + 1 - 1)%nat with (8 * length s / 6)%nat by lia.
  rewrite trim_loop_enc by lia. cbn [bind].
  pose proof (trim_spec_bounds s (8 * length s / 6) (8 * length s / 6 + 1)) as Hb.
  set (L := trim_spec s (8 * length s / 6) (8 * length s / 6 + 1)) in *.
  destruct (Nat.ltb_spec L 2) as [Hlt|Hge]; [reflexivity|].
  destruct (dec_loop_run s (8 * length s / 6 + 1) L (S L) 0) as (k & Hk);
    try lia.
  change (3 * 0)%nat with 0%nat in Hk. change (4 * 0)%nat with 0%nat in Hk.
  unfold dec_done at 1 in Hk. cbn [seq map app] in Hk.
  rewrite Nat.sub_0_r in Hk. rewrite Hk. cbn [bind d_i d_d].
  replace (S (dec_count L) - 1)%nat with (dec_count L) by lia.
  rewrite dec_done_firstn, map_bits_firstn by (unfold dec_count; lia).
  apply bytes_new_map.
Qed.

Lemma dec_count_full (n : nat) : dec_count (8 * n / 6 + 1) = n.
Proof. unfold dec_count. lia. Qed.

(** C8 (as the code has it). For every byte string [s] of two bytes or
    more, [dh1080_b64encode(s)] succeeds, and [dh1080_b64decode] of the
    result either raises [ValueError] or returns a prefix of [s]; it
    returns [s] itself whenever the second-to-last character of the
    encoding is not [A], that is, whenever the decoder trims nothing. *)
Theorem dh1080_b64_roundtrip (s : bytes) :
  (2 <= length s)%nat ->
  exists e,
    dh1080_b64encode s = Ok e
    /\ length e = (8 * length s / 6 + 1)%nat
    /\ (dh1080_b64decode e = Raise ValueError
        \/ exists m, (m <= length s)%nat
                     /\ dh1080_b64decode e = Ok (firstn m s))
    /\ (nth (length e - 2) e "A"%char <> "A"%char ->
        dh1080_b64decode e = Ok s).
Proof.
  intros Hn. exists (enc_chars s (8 * length s / 6 + 1)).
  split; [apply dh1080_b64encode_spec, Hn|].
  split; [apply enc_chars_length|].
  rewrite dh1080_b64decode_enc, enc_chars_length by exact Hn.
  pose proof (trim_spec_bounds s (8 * length s / 6) (8 * length s / 6 + 1)) as Hb.
  split.
  - destruct (_ <? 2)%nat; [left; reflexivity|right].
    eexists. split; [|reflexivity]. unfold dec_count. lia.
  - intros Hc.
    replace (8 * length s / 6 + 1 - 2)%nat with (8 * length s / 6 - 1)%nat in Hc
      by lia.
    rewrite enc_chars_nth in Hc by lia.
    assert (Hv : enc_val s (8 * length s / 6 - 1) <> 0).
    { intros Hz. apply Hc. rewrite Hz. reflexivity. }
    rewrite trim_spec_keep by (lia || exact Hv).
    replace (8 * length s / 6 + 1 <? 2)%nat with false
      by (symmetry; apply Nat.ltb_ge; lia).
    rewrite dec_count_full, firstn_all. reflexivity.
Qed.

Lemma dh1080_b64_roundtrip_witness :
  exists e,
    dh1080_b64encode [xff; xfe; xfd] = Ok e
    /\ length e = (8 * 3 / 6 + 1)%nat
    /\ (dh1080_b64decode e = Raise ValueError
        \/ exists m, (m <= 3)%nat
                     /\ dh1080_b64decode e = Ok (firstn m [xff; xfe; xfd]))
    /\ (nth (length e - 2) e "A"%char <> "A"%char ->
        dh1080_b64decode e = Ok [xff; xfe; xfd]).
Proof. apply (dh1080_b64_roundtrip [xff; xfe; xfd]). cbn. lia. Defined.

(** C8 (as the specification words it) fails twice: a single byte is not
    encoded at all, and the decoder's trimming can take a non-zero byte
    with it. *)
Lemma dh1080_b64_roundtrip_lossy :
  dh1080_b64encode [x01] = Raise IndexError
  /\ dh1080_b64encode [x01; x02; x03; x01] = Ok (lit "AQIDAQ")
  /\ dh1080_b64decode (lit "AQIDAQ") = Ok [x01; x02; x03].
Proof. repeat split; vm_compute; reflexivity. Qed.

(** ** The decoder's iteration budget *)

Lemma list_get_raises {A : Type} (l : list A) (i : nat) (e : exn) :
  list_get l i = Raise e -> e = IndexError.
Proof. unfold list_get. destruct (nth_error l i); congruence. Qed.

Lemma list_set_raises {A : Type} (l : list A) (v : A) :
  forall i e, list_set l i v = Raise e -> e = IndexError.
Proof.
  induction l as [|a l IH]; intros i e; cbn [list_set]; [congruence|].
  destruct i as [|i]; [discriminate|].
  destruct (list_set l i v) eqn:E; cbn [bind]; [discriminate|].
  intros [= <-]. apply (IH i). exact E.
Qed.

Lemma buf_at_raises (buf : list Z) (s : str) (k : nat) (e : exn) :
  buf_at buf s k = Raise e -> e = IndexError.
Proof.
  unfold buf_at. destruct (list_get s k) eqn:E; cbn [bind].
  - apply list_get_raises.
  - intros [= <-]. apply (list_get_raises _ _ _ E).
Qed.

Lemma dec_store_raises (d : list Z) (i : nat) (v : Z) (e : exn) :
  dec_store d i v = Raise e -> e = IndexError.
Proof.
  unfold dec_store. destruct (list_set d (i - 1) v) eqn:E1; cbn [bind].
  - destruct (list_get a (i - 1)) eqn:E2; cbn [bind].
    + apply list_set_raises.
    + intros [= <-]. apply (list_get_raises _ _ _ E2).
  - intros [= <-]. apply (list_set_raises _ _ _ _ E1).
Qed.

Lemma dec_or_raises (d : list Z) (i : nat) (v : Z) (e : exn) :
  dec_or d i v = Raise e -> e = IndexError.
Proof.
  unfold dec_or. destruct (list_get d (i - 1)) eqn:E1; cbn [bind].
  - apply list_set_raises.
  - intros [= <-]. apply (list_get_raises _ _ _ E1).
Qed.

Ltac dec_case :=
  match goal with
  | |- context [bind (buf_at ?b ?s ?k) _] =>
      let E := fresh "E" in
      destruct (buf_at b s k) eqn:E; cbn [bind];
      [|apply buf_at_raises in E; exact E]
  | |- context [bind (dec_store ?d ?i ?v) _] =>
      let E := fresh "E" in
      destruct (dec_store d i v) eqn:E; cbn [bind];
      [|apply dec_store_raises in E; exact E]
  | |- context [bind (dec_or ?d ?i ?v) _] =>
      let E := fresh "E" in
      destruct (dec_or d i v) eqn:E; cbn [bind];
      [|apply dec_or_raises in E; exact E]
  | |- context [negb (?x <? ?y)%nat] =>
      destruct (Nat.ltb_spec x y); cbn [negb]; [|exact I]
  end.

(** An iteration of the decoder's loop raises [IndexError] only, and one
    that does not break has moved four characters on. *)
Lemma dec_body_progress (buf : list Z) (s : str) (L : nat) (st : dec_state) :
  match dec_body buf s L st with
  | Raise e => e = IndexError
  | Ok (Break _) => True
  | Ok (Continue st') => (d_k st' = d_k st + 4 /\ d_k st' <= L)%nat
  end.
Proof.
  destruct st as [i k d]. unfold dec_body. cbv beta iota zeta.
  repeat dec_case. cbn [d_k]. lia.
Qed.

Lemma dec_loop_budget (buf : list Z) (s : str) (L : nat) (fuel : nat) :
  forall st, (d_k st <= L < d_k st + 4 * fuel)%nat ->
  dec_loop fuel buf s L st <> Raise FuelExhausted.
Proof.
  induction fuel as [|fuel IH]; intros st Hf; [lia|].
  - cbn [dec_loop]. pose proof (dec_body_progress buf s L st) as H.
    destruct (dec_body buf s L st) as [[st'|st']|e]; cbn [bind].
    + apply IH. lia.
    + discriminate.
    + subst e. discriminate.
Qed.

(** [dh1080_b64decode] finishes within its budget on every string: it
    returns bytes or raises a Python exception. *)
Lemma dh1080_b64decode_terminates (s : str) :
  dh1080_b64decode s <> Raise FuelExhausted.
Proof.
  unfold dh1080_b64decode. rewrite dh1080_buf_table. cbn [bind].
  destruct (length s <? 2)%nat; [discriminate|].
  destruct (trim_loop buf_table s _ _) as [L|e] eqn:Et; cbn [bind].
  - destruct (L <? 2)%nat; [discriminate|].
    pose proof (dec_loop_budget buf_table s L (S L) (mk_dec 0 0 (repeat 0 L)))
      as Hb.
    destruct (dec_loop (S L) buf_table s L _) as [st|e]; cbn [bind].
    + clear Hb. generalize (firstn (d_i st - 1) (d_d st)). intros l.
      induction l as [|z l IH]; cbn [bytes_new]; [discriminate|].
      unfold byte_new.
      destruct ((0 <=? z) && (z <? 256)); [|discriminate].
      destruct (Byte.of_N (Z.to_N z)); cbn [bind]; [|discriminate].
      destruct (bytes_new l); cbn [bind]; [discriminate|exact IH].
    + intros [= ->]. apply Hb; [cbn [d_k]; lia|reflexivity].
  - intros [= ->]. revert Et. generalize (length s) at 2.
    generalize (rev (seq 0 (length s - 1))).
    intros idxs. induction idxs as [|i idxs IH]; intros L; cbn [trim_loop];
      [discriminate|].
    destruct (buf_at buf_table s i) as [v|e] eqn:Eb; cbn [bind].
    + destruct (v =? 0); [apply IH|discriminate].
    + apply buf_at_raises in Eb. subst e. discriminate.
Qed.

(** ** Evaluating [pow3] on the group *)

Lemma square_mod (b e m : Z) :
  0 <= e -> m <> 0 ->
  (b ^ e mod m * (b ^ e mod m)) mod m = b ^ (2 * e) mod m.
Proof.
  intros He Hm. rewrite <- Z.mul_mod by exact Hm. f_equal.
  replace (2 * e) with (e + e) by lia. rewrite Z.pow_add_r by lia. reflexivity.
Qed.

Lemma powmodN_spec (b : bigN) (e : positive) (m : bigN) :
  0 < BigN.to_Z m ->
  BigN.to_Z (powmodN b e m) = BigN.to_Z b ^ Z.pos e mod BigN.to_Z m.
Proof.
  intros Hm. induction e as [e IH|e IH|]; cbn [powmodN].
  - rewrite !BigN.spec_modulo, !BigN.spec_mul, BigN.spec_modulo, BigN.spec_mul, IH.
    rewrite square_mod, Z.mul_mod_idemp_l by lia.
    f_equal. rewrite Pos2Z.inj_xI, Z.pow_add_r, Z.pow_1_r by lia. reflexivity.
  - rewrite !BigN.spec_modulo, !BigN.spec_mul, IH.
    rewrite square_mod by lia. reflexivity.
  - rewrite BigN.spec_modulo, Z.pow_1_r. reflexivity.
Qed.

Lemma pow3_fast_spec (b e m : Z) :
  0 <= b -> 0 < e -> 0 < m -> pow3 b e m = pow3_fast b e m.
Proof.
  intros Hb He Hm. unfold pow3, pow3_fast.
  rewrite powmodN_spec by (rewrite BigN.spec_N_of_Z; lia).
  rewrite !BigN.spec_N_of_Z, Z2Pos.id by lia. reflexivity.
Qed.

Lemma p_dh1080_large : 4 < p_dh1080.
Proof. vm_compute. reflexivity. Qed.

Lemma q_dh1080_pos : 0 < q_dh1080.
Proof. vm_compute. reflexivity. Qed.

(** [p - 1] has order two: it fails the subgroup test. *)
Lemma pow3_p_minus_1 : pow3 (p_dh1080 - 1) q_dh1080 p_dh1080 = p_dh1080 - 1.
Proof.
  rewrite pow3_fast_spec.
  - vm_compute. reflexivity.
  - pose proof p_dh1080_large. lia.
  - exact q_dh1080_pos.
  - pose proof p_dh1080_large. lia.
Qed.

Lemma draw1_private_pos : 0 < bytes2int draw1.
Proof. vm_compute. reflexivity. Qed.

Lemma draw2_private_pos : 0 < bytes2int draw2.
Proof. vm_compute. reflexivity. Qed.

Lemma public2_spec : pow3 g_dh1080 (bytes2int draw2) p_dh1080 = public2.
Proof.
  rewrite pow3_fast_spec.
  - vm_compute. reflexivity.
  - unfold g_dh1080. lia.
  - exact draw2_private_pos.
  - pose proof p_dh1080_large. lia.
Qed.

Lemma public2_range : 2 <= public2 <= p_dh1080 - 2.
Proof. split; vm_compute; discriminate. Qed.

Lemma public2_valid : pow3 public2 q_dh1080 p_dh1080 = 1.
Proof.
  rewrite pow3_fast_spec.
  - vm_compute. reflexivity.
  - pose proof public2_range. lia.
  - exact q_dh1080_pos.
  - pose proof p_dh1080_large. lia.
Qed.

Lemma draw1_rejected :
  keypair_ok (pow3 g_dh1080 (bytes2int draw1) p_dh1080) = false.
Proof.
  rewrite pow3_fast_spec.
  - unfold keypair_ok, dh_validate_public.
    destruct ((2 <=? _) && (_ <=? _)); [|reflexivity].
    rewrite pow3_fast_spec.
    + vm_compute. reflexivity.
    + vm_compute. discriminate.
    + exact q_dh1080_pos.
    + pose proof p_dh1080_large. lia.
  - unfold g_dh1080. lia.
  - exact draw1_private_pos.
  - pose proof p_dh1080_large. lia.
Qed.

(** ** Key generation *)

(** The test of the key generation loop, in the words of the
    specification: [p - 1] passes the range test of the code and fails
    its subgroup test. *)
Lemma keypair_ok_iff (pub : Z) :
  keypair_ok pub = true
  <-> 2 <= pub <= p_dh1080 - 2 /\ pow3 pub q_dh1080 p_dh1080 = 1.
Proof.
  unfold keypair_ok, dh_validate_public. pose proof p_dh1080_large as Hp.
  destruct (Z.leb_spec 2 pub) as [H2|H2]; cbn [andb].
  - destruct (Z.leb_spec pub (p_dh1080 - 1)) as [H1|H1].
    + rewrite Z.eqb_eq. split.
      * intros Hv. split; [|symmetry; exact Hv].
        destruct (Z.eq_dec pub (p_dh1080 - 1)) as [->|Hne]; [|lia].
        rewrite pow3_p_minus_1 in Hv. lia.
      * intros [_ Hv]. symmetry. exact Hv.
    + split; [discriminate|]. intros [Hr _]. lia.
  - split; [discriminate|]. intros [Hr _]. lia.
Qed.

Lemma keygen_loop_cons (r : bytes) (urandom : list bytes) :
  keygen_loop (r :: urandom)
  = if keypair_ok (pow3 g_dh1080 (bytes2int r) p_dh1080)
    then Some (bytes2int r, pow3 g_dh1080 (bytes2int r) p_dh1080)
    else keygen_loop urandom.
Proof. reflexivity. Qed.

Lemma keygen_loop_spec (urandom : list bytes) (priv pub : Z) :
  keygen_loop urandom = Some (priv, pub) ->
  pub = pow3 g_dh1080 priv p_dh1080
  /\ keypair_ok pub = true
  /\ exists rejected r rest,
       urandom = rejected ++ r :: rest
       /\ priv = bytes2int r
       /\ Forall (fun r' =>
                    keypair_ok (pow3 g_dh1080 (bytes2int r') p_dh1080) = false)
                 rejected.
Proof.
  induction urandom as [|r urandom IH]; [discriminate|].
  rewrite keygen_loop_cons.
  destruct (keypair_ok (pow3 g_dh1080 (bytes2int r) p_dh1080)) eqn:E.
  - intros [= <- <-]. split; [reflexivity|]. split; [exact E|].
    exists [], r, urandom. repeat split. constructor.
  - intros H. destruct (IH H) as (Hpub & Hok & rej & r' & rest & -> & Hp & Hr).
    split; [exact Hpub|]. split; [exact Hok|].
    exists (r :: rej), r', rest. repeat split; [exact Hp|].
    constructor; assumption.
Qed.

(** C4. A context that the constructor returns holds
    [public = g ^ private mod p] with [2 <= public <= p - 2] and
    [public ^ q mod p = 1]; its private exponent is the first draw that
    meets these conditions, every earlier draw was resampled. *)
Theorem keygen_accepts_only_valid (cbc : bool) (urandom : list bytes)
  (ctx : DH1080Ctx) :
  DH1080Ctx_init cbc urandom = Some ctx ->
  public ctx = pow3 g_dh1080 (private ctx) p_dh1080
  /\ 2 <= public ctx <= p_dh1080 - 2
  /\ pow3 (public ctx) q_dh1080 p_dh1080 = 1
  /\ exists rejected r rest,
       urandom = rejected ++ r :: rest
       /\ private ctx = bytes2int r
       /\ Forall (fun r' =>
                    let pub' := pow3 g_dh1080 (bytes2int r') p_dh1080 in
                    ~ (2 <= pub' <= p_dh1080 - 2
                       /\ pow3 pub' q_dh1080 p_dh1080 = 1))
                 rejected.
Proof.
  unfold DH1080Ctx_init.
  destruct (keygen_loop urandom) as [[priv pub]|] eqn:E; [|discriminate].
  intros [= <-]. cbn [public private].
  destruct (keygen_loop_spec urandom priv pub E)
    as (Hpub & Hok & rej & r & rest & Hu & Hp & Hr).
  apply keypair_ok_iff in Hok. destruct Hok as [Hrange Hv].
  split; [exact Hpub|]. split; [exact Hrange|]. split; [exact Hv|].
  exists rej, r, rest. split; [exact Hu|]. split; [exact Hp|].
  eapply Forall_impl; [|exact Hr]. cbv beta zeta. intros r' Hrej Hgood.
  apply keypair_ok_iff in Hgood. congruence.
Qed.

Lemma init_ctx2 : DH1080Ctx_init true [draw1; draw2] = Some ctx2.
Proof.
  unfold DH1080Ctx_init. rewrite !keygen_loop_cons, draw1_rejected, public2_spec.
  assert (Hok : keypair_ok public2 = true).
  { apply keypair_ok_iff. split; [exact public2_range|exact public2_valid]. }
  rewrite Hok. reflexivity.
Qed.

Lemma keygen_accepts_only_valid_witness :
  public ctx2 = pow3 g_dh1080 (private ctx2) p_dh1080
  /\ 2 <= public ctx2 <= p_dh1080 - 2
  /\ pow3 (public ctx2) q_dh1080 p_dh1080 = 1
  /\ exists rejected r rest,
       [draw1; draw2] = rejected ++ r :: rest
       /\ private ctx2 = bytes2int r
       /\ Forall (fun r' =>
                    let pub' := pow3 g_dh1080 (bytes2int r') p_dh1080 in
                    ~ (2 <= pub' <= p_dh1080 - 2
                       /\ pow3 pub' q_dh1080 p_dh1080 = 1))
                 rejected.
Proof. apply (keygen_accepts_only_valid true [draw1; draw2] ctx2 init_ctx2). Defined.

(** ** [dh1080_unpack] *)

Lemma unpack_try_spec (legacy : bool) (msg : str) (ctx : DH1080Ctx) :
  unpack_try legacy msg ctx
  = match unpack_fields msg with
    | Ok (cmd, pub, rest) =>
        if (1 <? pub) && (pub <? p_dh1080) then
          Ok (mk_ctx (public ctx) (private ctx)
                (pow3 pub (private ctx) p_dh1080) (state ctx)
                (existsb (str_eqb (lit "CBC")) rest
                 || (legacy && str_eqb cmd (lit "DH1080_INIT_CBC"))))
        else Raise ValueError
    | Raise e => Raise e
    end.
Proof.
  unfold unpack_try. destruct (unpack_fields msg) as [[[cmd pub] rest]|e];
    cbn [bind]; [|reflexivity].
  destruct ((1 <? pub) && (pub <? p_dh1080)); reflexivity.
Qed.

Lemma dh1080_unpack_refused (msg : str) (ctx : DH1080Ctx) :
  state ctx = 0 \/ state ctx = 1 ->
  command_ok (state ctx) msg = false ->
  dh1080_unpack msg ctx = (Raise ValueError, ctx).
Proof.
  intros Hs Hc. unfold dh1080_unpack, command_ok in *.
  destruct (startswith msg (lit "DH1080_")); cbn [negb andb] in *;
    [|reflexivity].
  destruct Hs as [Hs|Hs]; rewrite Hs in *; cbn [Z.eqb] in *.
  - rewrite <- negb_orb, Hc. reflexivity.
  - rewrite Hc. reflexivity.
Qed.

Lemma dh1080_unpack_accepted (msg : str) (ctx : DH1080Ctx) :
  state ctx = 0 \/ state ctx = 1 ->
  command_ok (state ctx) msg = true ->
  dh1080_unpack msg ctx
  = unpack_except (set_state ctx 1)
      (unpack_try (state ctx =? 0) msg (set_state ctx 1)).
Proof.
  intros Hs Hc. unfold dh1080_unpack, command_ok in *.
  destruct (startswith msg (lit "DH1080_")); cbn [negb andb] in *;
    [|discriminate].
  destruct Hs as [Hs|Hs]; rewrite Hs in *; cbn [Z.eqb] in *.
  - rewrite <- negb_orb, Hc. reflexivity.
  - rewrite Hc. reflexivity.
Qed.

Lemma dh1080_unpack_outcome (msg : str) (ctx : DH1080Ctx) :
  state ctx = 0 \/ state ctx = 1 ->
  command_ok (state ctx) msg = true ->
  dh1080_unpack msg ctx
  = match unpack_fields msg with
    | Ok (cmd, pub, rest) =>
        if (1 <? pub) && (pub <? p_dh1080) then
          (Ok true,
           mk_ctx (public ctx) (private ctx)
             (pow3 pub (private ctx) p_dh1080) 1
             (existsb (str_eqb (lit "CBC")) rest
              || ((state ctx =? 0) && str_eqb cmd (lit "DH1080_INIT_CBC"))))
        else (Raise ValueError, set_state ctx 1)
    | Raise _ => (Raise ValueError, set_state ctx 1)
    end.
Proof.
  intros Hs Hc. rewrite (dh1080_unpack_accepted msg ctx Hs Hc), unpack_try_spec.
  destruct (unpack_fields msg) as [[[cmd pub] rest]|e]; [|reflexivity].
  destruct ((1 <? pub) && (pub <? p_dh1080)); reflexivity.
Qed.

Lemma range_test (pub : Z) :
  (1 <? pub) && (pub <? p_dh1080) = true <-> 1 < pub < p_dh1080.
Proof. rewrite andb_true_iff, !Z.ltb_lt. reflexivity. Qed.

(** C1 (as the code has it). [dh1080_unpack] raises [ValueError]
    whenever the decoded public value is not strictly between 1 and [p]
    (0 and 1 are refused, and so is every value from [p] on), and leaves
    the secret as it was; it returns only after deriving
    [secret = public ^ private mod p] from a decoded value strictly
    between 1 and [p], and it does so for every such value on a message
    whose command token is accepted: there is no further test. *)
Theorem dh1080_unpack_public_range (msg : str) (ctx : DH1080Ctx) :
  state ctx = 0 \/ state ctx = 1 ->
  (forall cmd pub rest,
     unpack_fields msg = Ok (cmd, pub, rest) ->
     pub <= 1 \/ p_dh1080 <= pub ->
     fst (dh1080_unpack msg ctx) = Raise ValueError
     /\ secret (snd (dh1080_unpack msg ctx)) = secret ctx)
  /\ (fst (dh1080_unpack msg ctx) = Ok true ->
      exists cmd pub rest,
        command_ok (state ctx) msg = true
        /\ unpack_fields msg = Ok (cmd, pub, rest)
        /\ 1 < pub < p_dh1080
        /\ secret (snd (dh1080_unpack msg ctx))
           = pow3 pub (private ctx) p_dh1080)
  /\ (forall cmd pub rest,
        command_ok (state ctx) msg = true ->
        unpack_fields msg = Ok (cmd, pub, rest) ->
        1 < pub < p_dh1080 ->
        fst (dh1080_unpack msg ctx) = Ok true
        /\ secret (snd (dh1080_unpack msg ctx))
           = pow3 pub (private ctx) p_dh1080).
Proof.
  intros Hs. destruct (command_ok (state ctx) msg) eqn:Hc.
  - rewrite (dh1080_unpack_outcome msg ctx Hs Hc). split; [|split].
    + intros cmd pub rest -> Hout.
      destruct ((1 <? pub) && (pub <? p_dh1080)) eqn:E.
      * apply range_test in E. lia.
      * split; reflexivity.
    + destruct (unpack_fields msg) as [[[cmd pub] rest]|e]; [|discriminate].
      destruct ((1 <? pub) && (pub <? p_dh1080)) eqn:E; [|discriminate].
      intros _. exists cmd, pub, rest. apply range_test in E.
      repeat split; try reflexivity; lia.
    + intros cmd pub rest _ -> Hin. apply range_test in Hin. rewrite Hin.
      split; reflexivity.
  - rewrite (dh1080_unpack_refused msg ctx Hs Hc). split; [|split].
    + intros. split; reflexivity.
    + discriminate.
    + discriminate.
Qed.

Lemma unpack_fields_p_minus_1 :
  unpack_fields msg_p_minus_1 = Ok (lit "DH1080_INIT", p_dh1080 - 1, []).
Proof. vm_compute. reflexivity. Qed.

Lemma dh1080_unpack_public_range_witness :
  (forall cmd pub rest,
     unpack_fields msg_p_minus_1 = Ok (cmd, pub, rest) ->
     pub <= 1 \/ p_dh1080 <= pub ->
     fst (dh1080_unpack msg_p_minus_1 ctx2) = Raise ValueError
     /\ secret (snd (dh1080_unpack msg_p_minus_1 ctx2)) = secret ctx2)
  /\ (fst (dh1080_unpack msg_p_minus_1 ctx2) = Ok true ->
      exists cmd pub rest,
        command_ok (state ctx2) msg_p_minus_1 = true
        /\ unpack_fields msg_p_minus_1 = Ok (cmd, pub, rest)
        /\ 1 < pub < p_dh1080
        /\ secret (snd (dh1080_unpack msg_p_minus_1 ctx2))
           = pow3 pub (private ctx2) p_dh1080)
  /\ (forall cmd pub rest,
        command_ok (state ctx2) msg_p_minus_1 = true ->
        unpack_fields msg_p_minus_1 = Ok (cmd, pub, rest) ->
        1 < pub < p_dh1080 ->
        fst (dh1080_unpack msg_p_minus_1 ctx2) = Ok true
        /\ secret (snd (dh1080_unpack msg_p_minus_1 ctx2))
           = pow3 pub (private ctx2) p_dh1080).
Proof.
  apply (dh1080_unpack_public_range msg_p_minus_1 ctx2).
  left. reflexivity.
Defined.

(** C1 (as the specification words it) fails: the message that carries
    the public value [p - 1] is accepted, although [p - 1] is not below
    [p - 1] and fails the subgroup test, and a secret is derived from
    it. *)
Lemma dh1080_unpack_accepts_p_minus_1 :
  reachable ctx2
  /\ (b <- int2bytes (p_dh1080 - 1) ;;
      e <- dh1080_b64encode b ;;
      Ok (lit "DH1080_INIT " ++ e)) = Ok msg_p_minus_1
  /\ unpack_fields msg_p_minus_1 = Ok (lit "DH1080_INIT", p_dh1080 - 1, [])
  /\ dh_validate_public (p_dh1080 - 1) q_dh1080 p_dh1080 = false
  /\ fst (dh1080_unpack msg_p_minus_1 ctx2) = Ok true
  /\ secret (snd (dh1080_unpack msg_p_minus_1 ctx2)) = 1.
Proof.
  pose proof p_dh1080_large as Hp.
  split; [exact (reach_init true [draw1; draw2] ctx2 init_ctx2)|].
  split; [vm_compute; reflexivity|].
  split; [exact unpack_fields_p_minus_1|]. split.
  - unfold dh_validate_public. rewrite pow3_p_minus_1. apply Z.eqb_neq. lia.
  - rewrite (dh1080_unpack_outcome msg_p_minus_1 ctx2)
      by (try (left; reflexivity); reflexivity).
    rewrite unpack_fields_p_minus_1.
    replace ((1 <? p_dh1080 - 1) && (p_dh1080 - 1 <? p_dh1080)) with true
      by (symmetry; apply range_test; lia).
    split; [reflexivity|]. cbn [snd secret private ctx2].
    rewrite pow3_fast_spec.
    + vm_compute. reflexivity.
    + lia.
    + exact draw2_private_pos.
    + lia.
Qed.

(** C10. [dh1080_unpack] returns [True] or raises [ValueError]: it never
    returns a false value, and the failure branch of
    [fish_modifier_in_notice_cb] after a call that did not raise is never
    taken. *)
Theorem dh1080_unpack_true_or_raises (msg : str) (ctx : DH1080Ctx) :
  (fst (dh1080_unpack msg ctx) = Ok true
   \/ fst (dh1080_unpack msg ctx) = Raise ValueError)
  /\ notice_cb_failure_branch msg ctx = false.
Proof.
  assert (H : fst (dh1080_unpack msg ctx) = Ok true
              \/ fst (dh1080_unpack msg ctx) = Raise ValueError).
  { unfold dh1080_unpack.
    destruct (negb (startswith msg (lit "DH1080_"))); [right; reflexivity|].
    destruct (state ctx =? 0).
    - destruct (_ && _); [right; reflexivity|].
      destruct (unpack_try true msg _); [left|right]; reflexivity.
    - destruct (state ctx =? 1); [|left; reflexivity].
      destruct (negb _); [right; reflexivity|].
      destruct (unpack_try false msg _); [left|right]; reflexivity. }
  split; [exact H|]. unfold notice_cb_failure_branch.
  destruct H as [-> | ->]; reflexivity.
Qed.

(** ** The state of a context *)

Lemma dh1080_pack_ctx (ctx : DH1080Ctx) :
  snd (dh1080_pack ctx) = if state ctx =? 0 then set_state ctx 1 else ctx.
Proof. unfold dh1080_pack. destruct (state ctx =? 0); reflexivity. Qed.

Lemma ctx_step_inv (ctx ctx' : DH1080Ctx) :
  ctx_step ctx ctx' -> ctx_inv ctx ->
  ctx_inv ctx' /\ state ctx <= state ctx'.
Proof.
  intros Hstep [Hs Hsec]. destruct Hstep as [ctx|msg ctx].
  - rewrite dh1080_pack_ctx. destruct (Z.eqb_spec (state ctx) 0) as [E|E].
    + unfold ctx_inv. cbn [set_state state secret]. split; [split|]; auto; lia.
    + split; [split; assumption|lia].
  - destruct (command_ok (state ctx) msg) eqn:Ec.
    + rewrite (dh1080_unpack_outcome msg ctx Hs Ec).
      destruct (unpack_fields msg) as [[[cmd pub] rest]|e].
      * destruct ((1 <? pub) && (pub <? p_dh1080));
          unfold ctx_inv; cbn [snd set_state state secret];
          split; try split; auto; lia.
      * unfold ctx_inv. cbn [snd set_state state secret].
        split; [split|]; auto; lia.
    + rewrite (dh1080_unpack_refused msg ctx Hs Ec). cbn [snd].
      split; [split; assumption|lia].
Qed.

Lemma reachable_inv (ctx : DH1080Ctx) : reachable ctx -> ctx_inv ctx.
Proof.
  induction 1 as [cbc urandom ctx Hinit|ctx ctx' _ IH Hstep].
  - unfold DH1080Ctx_init in Hinit.
    destruct (keygen_loop urandom) as [[priv pub]|]; [|discriminate].
    injection Hinit as <-. split; cbn [state secret]; [left; reflexivity|].
    intros H. congruence.
  - apply (ctx_step_inv ctx ctx' Hstep IH).
Qed.

(** C2 (as the code has it). In every reachable context the state is 0
    or 1, and a non-zero secret implies state 1; every [dh1080_pack] and
    [dh1080_unpack] leaves the state where it is or moves it from 0 to 1,
    never back, and [dh1080_pack] always leaves state 1.  State 1 does
    not imply a non-zero secret. *)
Theorem dh1080_state_monotone (ctx : DH1080Ctx) :
  reachable ctx ->
  (state ctx = 0 \/ state ctx = 1)
  /\ (secret ctx <> 0 -> state ctx = 1)
  /\ (forall ctx', ctx_step ctx ctx' ->
      state ctx <= state ctx' /\ (state ctx' = 0 \/ state ctx' = 1))
  /\ state (snd (dh1080_pack ctx)) = 1.
Proof.
  intros Hr. destruct (reachable_inv ctx Hr) as [Hs Hsec].
  split; [exact Hs|]. split; [exact Hsec|]. split.
  - intros ctx' Hstep.
    destruct (ctx_step_inv ctx ctx' Hstep (conj Hs Hsec)) as [[Hs' _] Hle].
    split; assumption.
  - rewrite dh1080_pack_ctx. destruct (Z.eqb_spec (state ctx) 0); [reflexivity|].
    lia.
Qed.

Lemma reachable_ctx2 : reachable ctx2.
Proof. exact (reach_init true [draw1; draw2] ctx2 init_ctx2). Qed.

Lemma dh1080_state_monotone_witness :
  (state ctx2 = 0 \/ state ctx2 = 1)
  /\ (secret ctx2 <> 0 -> state ctx2 = 1)
  /\ (forall ctx', ctx_step ctx2 ctx' ->
      state ctx2 <= state ctx' /\ (state ctx' = 0 \/ state ctx' = 1))
  /\ state (snd (dh1080_pack ctx2)) = 1.
Proof. apply (dh1080_state_monotone ctx2 reachable_ctx2). Defined.

(** C2 (as the specification words it) fails: [dh1080_pack] on a fresh
    context builds the INIT message and leaves state 1, with the secret
    still zero. *)
Lemma dh1080_pack_sets_state_without_secret :
  reachable (snd (dh1080_pack ctx2))
  /\ startswith
       (match fst (dh1080_pack ctx2) with Ok m => m | Raise _ => [] end)
       (lit "DH1080_INIT ") = true
  /\ state (snd (dh1080_pack ctx2)) = 1
  /\ secret (snd (dh1080_pack ctx2)) = 0.
Proof.
  split; [|split; [|split]].
  - apply (reach_step ctx2); [exact reachable_ctx2|constructor].
  - vm_compute. reflexivity.
  - reflexivity.
  - reflexivity.
Qed.

(** * Further properties *)

(** ** Padding and the packed form *)

(** X1. [padto] appends the least number of zero bytes that makes the
    length a multiple of the block length: fewer than a block, and none
    exactly when the message is aligned already. *)
Theorem padto_minimal (msg : bytes) (len : nat) :
  (1 <= len)%nat ->
  exists n,
    padto msg len = Ok (msg ++ repeat x00 n)
    /\ (n < len)%nat
    /\ ((length msg + n) mod len = 0)%nat
    /\ (n = 0%nat <-> (length msg mod len = 0)%nat).
Proof.
  intros Hlen. unfold padto.
  pose proof (Nat.mod_upper_bound (length msg) len ltac:(lia)) as Hb.
  pose proof (Nat.div_mod_eq (length msg) len) as Hd.
  destruct (length msg mod len =? 0)%nat eqn:E.
  - exists 0%nat. cbn [repeat]. rewrite app_nil_r, E, Nat.add_0_r.
    apply Nat.eqb_eq in E. repeat split; auto; lia.
  - apply Nat.eqb_neq in E. exists (len - length msg mod len)%nat.
    assert (H : ((length msg + (len - length msg mod len)) mod len = 0)%nat).
    { replace (length msg + (len - length msg mod len))%nat
        with ((length msg / len + 1) * len)%nat by nia.
      apply Nat.Div0.mod_mul. }
    rewrite length_app, repeat_length, H. cbn [Nat.eqb].
    repeat split; auto; lia.
Qed.

Lemma padto_minimal_witness :
  exists n,
    padto hello_world 8 = Ok (hello_world ++ repeat x00 n)
    /\ (n < 8)%nat
    /\ ((length hello_world + n) mod 8 = 0)%nat
    /\ (n = 0%nat <-> (length hello_world mod 8 = 0)%nat).
Proof. apply (padto_minimal hello_world 8). lia. Defined.

Lemma padto_block (msg : bytes) :
  exists n,
    padto msg 8 = Ok (msg ++ repeat x00 n)
    /\ (n < 8)%nat
    /\ ((length msg + n) mod 8 = 0)%nat.
Proof.
  pose proof (Nat.mod_upper_bound (length msg) 8 ltac:(lia)) as Hb.
  pose proof (Nat.div_mod_eq (length msg) 8) as Hd.
  unfold padto. cbv zeta.
  destruct (length msg mod 8 =? 0)%nat eqn:E.
  - exists 0%nat. cbn [repeat]. rewrite app_nil_r, E, Nat.add_0_r.
    apply Nat.eqb_eq in E. split; [reflexivity|]. split; [lia|exact E].
  - apply Nat.eqb_neq in E. exists (8 - length msg mod 8)%nat.
    assert (H : ((length msg + (8 - length msg mod 8)) mod 8 = 0)%nat).
    { replace (length msg + (8 - length msg mod 8))%nat
        with ((length msg / 8 + 1) * 8)%nat by lia.
      apply Nat.Div0.mod_mul. }
    rewrite length_app, repeat_length, H. cbn [Nat.eqb].
    split; [reflexivity|]. split; [lia|reflexivity].
Qed.

Lemma lstrip_app (c : byte) (a b : bytes) :
  lstrip c (a ++ b)
  = match lstrip c a with
    | [] => lstrip c b
    | _ :: _ => lstrip c a ++ b
    end.
Proof.
  induction a as [|x a IH]; [reflexivity|].
  cbn [app lstrip]. destruct (Byte.eqb x c); [exact IH|reflexivity].
Qed.

Lemma rstrip_repeat (c : byte) (n : nat) (b : bytes) :
  rstrip c (b ++ repeat c n) = rstrip c b.
Proof.
  unfold rstrip. rewrite rev_app_distr, rev_repeat, lstrip_repeat. reflexivity.
Qed.

Lemma strip_padded (c : byte) (n : nat) (b : bytes) :
  strip c (b ++ repeat c n) = strip c b.
Proof.
  unfold strip. rewrite lstrip_app. destruct (lstrip c b) as [|x l] eqn:E.
  - rewrite <- (app_nil_r (repeat c n)), lstrip_repeat. reflexivity.
  - apply rstrip_repeat.
Qed.

(** What the zero padding costs: nothing that the post-processing does
    not remove anyway. *)
Lemma unpack_postprocess_pad (m : bytes) (n : nat) :
  unpack_postprocess (m ++ repeat x00 n) = unpack_postprocess m.
Proof. unfold unpack_postprocess. rewrite strip_padded. reflexivity. Qed.

Section PackedForm.

Context {L : CryptoLib} {Laws : CryptoLibLaws L}.

(** The ECB branch of [blowcrypt_pack], step by step. *)
Lemma pack_ecb_spec (m : bytes) (c : ecb_cipher) :
  exists n ct e,
    padto m 8 = Ok (m ++ repeat x00 n)
    /\ (n < 8)%nat
    /\ ecb_encrypt c (m ++ repeat x00 n) = Ok ct
    /\ length ct = (length m + n)%nat
    /\ ((length m + n) mod 8 = 0)%nat
    /\ blowcrypt_b64encode ct = Ok e
    /\ length e = (12 * ((length m + n) / 8))%nat
    /\ forallb in_B64 e = true
    /\ blowcrypt_b64decode e = Ok ct
    /\ blowcrypt_pack m {| blowfish := Some c |} None = Ok (lit "+OK " ++ e).
Proof.
  destruct (padto_block m) as (n & Hpad & Hn & Hal).
  assert (Hal' : (length (m ++ repeat x00 n) mod 8 = 0)%nat)
    by (rewrite length_app, repeat_length; exact Hal).
  destruct (ecb_encrypt_aligned c _ Hal') as (ct & Henc & Hlen).
  rewrite length_app, repeat_length in Hlen.
  assert (Hct : (length ct mod 8 = 0)%nat) by (rewrite Hlen; exact Hal).
  destruct (codecA_roundtrip ct Hct) as (e & He & Hle & Hd).
  rewrite Hlen in Hle.
  assert (Hmod : (length e mod 12 = 0)%nat).
  { rewrite Hle, Nat.mul_comm. apply Nat.Div0.mod_mul. }
  assert (Hall : forallb in_B64 e = true).
  { destruct (blowcrypt_b64decode_total e Hmod) as [_ Hb].
    destruct (forallb in_B64 e); [reflexivity|].
    rewrite (Hb eq_refl) in Hd. discriminate. }
  exists n, ct, e. repeat split; try assumption.
  unfold blowcrypt_pack, Blowfish_encrypt. cbn [blowfish].
  rewrite Hpad. cbn [bind]. rewrite Henc. cbn [bind]. rewrite He. reflexivity.
Qed.

Lemma in_B64_not_star (e : str) :
  forallb in_B64 e = true -> startswith e (lit "*") = false.
Proof.
  destruct e as [|x e]; [reflexivity|]. cbn [forallb]. intros Hall.
  apply andb_true_iff in Hall. destruct Hall as [Hx _].
  cbn. destruct (Ascii.eqb x "*") eqn:E; [|reflexivity].
  apply Ascii.eqb_eq in E. subst x. rewrite star_not_in_B64 in Hx.
  discriminate.
Qed.

(** X2. The shape of an ECB packing: the prefix [+OK ] and then twelve
    characters of the Codec A alphabet for every started block of eight
    plaintext bytes. *)
Theorem blowcrypt_pack_ecb_shape (m : bytes) (c : ecb_cipher) :
  exists e,
    blowcrypt_pack m {| blowfish := Some c |} None = Ok (lit "+OK " ++ e)
    /\ length e = (12 * ((length m + 7) / 8))%nat
    /\ forallb in_B64 e = true.
Proof.
  destruct (pack_ecb_spec m c)
    as (n & ct & e & _ & Hn & _ & _ & Hal & _ & Hle & Hall & _ & Hp).
  exists e. split; [exact Hp|]. split; [|exact Hall].
  rewrite Hle. f_equal.
  pose proof (Nat.div_mod_eq (length m + n) 8).
  pose proof (Nat.div_mod_eq (length m + 7) 8).
  pose proof (Nat.mod_upper_bound (length m + 7) 8 ltac:(lia)).
  rewrite Hal in *.
  generalize dependent ((length m + n) / 8)%nat.
  generalize dependent ((length m + 7) / 8)%nat.
  generalize dependent ((length m + 7) mod 8)%nat.
  intros. clear - Hn H H0 H1. lia.
Qed.

(** X3. Unpacking a packing gives the plaintext as the post-processing
    leaves it, for every non-empty plaintext, and goes on doing so when
    up to eleven arbitrary characters follow the packing. *)
Theorem blowcrypt_unpack_pack (m : bytes) (c : ecb_cipher) (key junk : str) :
  m <> [] -> (length junk < 12)%nat ->
  exists packed,
    blowcrypt_pack m {| blowfish := Some c |} None = Ok packed
    /\ blowcrypt_unpack (packed ++ junk) {| blowfish := Some c |} key
       = Ok (unpack_postprocess m).
Proof.
  intros Hm Hj.
  destruct (pack_ecb_spec m c)
    as (n & ct & e & _ & Hn & Henc & Hlen & Hal & _ & Hle & Hall & Hd & Hp).
  exists (lit "+OK " ++ e). split; [exact Hp|].
  assert (Hq : (1 <= (length m + n) / 8)%nat).
  { destruct m; [congruence|]. cbn [length] in *.
    apply Nat.div_le_lower_bound; lia. }
  assert (Hstar : startswith (e ++ junk) (lit "*") = false).
  { apply in_B64_not_star in Hall.
    destruct e as [|x e']; [cbn [length] in Hle; lia|exact Hall]. }
  assert (Hpay : ecb_payload (e ++ junk) = e).
  { unfold ecb_payload. rewrite length_app.
    replace (length e + length junk - (length e + length junk) mod 12)%nat
      with (length e) by lia.
    rewrite firstn_app, Nat.sub_diag, firstn_all. cbn [firstn].
    apply app_nil_r. }
  rewrite <- app_assoc.
  rewrite (unpack_prefixed _ (e ++ junk) key _ (or_introl eq_refl) Hstar).
  destruct (unpack_ecb_spec (e ++ junk) c) as (_ & _ & Hgood).
  destruct Hgood as (raw & plain & Hraw & Hplain & ->).
  { rewrite length_app. lia. }
  { rewrite Hpay. exact Hall. }
  cbn [bind]. rewrite Hpay, Hd in Hraw. injection Hraw as <-.
  rewrite (ecb_decrypt_encrypt c _ ct Henc) in Hplain. injection Hplain as <-.
  rewrite unpack_postprocess_pad. reflexivity.
Qed.

End PackedForm.

Lemma blowcrypt_pack_ecb_shape_witness :
  exists e,
    blowcrypt_pack hello_world (flip_cipher (lit "testkey")) None
    = Ok (lit "+OK " ++ e)
    /\ length e = (12 * ((length hello_world + 7) / 8))%nat
    /\ forallb in_B64 e = true.
Proof.
  exact (@blowcrypt_pack_ecb_shape FlipLib FlipLaws hello_world
           (utf8_encode (lit "testkey"))).
Defined.

Lemma blowcrypt_unpack_pack_witness :
  exists packed,
    blowcrypt_pack [x00; x61; x0a; x62] (flip_cipher (lit "testkey")) None
    = Ok packed
    /\ blowcrypt_unpack (packed ++ lit "0123456789a")
         (flip_cipher (lit "testkey")) (lit "testkey")
       = Ok (unpack_postprocess [x00; x61; x0a; x62]).
Proof.
  apply (@blowcrypt_unpack_pack FlipLib FlipLaws [x00; x61; x0a; x62]
           (utf8_encode (lit "testkey")) (lit "testkey") (lit "0123456789a")).
  - discriminate.
  - cbn. lia.
Defined.

(** ** Wire Codec A on unaligned input *)

Lemma encode_loop_unaligned (k : nat) :
  forall (s : bytes) (res : str) (fuel : nat),
  (8 * k < length s < 8 * S k)%nat -> (k < fuel)%nat ->
  blowcrypt_b64encode_loop fuel s res = Raise StructError.
Proof.
  induction k as [|k IH]; intros s res fuel Hlen Hfuel;
    (destruct fuel as [|fuel]; [lia|]).
  - destruct s as [|b0 [|b1 [|b2 [|b3 [|b4 [|b5 [|b6 [|b7 rest]]]]]]]];
      cbn [length] in Hlen; try lia; reflexivity.
  - destruct s as [|b0 [|b1 [|b2 [|b3 [|b4 [|b5 [|b6 [|b7 rest]]]]]]]];
      cbn [length] in Hlen; try lia.
    cbn [blowcrypt_b64encode_loop firstn skipn struct_unpack_LL bind].
    destruct (encode_decode_word 6 (be32 b4 b5 b6 b7) res) as (cr & Hr & _).
    rewrite Hr. cbn [bind].
    destruct (encode_decode_word 6 (be32 b0 b1 b2 b3) (res ++ cr))
      as (cl & Hl & _).
    rewrite Hl. cbn [bind]. apply IH; lia.
Qed.

(** X4. [blowcrypt_b64encode] accepts exactly the byte strings whose
    length is a multiple of 8; on any other length [struct.unpack] fails
    on the last, short chunk. *)
Theorem blowcrypt_b64encode_alignment (b : bytes) :
  is_ok (blowcrypt_b64encode b) = (length b mod 8 =? 0)%nat
  /\ ((length b mod 8 =? 0)%nat = false ->
      blowcrypt_b64encode b = Raise StructError).
Proof.
  destruct (Nat.eqb_spec (length b mod 8) 0) as [E|E].
  - destruct (codecA_roundtrip b E) as (e & -> & _). split; [reflexivity|].
    discriminate.
  - assert (H : blowcrypt_b64encode b = Raise StructError).
    { apply (encode_loop_unaligned (length b / 8)).
      - pose proof (Nat.div_mod_eq (length b) 8).
        pose proof (Nat.mod_upper_bound (length b) 8 ltac:(lia)). lia.
      - pose proof (Nat.div_mod_eq (length b) 8). lia. }
    rewrite H. split; reflexivity.
Qed.

(** ** The cipher object *)

Section CipherObject.

Context {L : CryptoLib}.

(** The ECB branch of [blowcrypt_unpack] on a payload that decodes: the
    decoded bytes, whole blocks and at least one, go to the cipher. *)
Lemma unpack_ecb_decodable (rest : str) (cipher : Blowfish) :
  (12 <= length rest)%nat ->
  forallb in_B64 (ecb_payload rest) = true ->
  exists raw,
    blowcrypt_b64decode (ecb_payload rest) = Ok raw
    /\ length raw = (8 * (length rest / 12))%nat
    /\ unpack_ecb rest cipher = Blowfish_decrypt cipher raw.
Proof.
  intros H Hall. unfold unpack_ecb.
  apply Nat.ltb_ge in H as H'. rewrite H'.
  assert (Hp : (if (length rest mod 12 =? 0)%nat then rest
                else firstn (length rest - length rest mod 12) rest)
               = ecb_payload rest).
  { unfold ecb_payload. destruct (length rest mod 12 =? 0)%nat eqn:E;
      [|reflexivity].
    apply Nat.eqb_eq in E. rewrite E, Nat.sub_0_r, firstn_all. reflexivity. }
  rewrite Hp. unfold padto_str.
  assert (Hm : (length (ecb_payload rest) mod 12 = 0)%nat).
  { rewrite ecb_payload_length, Nat.mul_comm. apply Nat.Div0.mod_mul. }
  rewrite Hm. cbn [Nat.eqb bind].
  destruct (blowcrypt_b64decode_total (ecb_payload rest) Hm) as [Ha _].
  destruct (Ha Hall) as (raw & Hraw & Hlen). rewrite Hraw. cbn [bind].
  rewrite ecb_payload_length, (Nat.mul_comm 12), Nat.div_mul in Hlen by lia.
  assert (Hdiv : (1 <= length rest / 12)%nat)
    by (apply Nat.div_le_lower_bound; lia).
  exists raw. split; [reflexivity|]. split; [exact Hlen|].
  destruct raw as [|b raw']; [cbn [length] in Hlen; lia|reflexivity].
Qed.

(** X5. A [Blowfish] object built without a key, or from the empty key,
    has no cipher: packing any message with it raises [AttributeError],
    and so does unpacking any ECB-form message, with the prefix [+OK ]
    or [mcps ], whose payload has 12 characters or more and decodes. *)
Theorem keyless_cipher_raises (key : option str) (m : bytes)
  (rest k : str) :
  key = None \/ key = Some [] ->
  exists cipher,
    Blowfish_init key = Ok cipher
    /\ blowcrypt_pack m cipher None = Raise AttributeError
    /\ forall msg,
         msg = lit "+OK " ++ rest \/ msg = lit "mcps " ++ rest ->
         (12 <= length rest)%nat ->
         startswith rest (lit "*") = false ->
         forallb in_B64 (ecb_payload rest) = true ->
         blowcrypt_unpack msg cipher k = Raise AttributeError.
Proof.
  intros Hkey. exists {| blowfish := None |}.
  split; [destruct Hkey as [-> | ->]; reflexivity|]. split.
  - unfold blowcrypt_pack.
    destruct (padto_block m) as (n & -> & _). reflexivity.
  - intros msg Hmsg Hlen Hstar Hall.
    rewrite (unpack_prefixed msg rest k _ Hmsg Hstar).
    destruct (unpack_ecb_decodable rest {| blowfish := None |} Hlen Hall)
      as (raw & _ & _ & ->).
    reflexivity.
Qed.

(** X6. Only the first 72 characters of a key reach the cipher library:
    a key and its first 72 characters build the same object, and a key
    of 1 to 72 characters is passed whole. *)
Theorem Blowfish_init_truncates (key : str) :
  Blowfish_init (Some key) = Blowfish_init (Some (firstn 72 key))
  /\ ((1 <= length key <= 72)%nat ->
      Blowfish_init (Some key)
      = (c <- new_ecb (utf8_encode key) ;; Ok {| blowfish := Some c |})).
Proof.
  split.
  - destruct key as [|a key]; [reflexivity|].
    unfold Blowfish_init. change (firstn 72 (a :: key)) with (a :: firstn 71 key).
    destruct (Nat.ltb_spec 72 (length (a :: key))) as [Hlt|Hge].
    + replace (72 <? length (a :: firstn 71 key))%nat with false.
      * reflexivity.
      * symmetry. apply Nat.ltb_ge. cbn [length]. rewrite length_firstn. lia.
    + replace (a :: firstn 71 key) with (a :: key).
      * apply Nat.ltb_ge in Hge. rewrite Hge. reflexivity.
      * f_equal. symmetry. apply firstn_all2. cbn [length] in Hge. lia.
  - intros [H1 H72]. destruct key as [|a key]; [cbn in H1; lia|].
    unfold Blowfish_init. apply Nat.ltb_ge in H72. rewrite H72. reflexivity.
Qed.

End CipherObject.

Lemma keyless_cipher_raises_witness :
  exists cipher : @Blowfish FlipLib,
    Blowfish_init (Some []) = Ok cipher
    /\ blowcrypt_pack hello_world cipher None = Raise AttributeError
    /\ forall msg,
         msg = lit "+OK " ++ payload13 \/ msg = lit "mcps " ++ payload13 ->
         (12 <= length payload13)%nat ->
         startswith payload13 (lit "*") = false ->
         forallb in_B64 (ecb_payload payload13) = true ->
         blowcrypt_unpack msg cipher (lit "") = Raise AttributeError.
Proof.
  apply (@keyless_cipher_raises FlipLib (Some []) hello_world payload13 (lit "")).
  right. reflexivity.
Defined.

(** ** Big-endian integers, the other way round *)

Lemma fold_digits_shift (l : list Z) (a : Z) :
  fold_left (fun n p => n * 256 + p) l a
  = a * 256 ^ Z.of_nat (length l) + digits_val l.
Proof.
  unfold digits_val. revert a. induction l as [|x l IH]; intros a.
  - cbn. lia.
  - cbn [fold_left length]. rewrite IH, (IH (0 * 256 + x)).
    rewrite Nat2Z.inj_succ, Z.pow_succ_r by lia. lia.
Qed.

Lemma digits_val_cons (x : Z) (l : list Z) :
  digits_val (x :: l) = x * 256 ^ Z.of_nat (length l) + digits_val l.
Proof.
  unfold digits_val at 1. cbn [fold_left]. rewrite fold_digits_shift. lia.
Qed.

Lemma digits_val_bounds (l : list Z) :
  Forall (fun z => 0 <= z < 256) l ->
  0 <= digits_val l < 256 ^ Z.of_nat (length l).
Proof.
  induction 1 as [|x l Hx _ IH]; [cbn; lia|].
  rewrite digits_val_cons. cbn [length].
  rewrite Nat2Z.inj_succ, Z.pow_succ_r by lia.
  assert (0 < 256 ^ Z.of_nat (length l)) by (apply Z.pow_pos_nonneg; lia).
  nia.
Qed.

Lemma bytes_digits_range (b : bytes) :
  Forall (fun z => 0 <= z < 256) (map byte_val b).
Proof.
  induction b as [|x b IH]; cbn [map]; constructor;
    [apply byte_val_range|exact IH].
Qed.

(** X7. [bytes2int] of [n] bytes is a non-negative integer below
    [256 ^ n]: the private exponent drawn from 135 random bytes is below
    [2 ^ 1080]. *)
Theorem bytes2int_bounds (b : bytes) :
  0 <= bytes2int b < 256 ^ Z.of_nat (length b)
  /\ (length b = 135%nat -> bytes2int b < 2 ^ 1080).
Proof.
  pose proof (digits_val_bounds _ (bytes_digits_range b)) as H.
  rewrite <- bytes2int_digits, length_map in H. split; [exact H|].
  intros Hl. rewrite Hl in H. change (256 ^ Z.of_nat 135) with (2 ^ 1080) in H.
  lia.
Qed.

(** The loop of [int2bytes] rebuilds a digit list that has no leading
    zero from its value. *)
Lemma int2bytes_loop_digits (ds : list Z) :
  forall fuel acc,
  Forall (fun z => 0 <= z < 256) ds ->
  hd 1 ds <> 0 ->
  (length ds <= fuel)%nat ->
  int2bytes_loop fuel (digits_val ds) acc = Ok (ds ++ acc).
Proof.
  induction ds as [|x ds IH] using rev_ind; intros fuel acc Hr Hh Hf.
  - destruct fuel; reflexivity.
  - apply Forall_app in Hr. destruct Hr as [Hr Hx].
    apply Forall_inv in Hx.
    pose proof (digits_val_bounds ds Hr) as Hb.
    assert (Hv : digits_val (ds ++ [x]) = digits_val ds * 256 + x).
    { unfold digits_val. rewrite fold_left_app. reflexivity. }
    assert (Hnz : digits_val (ds ++ [x]) <> 0).
    { rewrite Hv. destruct ds as [|d ds]; [cbn in *; lia|].
      cbn [app hd] in Hh. rewrite digits_val_cons in *.
      pose proof (digits_val_bounds ds (Forall_inv_tail Hr)) as Hb'.
      assert (0 < 256 ^ Z.of_nat (length ds)) by (apply Z.pow_pos_nonneg; lia).
      apply Forall_inv in Hr. nia. }
    rewrite length_app in Hf. cbn [length] in Hf.
    destruct fuel as [|fuel]; [lia|]. cbn [int2bytes_loop].
    apply Z.eqb_neq in Hnz. rewrite Hnz, Hv.
    replace ((digits_val ds * 256 + x) / 256) with (digits_val ds)
      by (Z.div_mod_to_equations; lia).
    replace ((digits_val ds * 256 + x) mod 256) with x
      by (Z.div_mod_to_equations; lia).
    rewrite <- app_assoc. cbn [app].
    destruct ds as [|d ds].
    + cbn. destruct fuel; reflexivity.
    + apply IH; [exact Hr|exact Hh|lia].
Qed.

Lemma digits_val_lower (x : Z) (ds : list Z) :
  Forall (fun z => 0 <= z < 256) (x :: ds) -> x <> 0 ->
  256 ^ Z.of_nat (length ds) <= digits_val (x :: ds).
Proof.
  intros Hr Hx. rewrite digits_val_cons.
  pose proof (digits_val_bounds ds (Forall_inv_tail Hr)).
  apply Forall_inv in Hr.
  assert (0 < 256 ^ Z.of_nat (length ds)) by (apply Z.pow_pos_nonneg; lia).
  nia.
Qed.

Lemma int2bytes_digits (x : byte) (b : bytes) :
  x <> x00 -> int2bytes (bytes2int (x :: b)) = Ok (x :: b).
Proof.
  intros Hx. pose proof (bytes_digits_range (x :: b)) as Hr.
  assert (Hx0 : byte_val x <> 0).
  { intros H. apply Hx. apply byte_val_inj. rewrite H. reflexivity. }
  pose proof (digits_val_lower (byte_val x) (map byte_val b) Hr Hx0) as Hlow.
  rewrite length_map in Hlow.
  assert (Hpos : 0 < 256 ^ Z.of_nat (length b)) by (apply Z.pow_pos_nonneg; lia).
  unfold int2bytes. rewrite bytes2int_digits. cbn [map] in *.
  replace (digits_val (byte_val x :: map byte_val b) =? 0) with false
    by (symmetry; apply Z.eqb_neq; lia).
  rewrite int2bytes_loop_digits.
  - cbn [bind]. rewrite app_nil_r. apply (bytes_new_map (x :: b)).
  - exact Hr.
  - exact Hx0.
  - cbn [length]. rewrite length_map. unfold int2bytes_fuel.
    apply le_n_S.
    assert (Z.of_nat (length b) <= Z.log2 (digits_val (byte_val x :: map byte_val b))).
    { apply Z.log2_le_pow2; [lia|].
      eapply Z.le_trans; [|exact Hlow].
      replace 256 with (2 ^ 8) by reflexivity.
      rewrite <- Z.pow_mul_r by lia. apply Z.pow_le_mono_r; lia. }
    lia.
Qed.

Lemma bytes2int_lstrip (b : bytes) : bytes2int (lstrip x00 b) = bytes2int b.
Proof.
  induction b as [|x b IH]; [reflexivity|]. cbn [lstrip].
  destruct (Byte.eqb x x00) eqn:E; [|reflexivity].
  apply Byte.byte_dec_bl in E. subst x. rewrite IH. reflexivity.
Qed.

(** X8. [int2bytes(bytes2int(b))] is [b] without its leading zero bytes,
    and the single zero byte when nothing else is left: the conversion
    through an integer loses the length of [b]. *)
Theorem int2bytes_bytes2int (b : bytes) :
  int2bytes (bytes2int b)
  = Ok (match lstrip x00 b with
        | [] => [x00]
        | x :: l => x :: l
        end).
Proof.
  rewrite <- bytes2int_lstrip.
  destruct (lstrip_decomp x00 b) as (n & _ & Hh).
  destruct (lstrip x00 b) as [|x l]; [reflexivity|].
  apply int2bytes_digits. intros ->. apply Hh. reflexivity.
Qed.

(** ** Wire Codec B on every input *)

Lemma b64char_in_alphabet (v : Z) :
  0 <= v < 64 -> in_b64 (b64char v) = true.
Proof.
  intros H.
  assert (Hall : forallb (fun n => in_b64 (b64char (Z.of_nat n))) (seq 0 64)
                 = true) by (vm_compute; reflexivity).
  rewrite forallb_forall in Hall. specialize (Hall (Z.to_nat v)).
  rewrite Z2Nat.id in Hall by lia. apply Hall, in_seq. lia.
Qed.

Lemma enc_chars_alphabet (s : bytes) (k : nat) :
  forallb in_b64 (enc_chars s k) = true.
Proof.
  unfold enc_chars. apply forallb_forall. intros c Hc.
  apply in_map_iff in Hc. destruct Hc as (g & <- & _).
  apply b64char_in_alphabet, enc_val_range.
Qed.


(** X9. [dh1080_b64encode] succeeds exactly on two bytes or more, with
    [8 * len(s) // 6 + 1] characters of its alphabet; on the empty
    string and on a single byte it raises [IndexError], because its list
    [d] of [2 * len(s)] cells has no room for the end marker. *)
Theorem dh1080_b64encode_total (s : bytes) :
  is_ok (dh1080_b64encode s) = (2 <=? length s)%nat
  /\ ((length s <? 2)%nat = true -> dh1080_b64encode s = Raise IndexError)
  /\ ((2 <=? length s)%nat = true ->
      exists e,
        dh1080_b64encode s = Ok e
        /\ length e = (8 * length s / 6 + 1)%nat
        /\ forallb in_b64 e = true).
Proof.
  destruct (Nat.leb_spec 2 (length s)) as [H|H].
  - rewrite (dh1080_b64encode_spec s H). split; [reflexivity|].
    split; [intros Hlt; apply Nat.ltb_lt in Hlt; lia|]. intros _.
    eexists. split; [reflexivity|].
    split; [apply enc_chars_length|apply enc_chars_alphabet].
  - assert (Hr : dh1080_b64encode s = Raise IndexError).
    { destruct s as [|b [|b' s]]; [reflexivity| |cbn [length] in H; lia].
      apply dh1080_b64encode_one_byte. }
    rewrite Hr. split; [reflexivity|]. split; [reflexivity|discriminate].
Qed.


(** ** The wire form of a public value *)

Lemma int2bytes_length (n : Z) :
  0 <= n ->
  exists b,
    int2bytes n = Ok b
    /\ bytes2int b = n
    /\ (n < 256 -> length b = 1%nat)
    /\ (256 <= n -> (2 <= length b)%nat).
Proof.
  intros Hn. unfold int2bytes. destruct (Z.eqb_spec n 0) as [->|E].
  - exists [x00]. repeat split; try reflexivity. lia.
  - destruct (int2bytes_loop_spec (int2bytes_fuel n) n [])
      as (ds & Hl & Hr & Hv & _ & Hh).
    { split; [exact Hn|]. apply int2bytes_fuel_enough, Hn. }
    rewrite app_nil_r in Hl. rewrite Hl. cbn [bind].
    destruct (bytes_new_ok ds Hr) as (bs & Hb & Hm).
    exists bs. split; [exact Hb|].
    split; [rewrite bytes2int_digits, Hm; exact Hv|].
    rewrite <- (length_map byte_val bs), Hm. specialize (Hh E).
    destruct ds as [|d ds]; [cbn in Hv; lia|]. cbn [hd] in Hh.
    pose proof (digits_val_lower d ds Hr Hh) as Hlow.
    pose proof (digits_val_bounds (d :: ds) Hr) as Hup. rewrite Hv in *.
    cbn [length] in *. split; intros Hc.
    + destruct ds as [|d' ds]; [reflexivity|]. exfalso.
      cbn [length] in Hlow. rewrite Nat2Z.inj_succ, Z.pow_succ_r in Hlow by lia.
      assert (0 < 256 ^ Z.of_nat (length ds)) by (apply Z.pow_pos_nonneg; lia).
      lia.
    + destruct ds as [|d' ds]; [|cbn [length]; lia].
      exfalso. cbn in Hup. lia.
Qed.

Lemma in_b64_no_space (e : str) :
  forallb in_b64 e = true -> forallb no_space e = true.
Proof.
  intros H. apply forallb_forall. intros c Hc.
  rewrite forallb_forall in H. specialize (H c Hc).
  unfold no_space. destruct (Ascii.eqb c " ") eqn:E; [|reflexivity].
  apply Ascii.eqb_eq in E. subst c. discriminate.
Qed.

Lemma split_last (e : str) :
  forallb no_space e = true -> split " " e = [e].
Proof.
  induction e as [|c e IH]; [reflexivity|]. cbn [forallb split].
  intros H. apply andb_true_iff in H. destruct H as [Hc He].
  unfold no_space in Hc. apply negb_true_iff in Hc. rewrite Hc, (IH He).
  reflexivity.
Qed.

Lemma split_field (e rest : str) :
  forallb no_space e = true ->
  split " " (e ++ " "%char :: rest) = e :: split " " rest.
Proof.
  induction e as [|c e IH]; [reflexivity|]. cbn [forallb split app].
  intros H. apply andb_true_iff in H. destruct H as [Hc He].
  unfold no_space in Hc. apply negb_true_iff in Hc. rewrite Hc, (IH He).
  reflexivity.
Qed.


(** ** [dh1080_pack] *)

Lemma dh1080_pack_wire (ctx : DH1080Ctx) (b : bytes) (e : str) :
  int2bytes (public ctx) = Ok b ->
  dh1080_b64encode b = Ok e ->
  dh1080_pack ctx
  = (Ok ((if state ctx =? 0 then lit "DH1080_INIT " else lit "DH1080_FINISH ")
         ++ e ++ (if cbc ctx then lit " CBC" else [])),
     if state ctx =? 0 then set_state ctx 1 else ctx).
Proof.
  intros Hb He. unfold dh1080_pack.
  destruct (state ctx =? 0); cbn [public set_state cbc]; rewrite Hb;
    cbn [bind]; rewrite He; reflexivity.
Qed.

(** X10. [dh1080_pack] puts the command of the state ([DH1080_INIT] in
    state 0, [DH1080_FINISH] otherwise), the encoding of the public value
    and, for a CBC context, the token [CBC] on the wire, separated by
    single spaces; the encoding has no space in it.  A public value below
    256 has a one-byte form that the encoder cannot take: the call raises
    [IndexError], after the state has moved. *)
Theorem dh1080_pack_outcome (ctx : DH1080Ctx) :
  snd (dh1080_pack ctx) = (if state ctx =? 0 then set_state ctx 1 else ctx)
  /\ (0 <= public ctx < 256 -> fst (dh1080_pack ctx) = Raise IndexError)
  /\ (256 <= public ctx ->
      exists b e,
        int2bytes (public ctx) = Ok b
        /\ bytes2int b = public ctx
        /\ dh1080_b64encode b = Ok e
        /\ forallb in_b64 e = true
        /\ forallb no_space e = true
        /\ fst (dh1080_pack ctx)
           = Ok ((if state ctx =? 0 then lit "DH1080_INIT "
                  else lit "DH1080_FINISH ")
                 ++ e ++ (if cbc ctx then lit " CBC" else []))).
Proof.
  split; [apply dh1080_pack_ctx|]. split.
  - intros [H0 H1]. destruct (int2bytes_length (public ctx) H0)
      as (b & Hb & _ & Hlen & _). specialize (Hlen H1).
    destruct b as [|x [|y b]]; try discriminate Hlen.
    unfold dh1080_pack.
    destruct (state ctx =? 0); cbn [public set_state fst]; rewrite Hb;
      cbn [bind]; rewrite dh1080_b64encode_one_byte; reflexivity.
  - intros H. destruct (int2bytes_length (public ctx))
      as (b & Hb & Hv & _ & Hlen); [lia|]. specialize (Hlen H).
    exists b, (enc_chars b (8 * length b / 6 + 1)).
    pose proof (dh1080_b64encode_spec b Hlen) as He.
    split; [exact Hb|]. split; [exact Hv|]. split; [exact He|].
    split; [apply enc_chars_alphabet|].
    split; [apply in_b64_no_space, enc_chars_alphabet|].
    rewrite (dh1080_pack_wire ctx b _ Hb He). reflexivity.
Qed.

(** ** Arithmetic of the exchange *)

Lemma pow3_range (b e : Z) : 0 <= pow3 b e p_dh1080 < p_dh1080.
Proof.
  unfold pow3. apply Z.mod_pos_bound. pose proof p_dh1080_large. lia.
Qed.

Lemma pow3_pow3 (b e1 e2 m : Z) :
  0 < m -> 0 <= e1 -> 0 <= e2 ->
  pow3 (pow3 b e1 m) e2 m = pow3 b (e1 * e2) m.
Proof.
  intros Hm H1 H2. unfold pow3.
  rewrite <- Zpower_mod by exact Hm. rewrite <- Z.pow_mul_r by assumption.
  reflexivity.
Qed.

Lemma pow3_comm (b e1 e2 m : Z) :
  0 < m -> 0 <= e1 -> 0 <= e2 ->
  pow3 (pow3 b e1 m) e2 m = pow3 (pow3 b e2 m) e1 m.
Proof.
  intros Hm H1 H2. rewrite !pow3_pow3 by assumption.
  rewrite Z.mul_comm. reflexivity.
Qed.

Lemma pow3_one (e m : Z) : 1 < m -> 0 <= e -> pow3 1 e m = 1.
Proof.
  intros Hm He. unfold pow3. rewrite Z.pow_1_l by exact He.
  apply Z.mod_small. lia.
Qed.

Lemma pow3_zero (e m : Z) : 0 < m -> 0 < e -> pow3 0 e m = 0.
Proof.
  intros Hm He. unfold pow3. rewrite Z.pow_0_l by exact He.
  apply Z.mod_0_l. lia.
Qed.

Lemma minus_one_squared (m : Z) : 2 < m -> pow3 (m - 1) 2 m = 1.
Proof.
  intros Hm. unfold pow3. rewrite Z.pow_2_r.
  replace ((m - 1) * (m - 1)) with (1 + (m - 2) * m) by ring.
  rewrite Z_mod_plus_full. apply Z.mod_small. lia.
Qed.

Lemma minus_one_pow (m a : Z) :
  2 < m -> 0 <= a ->
  pow3 (m - 1) a m = if Z.even a then 1 else m - 1.
Proof.
  intros Hm Ha.
  assert (Heven : forall k, 0 <= k -> pow3 (m - 1) (2 * k) m = 1).
  { intros k Hk. rewrite <- pow3_pow3 by lia.
    rewrite minus_one_squared by exact Hm. apply pow3_one; lia. }
  destruct (Z.even a) eqn:E.
  - apply Z.even_spec in E. destruct E as [k ->]. apply Heven. lia.
  - rewrite <- Z.negb_odd in E. apply negb_false_iff, Z.odd_spec in E.
    destruct E as [k ->]. specialize (Heven k ltac:(lia)).
    unfold pow3 in *. rewrite Z.pow_add_r, Z.pow_1_r by lia.
    rewrite <- Z.mul_mod_idemp_l, Heven, Z.mul_1_l by lia.
    apply Z.mod_small. lia.
Qed.

(** The generator 2 is not a square modulo [p]. *)
Lemma generator_pow_q : pow3 g_dh1080 q_dh1080 p_dh1080 = p_dh1080 - 1.
Proof.
  rewrite pow3_fast_spec.
  - vm_compute. reflexivity.
  - unfold g_dh1080. lia.
  - exact q_dh1080_pos.
  - pose proof p_dh1080_large. lia.
Qed.

Lemma validate_generated (a : Z) :
  0 <= a ->
  pow3 (pow3 g_dh1080 a p_dh1080) q_dh1080 p_dh1080
  = if Z.even a then 1 else p_dh1080 - 1.
Proof.
  intros Ha. pose proof p_dh1080_large as Hp. pose proof q_dh1080_pos as Hq.
  rewrite pow3_comm by lia. rewrite generator_pow_q.
  apply minus_one_pow; lia.
Qed.

Lemma keypair_ok_generated (a : Z) :
  0 <= a ->
  keypair_ok (pow3 g_dh1080 a p_dh1080)
  = Z.even a && negb (pow3 g_dh1080 a p_dh1080 =? 1).
Proof.
  intros Ha. pose proof p_dh1080_large as Hp. pose proof q_dh1080_pos as Hq.
  pose proof (validate_generated a Ha) as Hv.
  pose proof (pow3_range g_dh1080 a) as Hr.
  unfold keypair_ok, dh_validate_public. rewrite Hv.
  destruct (Z.even a); cbn [andb].
  - assert (Hnz : pow3 g_dh1080 a p_dh1080 <> 0).
    { intros Hz. rewrite Hz, pow3_zero in Hv by lia. discriminate. }
    destruct (Z.eqb_spec (pow3 g_dh1080 a p_dh1080) 1) as [E|E]; cbn [negb].
    + rewrite E. reflexivity.
    + replace (2 <=? pow3 g_dh1080 a p_dh1080) with true
        by (symmetry; apply Z.leb_le; lia).
      replace (pow3 g_dh1080 a p_dh1080 <=? p_dh1080 - 1) with true
        by (symmetry; apply Z.leb_le; lia).
      reflexivity.
  - replace (1 =? p_dh1080 - 1) with false by (symmetry; apply Z.eqb_neq; lia).
    destruct (_ && _); reflexivity.
Qed.

Lemma bytes2int_nonneg (b : bytes) : 0 <= bytes2int b.
Proof.
  rewrite bytes2int_digits. apply digits_val_bounds, bytes_digits_range.
Qed.

(** X11. The key generation loop of [DH1080Ctx.__init__] keeps the first
    draw whose integer is even and whose public value [2 ^ private mod p]
    is not 1, and draws again otherwise: every odd private exponent is
    rejected, because 2 is not a square modulo [p]. *)
Theorem keygen_first_even_draw (urandom : list bytes) :
  keygen_loop urandom
  = match find (fun r =>
                  Z.even (bytes2int r)
                  && negb (pow3 g_dh1080 (bytes2int r) p_dh1080 =? 1))
               urandom with
    | Some r => Some (bytes2int r, pow3 g_dh1080 (bytes2int r) p_dh1080)
    | None => None
    end.
Proof.
  induction urandom as [|r urandom IH]; [reflexivity|].
  rewrite keygen_loop_cons. cbn [find].
  rewrite keypair_ok_generated by apply bytes2int_nonneg.
  destruct (Z.even (bytes2int r) && _); [reflexivity|exact IH].
Qed.


(** ** A complete exchange *)

Lemma init_spec (cbc0 : bool) (urandom : list bytes) (ctx : DH1080Ctx) :
  DH1080Ctx_init cbc0 urandom = Some ctx ->
  state ctx = 0 /\ secret ctx = 0 /\ cbc ctx = cbc0
  /\ 0 <= private ctx
  /\ public ctx = pow3 g_dh1080 (private ctx) p_dh1080
  /\ 2 <= public ctx <= p_dh1080 - 2
  /\ pow3 (public ctx) q_dh1080 p_dh1080 = 1.
Proof.
  unfold DH1080Ctx_init.
  destruct (keygen_loop urandom) as [[priv pub]|] eqn:E; [|discriminate].
  intros [= <-]. cbn [public private state secret cbc].
  destruct (keygen_loop_spec urandom priv pub E)
    as (Hpub & Hok & rej & r & rest & _ & Hp & _).
  apply keypair_ok_iff in Hok. destruct Hok as [Hrange Hv].
  repeat split; try assumption; try lia.
  rewrite Hp. apply bytes2int_nonneg.
Qed.








(** ** The session key *)

Lemma short_digest_length (b : bytes) : length (short_digest b) = 32%nat.
Proof.
  unfold short_digest. rewrite length_firstn, length_app, repeat_length. lia.
Qed.

(** X13. [dh1080_secret] raises [ValueError] on a context without a
    secret (secret 0); on any other context it returns a key of 43
    characters of the alphabet of Wire Codec B, the encoding of the
    32-byte digest of the big-endian bytes of the secret. *)
Theorem dh1080_secret_key (sha256 : bytes -> bytes) (ctx : DH1080Ctx) :
  (forall b, length (sha256 b) = 32%nat) ->
  0 <= secret ctx ->
  (secret ctx = 0 -> dh1080_secret sha256 ctx = Raise ValueError)
  /\ (0 < secret ctx ->
      exists b key,
        int2bytes (secret ctx) = Ok b
        /\ bytes2int b = secret ctx
        /\ dh1080_secret sha256 ctx = Ok key
        /\ dh1080_b64encode (sha256 b) = Ok key
        /\ length key = 43%nat
        /\ forallb in_b64 key = true).
Proof.
  intros Hsha Hs. unfold dh1080_secret. split.
  - intros ->. reflexivity.
  - intros Hpos. destruct (Z.eqb_spec (secret ctx) 0) as [E|_]; [lia|].
    destruct (int2bytes_length (secret ctx) Hs) as (b & Hb & Hv & _).
    exists b, (enc_chars (sha256 b) 43). rewrite Hb. cbn [bind].
    assert (He : dh1080_b64encode (sha256 b) = Ok (enc_chars (sha256 b) 43)).
    { rewrite dh1080_b64encode_spec by (rewrite Hsha; lia).
      rewrite Hsha. reflexivity. }
    split; [reflexivity|]. split; [exact Hv|]. split; [exact He|].
    split; [exact He|].
    split; [apply enc_chars_length|apply enc_chars_alphabet].
Qed.

Lemma dh1080_secret_key_witness :
  (secret (mk_ctx public2 (bytes2int draw2) 5 1 true) = 0 ->
   dh1080_secret short_digest (mk_ctx public2 (bytes2int draw2) 5 1 true)
   = Raise ValueError)
  /\ (0 < secret (mk_ctx public2 (bytes2int draw2) 5 1 true) ->
      exists b key,
        int2bytes (secret (mk_ctx public2 (bytes2int draw2) 5 1 true)) = Ok b
        /\ bytes2int b = secret (mk_ctx public2 (bytes2int draw2) 5 1 true)
        /\ dh1080_secret short_digest
             (mk_ctx public2 (bytes2int draw2) 5 1 true) = Ok key
        /\ dh1080_b64encode (short_digest b) = Ok key
        /\ length key = 43%nat
        /\ forallb in_b64 key = true).
Proof.
  apply (dh1080_secret_key short_digest
           (mk_ctx public2 (bytes2int draw2) 5 1 true)).
  - exact short_digest_length.
  - cbn [secret]. lia.
Defined.

(** ** A failed [dh1080_unpack] *)

(** X14. When [dh1080_unpack] raises, the key pair, the secret and the
    CBC flag are as before; the state has moved to 1 when the command
    token was accepted, because it is set before the payload is read.
    From then on the context refuses every message that is not a
    [DH1080_FINISH]: a context that failed on a [DH1080_INIT] takes no
    second one. *)
Theorem dh1080_unpack_failure (msg : str) (ctx : DH1080Ctx) :
  state ctx = 0 \/ state ctx = 1 ->
  fst (dh1080_unpack msg ctx) = Raise ValueError ->
  snd (dh1080_unpack msg ctx)
  = (if command_ok (state ctx) msg then set_state ctx 1 else ctx)
  /\ (command_ok (state ctx) msg = true ->
      forall msg',
        startswith msg' (lit "DH1080_FINISH ") = false ->
        dh1080_unpack msg' (snd (dh1080_unpack msg ctx))
        = (Raise ValueError, snd (dh1080_unpack msg ctx))).
Proof.
  intros Hs Hf.
  assert (Hsnd : snd (dh1080_unpack msg ctx)
                 = if command_ok (state ctx) msg then set_state ctx 1
                   else ctx).
  { destruct (command_ok (state ctx) msg) eqn:Hc.
    - rewrite (dh1080_unpack_outcome msg ctx Hs Hc) in *.
      destruct (unpack_fields msg) as [[[cmd pub] rest]|e]; [|reflexivity].
      destruct ((1 <? pub) && (pub <? p_dh1080)); [discriminate Hf|].
      reflexivity.
    - rewrite (dh1080_unpack_refused msg ctx Hs Hc). reflexivity. }
  split; [exact Hsnd|]. intros Hc msg' Hm. rewrite Hsnd, Hc.
  apply dh1080_unpack_refused; cbn [set_state state].
  - right. reflexivity.
  - unfold command_ok. cbn [Z.eqb]. rewrite Hm. apply andb_false_r.
Qed.

Lemma dh1080_unpack_failure_witness :
  snd (dh1080_unpack (lit "DH1080_INIT A") ctx2)
  = (if command_ok (state ctx2) (lit "DH1080_INIT A") then set_state ctx2 1
     else ctx2)
  /\ (command_ok (state ctx2) (lit "DH1080_INIT A") = true ->
      forall msg',
        startswith msg' (lit "DH1080_FINISH ") = false ->
        dh1080_unpack msg' (snd (dh1080_unpack (lit "DH1080_INIT A") ctx2))
        = (Raise ValueError, snd (dh1080_unpack (lit "DH1080_INIT A") ctx2))).
Proof.
  apply (dh1080_unpack_failure (lit "DH1080_INIT A") ctx2).
  - left. reflexivity.
  - vm_compute. reflexivity.
Defined.

(** ** The decoder of Wire Codec B on any string *)

Lemma table_read_as (c : ascii) :
  list_get buf_table (ord (read_as c)) = list_get buf_table (ord c).
Proof.
  destruct c as [[] [] [] [] [] [] [] []]; vm_compute; reflexivity.
Qed.

Lemma list_get_map {A B : Type} (f : A -> B) (l : list A) (k : nat) :
  list_get (map f l) k
  = match list_get l k with
    | Ok x => Ok (f x)
    | Raise e => Raise e
    end.
Proof.
  unfold list_get. rewrite nth_error_map.
  destruct (nth_error l k); reflexivity.
Qed.

Lemma buf_at_read_as (s : str) (k : nat) :
  buf_at buf_table (map read_as s) k = buf_at buf_table s k.
Proof.
  unfold buf_at. rewrite list_get_map.
  destruct (list_get s k) as [c|e]; cbn [bind]; [|reflexivity].
  apply table_read_as.
Qed.

Lemma trim_loop_read_as (s : str) (idxs : list nat) (L : nat) :
  trim_loop buf_table (map read_as s) idxs L = trim_loop buf_table s idxs L.
Proof.
  revert L. induction idxs as [|i idxs IH]; intros L; [reflexivity|].
  cbn [trim_loop]. rewrite buf_at_read_as.
  destruct (buf_at buf_table s i) as [v|e]; cbn [bind]; [|reflexivity].
  destruct (v =? 0); [apply IH|reflexivity].
Qed.

Lemma dec_body_read_as (s : str) (L : nat) (st : dec_state) :
  dec_body buf_table (map read_as s) L st = dec_body buf_table s L st.
Proof.
  unfold dec_body. destruct st as [i k d]. cbv zeta.
  rewrite !buf_at_read_as. reflexivity.
Qed.

Lemma dec_loop_read_as (fuel : nat) (s : str) (L : nat) (st : dec_state) :
  dec_loop fuel buf_table (map read_as s) L st
  = dec_loop fuel buf_table s L st.
Proof.
  revert st. induction fuel as [|fuel IH]; intros st; [reflexivity|].
  cbn [dec_loop]. rewrite dec_body_read_as.
  destruct (dec_body buf_table s L st) as [[st'|st']|e]; cbn [bind];
    [apply IH|reflexivity|reflexivity].
Qed.

(** X15. [dh1080_b64decode] never refuses a character (of a code point
    below 256, as the strings here have them): one outside its alphabet
    has the table entry 0 and is read as [A], so a string and the string
    with every such character replaced by [A] decode alike. *)
Theorem dh1080_b64decode_reads_unknown_as_A (s : str) :
  dh1080_b64decode (map read_as s) = dh1080_b64decode s.
Proof.
  unfold dh1080_b64decode. rewrite dh1080_buf_table. cbn [bind].
  rewrite length_map. destruct (length s <? 2)%nat; [reflexivity|].
  rewrite trim_loop_read_as.
  destruct (trim_loop buf_table s _ _) as [L|e]; cbn [bind]; [|reflexivity].
  destruct (L <? 2)%nat; [reflexivity|].
  rewrite dec_loop_read_as. reflexivity.
Qed.

(** ** The CBC branch of the packer and unpacker *)

Lemma padto_aligned (b : bytes) :
  (length b mod 8 = 0)%nat -> padto b 8 = Ok b.
Proof.
  intros H. unfold padto. cbv zeta. rewrite H. cbn [Nat.eqb]. rewrite H.
  reflexivity.
Qed.

Lemma firstn_exact {A : Type} (a b : list A) (n : nat) :
  length a = n -> firstn n (a ++ b) = a.
Proof.
  intros <-. rewrite firstn_app, Nat.sub_diag, firstn_all. cbn [firstn].
  apply app_nil_r.
Qed.

Lemma skipn_exact {A : Type} (a b : list A) (n : nat) :
  length a = n -> skipn n (a ++ b) = b.
Proof.
  intros <-. rewrite skipn_app, Nat.sub_diag, skipn_all. reflexivity.
Qed.

Section CbcMode.

Context {L : CryptoLib} {Laws : CbcLaws L}.

(** X16. In CBC mode a packed message unpacks to the plaintext without
    its zero bytes at both ends and without newlines, for every
    plaintext, the empty one included, and whatever the ECB cipher object
    is: the message is [+OK *] followed by the base64 text of the IV and
    the ciphertext, and the unpacker takes the IV from its first eight
    bytes. *)
Theorem blowcrypt_cbc_roundtrip (m : bytes) (cipher cipher' : Blowfish)
  (key : str) (c : cbc_cipher) :
  new_cbc (utf8_encode key) None = Ok c ->
  exists ct,
    cbc_encrypt c (m ++ repeat x00 (length ct - length m)) = Ok ct
    /\ blowcrypt_pack m cipher (Some key)
       = Ok (lit "+OK *" ++ std_b64encode (cbc_iv c ++ ct))
    /\ blowcrypt_unpack (lit "+OK *" ++ std_b64encode (cbc_iv c ++ ct))
         cipher' key
       = Ok (unpack_postprocess m).
Proof.
  intros Hnew. destruct (padto_bytes_spec m) as (n & Hpad & Hal).
  destruct (cbc_encrypt_aligned c _ Hal) as (ct & Hct & Hlen).
  destruct (cbc_decrypt_encrypt _ c _ ct Hnew Hct) as (c' & Hnew' & Hdec).
  pose proof (cbc_iv_length _ c Hnew) as Hiv.
  exists ct. rewrite length_app, repeat_length in Hlen.
  replace (length ct - length m)%nat with n by lia.
  split; [exact Hct|]. split.
  - unfold blowcrypt_pack. rewrite Hnew. cbn [bind]. rewrite Hpad. cbn [bind].
    rewrite Hct. reflexivity.
  - unfold blowcrypt_unpack.
    change (split1 " " (lit "+OK *" ++ std_b64encode (cbc_iv c ++ ct)))
      with [lit "+OK"; "*"%char :: std_b64encode (cbc_iv c ++ ct)].
    change (startswith (lit "+OK *" ++ std_b64encode (cbc_iv c ++ ct))
              (lit "+OK ")) with true.
    cbn [orb negb startswith lit list_ascii_of_string Ascii.eqb Bool.eqb
         andb skipn].
    unfold unpack_cbc. rewrite std_b64_length. cbn [Nat.eqb].
    rewrite std_b64_roundtrip. cbn [bind].
    cbv zeta. rewrite (firstn_exact _ _ 8%nat Hiv), (skipn_exact _ _ 8%nat Hiv).
    unfold bytes in *. rewrite Hnew'. cbn [bind].
    rewrite padto_aligned by (rewrite Hlen; rewrite length_app, repeat_length in Hal; exact Hal).
    cbn [bind]. rewrite Hdec. cbn [bind].
    rewrite unpack_postprocess_pad. reflexivity.
Qed.

End CbcMode.

Lemma quad_roundtrip (b : bytes) : quad_decode (quad_encode b) = Ok b.
Proof.
  induction b as [|x b IH]; [reflexivity|].
  cbn [quad_encode flat_map app quad_decode] in *.
  unfold quad_encode in IH. rewrite IH. cbn [bind].
  rewrite byte_of_ascii_of_byte. reflexivity.
Qed.

Lemma quad_length (b : bytes) : (length (quad_encode b) mod 4 = 0)%nat.
Proof.
  assert (H : length (quad_encode b) = (4 * length b)%nat).
  { induction b as [|x b IH]; [reflexivity|].
    cbn [quad_encode flat_map app length] in *. unfold quad_encode in IH.
    rewrite IH. lia. }
  rewrite H, Nat.mul_comm. apply Nat.Div0.mod_mul.
Qed.

Lemma QuadLaws : CbcLaws QuadLib.
Proof.
  split.
  - exact quad_roundtrip.
  - exact quad_length.
  - intros key c [= <-]. reflexivity.
  - intros c data. exact (flip_block_aligned data).
  - intros key c data ct [= <-] Hct. exists (repeat x00 8).
    split; [reflexivity|]. cbn in *.
    destruct (flip_block_spec data ct Hct) as [Hal ->].
    unfold flip_block. rewrite length_map, Hal. cbn.
    rewrite map_map, (map_ext _ (fun x => x)), map_id by
      (intros; apply flip_byte_involutive).
    reflexivity.
Qed.

Lemma blowcrypt_cbc_roundtrip_witness :
  exists ct,
    @cbc_encrypt QuadLib (repeat x00 8)
      (hello_world ++ repeat x00 (length ct - length hello_world)) = Ok ct
    /\ @blowcrypt_pack QuadLib hello_world (@Build_Blowfish QuadLib None)
         (Some (lit "testkey"))
       = Ok (lit "+OK *"
             ++ @std_b64encode QuadLib (@cbc_iv QuadLib (repeat x00 8) ++ ct))
    /\ @blowcrypt_unpack QuadLib
         (lit "+OK *"
          ++ @std_b64encode QuadLib (@cbc_iv QuadLib (repeat x00 8) ++ ct))
         (@Build_Blowfish QuadLib None) (lit "testkey")
       = Ok (unpack_postprocess hello_world).
Proof.
  apply (@blowcrypt_cbc_roundtrip QuadLib QuadLaws hello_world
           (@Build_Blowfish QuadLib None) (@Build_Blowfish QuadLib None)
           (lit "testkey") (repeat x00 8)).
  reflexivity.
Defined.

(** ** Dictionaries *)

Lemma str_eqb_eq (a b : str) : str_eqb a b = true <-> a = b.
Proof.
  unfold str_eqb. destruct (list_eq_dec ascii_dec a b); split; congruence.
Qed.

Lemma str_eqb_refl (a : str) : str_eqb a a = true.
Proof. apply str_eqb_eq. reflexivity. Qed.

Lemma str_eqb_neq (a b : str) : str_eqb a b = false <-> a <> b.
Proof.
  unfold str_eqb. destruct (list_eq_dec ascii_dec a b); split; congruence.
Qed.

Lemma str_eqb_sym (a b : str) : str_eqb a b = str_eqb b a.
Proof.
  destruct (str_eqb b a) eqn:E.
  - apply str_eqb_eq in E. subst. apply str_eqb_refl.
  - apply str_eqb_neq in E. apply str_eqb_neq. congruence.
Qed.

Lemma dict_get_set {V : Type} (d : dict V) (k k' : str) (v : V) :
  dict_get (dict_set d k v) k'
  = if str_eqb k k' then Some v else dict_get d k'.
Proof.
  induction d as [|[k0 v0] d IH]; cbn [dict_set dict_get].
  - reflexivity.
  - destruct (str_eqb k0 k) eqn:E; cbn [dict_get].
    + apply str_eqb_eq in E. subst k0.
      destruct (str_eqb k k'); reflexivity.
    + rewrite IH. destruct (str_eqb k0 k') eqn:E'; [|reflexivity].
      apply str_eqb_eq in E'. subst k0. rewrite str_eqb_sym, E. reflexivity.
Qed.

Lemma dict_get_del {V : Type} (d : dict V) (k k' : str) :
  dict_get (dict_del d k) k'
  = if str_eqb k k' then None else dict_get d k'.
Proof.
  unfold dict_del. induction d as [|[k0 v0] d IH]; cbn [filter dict_get fst].
  - destruct (str_eqb k k'); reflexivity.
  - destruct (str_eqb k0 k) eqn:E; cbn [negb dict_get].
    + rewrite IH. apply str_eqb_eq in E. subst k0.
      destruct (str_eqb k k'); reflexivity.
    + rewrite IH. destruct (str_eqb k0 k') eqn:E'; [|reflexivity].
      apply str_eqb_eq in E'. subst k0. rewrite str_eqb_sym, E. reflexivity.
Qed.

Lemma dict_flag_set (d : dict bool) (k k' : str) (v : bool) :
  dict_flag (dict_set d k v) k' = if str_eqb k k' then v else dict_flag d k'.
Proof.
  unfold dict_flag. rewrite dict_get_set. destruct (str_eqb k k'); reflexivity.
Qed.

Lemma dict_get_none {V : Type} (d : dict V) (k : str) :
  ~ In k (map fst d) -> dict_get d k = None.
Proof.
  induction d as [|[k0 v0] d IH]; cbn [map fst In dict_get]; [reflexivity|].
  intros H. destruct (str_eqb k0 k) eqn:E.
  - apply str_eqb_eq in E. tauto.
  - apply IH. tauto.
Qed.

Lemma dict_get_in {V : Type} (d : dict V) (k : str) (v : V) :
  NoDup (map fst d) -> In (k, v) d -> dict_get d k = Some v.
Proof.
  induction d as [|[k0 v0] d IH]; cbn [map fst In dict_get]; [tauto|].
  intros Hnd [H|H].
  - injection H as -> ->. rewrite str_eqb_refl. reflexivity.
  - inversion Hnd as [|? ? Hnot Hnd']. subst.
    destruct (str_eqb k0 k) eqn:E; [|apply IH; assumption].
    apply str_eqb_eq in E. subst k0. exfalso. apply Hnot.
    apply (in_map fst) in H. exact H.
Qed.

Lemma dict_get_some_in {V : Type} (d : dict V) (k : str) (v : V) :
  dict_get d k = Some v -> In (k, v) d.
Proof.
  induction d as [|[k0 v0] d IH]; cbn [In dict_get]; [discriminate|].
  destruct (str_eqb k0 k) eqn:E.
  - apply str_eqb_eq in E. intros [= ->]. left. congruence.
  - intros H. right. apply IH, H.
Qed.

Lemma dict_get_perm {V : Type} (d d' : dict V) (k : str) :
  NoDup (map fst d) -> Permutation d' d -> dict_get d' k = dict_get d k.
Proof.
  intros Hnd Hp.
  assert (Hnd' : NoDup (map fst d')).
  { eapply Permutation_NoDup; [|exact Hnd].
    apply Permutation_map, Permutation_sym, Hp. }
  destruct (dict_get d k) as [v|] eqn:E.
  - apply dict_get_in; [exact Hnd'|].
    eapply Permutation_in; [apply Permutation_sym, Hp|].
    apply dict_get_some_in, E.
  - destruct (dict_get d' k) as [v'|] eqn:E'; [|reflexivity].
    apply dict_get_some_in in E'.
    apply (Permutation_in _ Hp), (dict_get_in d k v' Hnd) in E'. congruence.
Qed.

Lemma insert_item_perm (x : str * str) (l : list (str * str)) :
  Permutation (insert_item x l) (x :: l).
Proof.
  induction l as [|y l IH]; cbn [insert_item]; [reflexivity|].
  destruct (item_leb x y); [reflexivity|].
  rewrite IH. apply perm_swap.
Qed.

Lemma sorted_items_perm (d : dict str) : Permutation (sorted_items d) d.
Proof.
  unfold sorted_items. induction d as [|x d IH]; cbn [fold_right];
    [reflexivity|].
  rewrite insert_item_perm, IH. reflexivity.
Qed.

(** ** The stored keys *)

Lemma read_cb_written_line {C : Type} (t k : str) (flag : bool)
  (g : fish_globals C) :
  (flag = false -> startswith k (lit "cbc:") = false) ->
  snd (fish_config_keys_read_cb true t
         (if flag then lit "cbc:" ++ k else k) g)
  = mk_globals (dict_set (fish_keys g) t k)
      (if flag then dict_set (fish_cbc g) t true else fish_cbc g)
      (fish_cyphers g) (fish_DH1080ctx g).
Proof.
  intros H. unfold fish_config_keys_read_cb. cbn [negb].
  destruct flag.
  - reflexivity.
  - rewrite (H eq_refl). reflexivity.
Qed.

Lemma read_lines_written {C : Type} (cbcs : dict bool) (t : str)
  (items : list (str * str)) (g : fish_globals C) :
  NoDup (map fst items) ->
  (forall t' k, In (t', k) items ->
                dict_flag cbcs t' = false -> startswith k (lit "cbc:") = false) ->
  let g' :=
    read_lines
      (map (fun '(target, key) =>
              (target,
               if dict_flag cbcs target then lit "cbc:" ++ key else key))
         items) g in
  dict_get (fish_keys g') t
  = match dict_get items t with
    | Some k => Some k
    | None => dict_get (fish_keys g) t
    end
  /\ dict_flag (fish_cbc g') t
     = (dict_mem items t && dict_flag cbcs t) || dict_flag (fish_cbc g) t
  /\ fish_cyphers g' = fish_cyphers g
  /\ fish_DH1080ctx g' = fish_DH1080ctx g.
Proof.
  revert g. induction items as [|[t1 k1] items IH]; intros g Hnd Hp.
  - cbn. repeat split. 
  - inversion Hnd as [|? ? Hnot Hnd']. subst.
    cbn [map read_lines fold_left fst snd].
    rewrite read_cb_written_line by (apply (Hp t1 k1); left; reflexivity).
    specialize (IH (mk_globals (dict_set (fish_keys g) t1 k1)
                      (if dict_flag cbcs t1
                       then dict_set (fish_cbc g) t1 true else fish_cbc g)
                      (fish_cyphers g) (fish_DH1080ctx g)) Hnd'
                  (fun t' k Hin => Hp t' k (or_intror Hin))).
    cbv zeta in IH. unfold read_lines in IH.
    destruct IH as (Hk & Hf & Hc & Hd). cbv zeta.
    rewrite Hk, Hf, Hc, Hd. cbn [fish_keys fish_cbc fish_cyphers fish_DH1080ctx].
    unfold dict_mem. cbn [dict_get].
    rewrite dict_get_set. 
    destruct (str_eqb t1 t) eqn:E.
    + apply str_eqb_eq in E. subst t1.
      rewrite (dict_get_none items t Hnot). cbn [andb orb].
      repeat split.
      destruct (dict_flag cbcs t) eqn:Ef; [|reflexivity].
      rewrite dict_flag_set, str_eqb_refl. reflexivity.
    + repeat split.
      destruct (dict_flag cbcs t1); [|reflexivity].
      rewrite dict_flag_set, E. reflexivity.
Qed.

(** X17. Reading back what [fish_config_keys_write_cb] wrote.  When the
    read callback is called on the lines the write callback wrote (after
    the section line), starting from an empty store, every target has the
    key it had, and is marked CBC exactly when it was; this needs that no
    key of a target not marked CBC starts with [cbc:], the prefix that
    marks a CBC key in the file. *)
Theorem config_keys_roundtrip {C : Type} (section_name : str)
  (g : fish_globals C) (cyphers : dict C) (ctxs : dict DH1080Ctx) (t : str) :
  NoDup (map fst (fish_keys g)) ->
  (forall t' k, In (t', k) (fish_keys g) ->
                dict_flag (fish_cbc g) t' = false ->
                startswith k (lit "cbc:") = false) ->
  dict_get
    (fish_keys
       (read_lines (tl (fish_config_keys_write_cb section_name g))
          (mk_globals [] [] cyphers ctxs))) t
  = dict_get (fish_keys g) t
  /\ dict_flag
       (fish_cbc
          (read_lines (tl (fish_config_keys_write_cb section_name g))
             (mk_globals [] [] cyphers ctxs))) t
     = dict_mem (fish_keys g) t && dict_flag (fish_cbc g) t.
Proof.
  intros Hnd Hp. unfold fish_config_keys_write_cb. cbn [tl].
  pose proof (sorted_items_perm (fish_keys g)) as Hperm.
  destruct (read_lines_written (fish_cbc g) t (sorted_items (fish_keys g))
              (mk_globals [] [] cyphers ctxs)) as (Hk & Hf & _).
  - eapply Permutation_NoDup; [|exact Hnd].
    apply Permutation_map, Permutation_sym, Hperm.
  - intros t' k Hin. apply Hp. apply (Permutation_in _ Hperm), Hin.
  - rewrite Hk, Hf. cbn [fish_keys fish_cbc dict_get]. unfold dict_mem.
    rewrite (dict_get_perm (fish_keys g) _ t Hnd Hperm).
    split.
    + destruct (dict_get (fish_keys g) t); reflexivity.
    + unfold dict_flag at 2. cbn [dict_get]. apply orb_false_r.
Qed.

Lemma config_keys_roundtrip_witness :
  dict_get
    (fish_keys
       (read_lines (tl (fish_config_keys_write_cb (lit "keys") store_bob))
          (@mk_globals unit [] [] [] []))) (lit "net/bob")
  = dict_get (fish_keys store_bob) (lit "net/bob")
  /\ dict_flag
       (fish_cbc
          (read_lines (tl (fish_config_keys_write_cb (lit "keys") store_bob))
             (@mk_globals unit [] [] [] []))) (lit "net/bob")
     = dict_mem (fish_keys store_bob) (lit "net/bob")
       && dict_flag (fish_cbc store_bob) (lit "net/bob").
Proof.
  apply (@config_keys_roundtrip unit (lit "keys") store_bob [] []
           (lit "net/bob")).
  - cbn [store_bob fish_keys map fst]. constructor.
    + cbn [In]. intros [H|[]]. discriminate H.
    + constructor; [intros []|constructor].
  - cbn [store_bob fish_keys fish_cbc In].
    intros t' k [H|[H|[]]]; injection H as <- <-.
    + vm_compute. discriminate.
    + intros _. reflexivity.
Defined.

(** X18. What a line of the file does to a store that already holds the
    target: the key is replaced by the value without its [cbc:] prefix,
    but a CBC mark is only ever set, never cleared (a target marked CBC
    stays so when its new value has no prefix), and the cached cipher
    object of the target stays as well; nothing changes for another
    target, and nothing at all when WeeChat returns no option. *)
Theorem config_keys_read_never_clears {C : Type} (option_name value : str)
  (g : fish_globals C) :
  fish_config_keys_read_cb false option_name value g
  = (WEECHAT_CONFIG_OPTION_SET_ERROR, g)
  /\ fst (fish_config_keys_read_cb true option_name value g)
     = WEECHAT_CONFIG_OPTION_SET_OK_CHANGED
  /\ dict_get
       (fish_keys (snd (fish_config_keys_read_cb true option_name value g)))
       option_name
     = Some (if startswith value (lit "cbc:") then skipn 4 value else value)
  /\ dict_flag
       (fish_cbc (snd (fish_config_keys_read_cb true option_name value g)))
       option_name
     = startswith value (lit "cbc:") || dict_flag (fish_cbc g) option_name
  /\ fish_cyphers (snd (fish_config_keys_read_cb true option_name value g))
     = fish_cyphers g
  /\ forall t,
       str_eqb option_name t = false ->
       dict_get
         (fish_keys (snd (fish_config_keys_read_cb true option_name value g)))
         t
       = dict_get (fish_keys g) t
       /\ dict_get
            (fish_cbc (snd (fish_config_keys_read_cb true option_name value g)))
            t
          = dict_get (fish_cbc g) t.
Proof.
  unfold fish_config_keys_read_cb. cbn [negb].
  split; [reflexivity|].
  destruct (startswith value (lit "cbc:"));
    cbn [fst snd fish_keys fish_cbc fish_cyphers orb].
  - split; [reflexivity|]. rewrite dict_get_set, dict_flag_set, str_eqb_refl.
    split; [reflexivity|]. split; [reflexivity|]. split; [reflexivity|].
    intros t Ht. rewrite !dict_get_set, Ht. split; reflexivity.
  - split; [reflexivity|]. rewrite dict_get_set, str_eqb_refl.
    split; [reflexivity|]. split; [reflexivity|]. split; [reflexivity|].
    intros t Ht. rewrite !dict_get_set, Ht. split; reflexivity.
Qed.

(** ** The arguments of [/blowkey] *)

Lemma no_space_spec (c : ascii) : no_space c = false <-> c = " "%char.
Proof.
  unfold no_space. rewrite negb_false_iff. apply Ascii.eqb_eq.
Qed.

Lemma no_space_app_space (a b : str) :
  forallb no_space (a ++ " "%char :: b) = false.
Proof.
  rewrite forallb_app. cbn [forallb]. 
  replace (no_space " ") with false by reflexivity.
  apply andb_false_r.
Qed.

Lemma find_first_word (w rest : str) :
  forallb no_space w = true ->
  find_first (w ++ " "%char :: rest) " " = Some (length w).
Proof.
  induction w as [|c w IH]; cbn [forallb app find_first length];
    [reflexivity|].
  intros H. apply andb_true_iff in H. destruct H as [Hc Hw].
  unfold no_space in Hc. apply negb_true_iff in Hc. rewrite Hc, (IH Hw).
  reflexivity.
Qed.

Lemma find_first_none (w : str) :
  forallb no_space w = true -> find_first w " " = None.
Proof.
  induction w as [|c w IH]; cbn [forallb find_first]; [reflexivity|].
  intros H. apply andb_true_iff in H. destruct H as [Hc Hw].
  unfold no_space in Hc. apply negb_true_iff in Hc. rewrite Hc, (IH Hw).
  reflexivity.
Qed.

Lemma skipn_app_exact {A : Type} (a b : list A) (n : nat) :
  skipn (length a + n) (a ++ b) = skipn n b.
Proof.
  rewrite skipn_app, skipn_all2 by lia.
  replace (length a + n - length a)%nat with n by lia. reflexivity.
Qed.

Lemma str_find_word (w rest : str) :
  forallb no_space w = true ->
  str_find (w ++ " "%char :: rest) " " 0 = Z.of_nat (length w).
Proof.
  intros H. unfold str_find. cbn [Z.ltb Z.compare].
  replace (Z.of_nat (length (w ++ " "%char :: rest)) <? 0) with false
    by (symmetry; apply Z.ltb_ge; lia).
  cbn [Z.to_nat skipn]. rewrite (find_first_word w rest H). lia.
Qed.

Lemma str_find_next (w rest : str) :
  str_find (w ++ " "%char :: rest) " " (Z.of_nat (length w) + 1)
  = match find_first rest " " with
    | Some i => Z.of_nat (length w) + 1 + Z.of_nat i
    | None => -1
    end.
Proof.
  unfold str_find.
  replace (Z.of_nat (length w) + 1 <? 0) with false
    by (symmetry; apply Z.ltb_ge; lia).
  replace (Z.of_nat (length (w ++ " "%char :: rest))
           <? Z.of_nat (length w) + 1) with false
    by (symmetry; apply Z.ltb_ge; rewrite length_app; cbn [length]; lia).
  replace (Z.to_nat (Z.of_nat (length w) + 1)) with (length w + 1)%nat by lia.
  rewrite skipn_app_exact. reflexivity.
Qed.

Lemma slice_from_next (w rest : str) (n : nat) :
  slice_from (w ++ " "%char :: rest) (Z.of_nat (length w) + 1 + Z.of_nat n)
  = skipn n rest.
Proof.
  unfold slice_from.
  replace (Z.of_nat (length w) + 1 + Z.of_nat n <? 0) with false
    by (symmetry; apply Z.ltb_ge; lia).
  replace (Z.to_nat (Z.of_nat (length w) + 1 + Z.of_nat n))
    with (length w + S n)%nat by lia.
  rewrite skipn_app_exact. reflexivity.
Qed.

Lemma blowkey_argv2eol_word (w rest : str) :
  forallb no_space w = true -> w <> [] ->
  blowkey_argv2eol (w ++ " "%char :: rest) = after_word rest.
Proof.
  intros Hw Hne. unfold blowkey_argv2eol, after_word. cbv zeta.
  rewrite (str_find_word w rest Hw).
  assert (Hlen : (0 < length w)%nat) by (destruct w; [congruence|cbn; lia]).
  replace (Z.of_nat (length w) =? 0) with false
    by (symmetry; apply Z.eqb_neq; lia).
  rewrite str_find_next. destruct (find_first rest " ") as [i|].
  - replace (0 <? Z.of_nat (length w) + 1 + Z.of_nat i) with true
      by (symmetry; apply Z.ltb_lt; lia).
    replace (Z.of_nat (length w) + 1 + Z.of_nat i + 1)
      with (Z.of_nat (length w) + 1 + Z.of_nat (S i)) by lia.
    apply slice_from_next.
  - cbn [Z.ltb Z.compare].
    replace (Z.of_nat (length w) + 1)
      with (Z.of_nat (length w) + 1 + Z.of_nat 0) by lia.
    apply slice_from_next.
Qed.

Lemma after_word_key (w key : str) :
  forallb no_space w = true -> after_word (w ++ " "%char :: key) = key.
Proof.
  intros H. unfold after_word. rewrite (find_first_word w key H).
  replace (S (length w)) with (length w + 1)%nat by lia.
  apply skipn_app_exact.
Qed.

Lemma after_word_single (w : str) :
  forallb no_space w = true -> after_word w = w.
Proof.
  intros H. unfold after_word. rewrite (find_first_none w H). reflexivity.
Qed.

Lemma split_nonempty (s : str) : split " " s <> [].
Proof.
  destruct s as [|c s]; cbn [split]; [discriminate|].
  destruct (Ascii.eqb c " "); [discriminate|].
  destruct (split " " s); discriminate.
Qed.

Lemma split_two (s w w2 : str) (ws : list str) :
  split " " s = w :: w2 :: ws -> exists s', s = w ++ " "%char :: s'.
Proof.
  revert w. induction s as [|c s IH]; intros w; cbn [split]; [discriminate|].
  destruct (Ascii.eqb c " ") eqn:E.
  - apply Ascii.eqb_eq in E. subst c. intros [= <- _]. exists s. reflexivity.
  - destruct (split " " s) as [|f fs] eqn:Es; [discriminate|].
    intros [= <- ->]. destruct (IH f eq_refl) as (s' & ->).
    exists s'. reflexivity.
Qed.

Lemma no_server_option (w rest : str) :
  startswith rest (lit "-server ") = false ->
  (2 <? length (w :: split " " rest))%nat
  && str_eqb (nth 1 (w :: split " " rest) []) (lit "-server") = false.
Proof.
  intros H. destruct (split " " rest) as [|f [|f2 fs]] eqn:E.
  - reflexivity.
  - reflexivity.
  - cbn [nth]. destruct (str_eqb f (lit "-server")) eqn:Ef;
      [|apply andb_false_r].
    apply str_eqb_eq in Ef. subst f.
    destruct (split_two rest _ _ _ E) as (s' & ->). discriminate H.
Qed.

Lemma not_list_command (w rest : str) :
  str_eqb (w ++ " "%char :: rest) [] || str_eqb (w ++ " "%char :: rest) (lit "list")
  = false.
Proof.
  apply orb_false_iff. split; apply str_eqb_neq; intros H.
  - destruct w; discriminate H.
  - pose proof (no_space_app_space w rest) as Hs. rewrite H in Hs.
    discriminate Hs.
Qed.

(** A command without the option [-server]. *)
Lemma blowkey_plain {C : Type} (urandom : list bytes)
  (buffer : weechat_buffer) (cmd rest : str) (g : fish_globals C) :
  forallb no_space cmd = true ->
  startswith rest (lit "-server ") = false ->
  fish_cmd_blowkey urandom buffer (cmd ++ " "%char :: rest) g
  = blowkey_dispatch urandom buffer (localvar_server buffer)
      (cmd :: split " " rest) (cmd ++ " "%char :: rest) g.
Proof.
  intros Hc Hr. unfold fish_cmd_blowkey. rewrite not_list_command.
  cbv zeta. rewrite (split_field cmd rest Hc).
  rewrite (no_server_option cmd rest Hr). reflexivity.
Qed.

(** A command with the option [-server]. *)
Lemma blowkey_with_server {C : Type} (urandom : list bytes)
  (buffer : weechat_buffer) (cmd server rest : str) (g : fish_globals C) :
  forallb no_space cmd = true ->
  forallb no_space server = true ->
  fish_cmd_blowkey urandom buffer
    (cmd ++ " "%char :: lit "-server" ++ " "%char :: server
     ++ " "%char :: rest) g
  = blowkey_dispatch urandom buffer server (cmd :: split " " rest)
      (server ++ " "%char :: rest) g.
Proof.
  intros Hc Hs. unfold fish_cmd_blowkey. rewrite not_list_command.
  cbv zeta. rewrite (split_field cmd _ Hc).
  rewrite (split_field (lit "-server") _ eq_refl).
  rewrite (split_field server rest Hs).
  cbn [length nth Nat.ltb Nat.leb]. rewrite str_eqb_refl. cbn [andb].
  unfold list_del. cbn [firstn skipn app].
  rewrite (str_find_word cmd _ Hc), str_find_next.
  rewrite (find_first_word (lit "-server") _ eq_refl).
  replace (Z.of_nat (length cmd) + 1 + Z.of_nat (length (lit "-server")) + 1)
    with (Z.of_nat (length cmd) + 1 + Z.of_nat 8) by (cbn; lia).
  rewrite slice_from_next. reflexivity.
Qed.

(** X19. The option [-server S] of [/blowkey] has the effect of running
    the command without it in a buffer of the server [S]: same return
    code, same store, same output, for every subcommand and every rest of
    the line that does not itself start with [-server]. *)
Theorem blowkey_server_option {C : Type} (urandom : list bytes)
  (buffer : weechat_buffer) (cmd server rest : str) (g : fish_globals C) :
  forallb no_space cmd = true -> cmd <> [] ->
  forallb no_space server = true -> server <> [] ->
  startswith rest (lit "-server ") = false ->
  fish_cmd_blowkey urandom buffer
    (cmd ++ lit " -server " ++ server ++ lit " " ++ rest) g
  = fish_cmd_blowkey urandom
      (mk_buffer server (localvar_type buffer) (localvar_channel buffer))
      (cmd ++ lit " " ++ rest) g.
Proof.
  intros Hc Hcne Hs Hsne Hr.
  change (cmd ++ lit " -server " ++ server ++ lit " " ++ rest)
    with (cmd ++ " "%char :: lit "-server" ++ " "%char :: server
          ++ " "%char :: rest).
  change (cmd ++ lit " " ++ rest) with (cmd ++ " "%char :: rest).
  rewrite (blowkey_with_server urandom buffer cmd server rest g Hc Hs).
  rewrite (blowkey_plain urandom _ cmd rest g Hc Hr).
  unfold blowkey_dispatch, blowkey_target_user.
  cbn [localvar_server localvar_type localvar_channel].
  rewrite (blowkey_argv2eol_word server rest Hs Hsne).
  rewrite (blowkey_argv2eol_word cmd rest Hc Hcne). reflexivity.
Qed.

Lemma blowkey_server_option_witness :
  fish_cmd_blowkey [] (mk_buffer (lit "net") (lit "server") [])
    (lit "set" ++ lit " -server " ++ lit "irc" ++ lit " "
     ++ lit "bob cbc:my secret") store_bob
  = fish_cmd_blowkey []
      (mk_buffer (lit "irc")
         (localvar_type (mk_buffer (lit "net") (lit "server") []))
         (localvar_channel (mk_buffer (lit "net") (lit "server") [])))
      (lit "set" ++ lit " " ++ lit "bob cbc:my secret") store_bob.
Proof.
  apply (@blowkey_server_option unit [] (mk_buffer (lit "net") (lit "server") [])
           (lit "set") (lit "irc") (lit "bob cbc:my secret") store_bob).
  - reflexivity.
  - discriminate.
  - reflexivity.
  - discriminate.
  - reflexivity.
Defined.

(** ** The subcommands of [/blowkey] *)

Lemma startswith_app (s p : str) :
  startswith s p = true -> exists r, s = p ++ r.
Proof.
  revert s. induction p as [|x p IH]; intros s; cbn [startswith].
  - intros _. exists s. reflexivity.
  - destruct s as [|c s]; [discriminate|]. intros H.
    apply andb_true_iff in H. destruct H as [Hc Hs].
    apply Ascii.eqb_eq in Hc. subst c. destruct (IH s Hs) as (r & ->).
    exists r. reflexivity.
Qed.

Lemma word_not_server_option (w : str) :
  forallb no_space w = true -> startswith w (lit "-server ") = false.
Proof.
  intros H. destruct (startswith w (lit "-server ")) eqn:E; [|reflexivity].
  destruct (startswith_app _ _ E) as (r & ->). discriminate H.
Qed.

Lemma space_free_inj (a b ra rb : str) :
  forallb no_space a = true -> forallb no_space b = true ->
  a ++ " "%char :: ra = b ++ " "%char :: rb -> a = b.
Proof.
  revert b. induction a as [|x a IH]; intros [|y b] Ha Hb H;
    cbn [app forallb] in *.
  - reflexivity.
  - injection H as <- _. discriminate Hb.
  - injection H as -> _. discriminate Ha.
  - injection H as <- H. apply andb_true_iff in Ha, Hb.
    f_equal. apply (IH b); tauto.
Qed.

Lemma target_not_server_option (target key : str) :
  forallb no_space target = true ->
  str_eqb target (lit "-server") = false ->
  startswith (target ++ " "%char :: key) (lit "-server ") = false.
Proof.
  intros Ht Hne.
  destruct (startswith (target ++ " "%char :: key) (lit "-server ")) eqn:E;
    [|reflexivity].
  destruct (startswith_app _ _ E) as (r & Hr).
  change (lit "-server " ++ r) with (lit "-server" ++ " "%char :: r) in Hr.
  apply space_free_inj in Hr; [|exact Ht|reflexivity].
  apply str_eqb_neq in Hne. congruence.
Qed.

Lemma dict_mem_get {V : Type} (d : dict V) (k : str) :
  dict_mem d k = false -> dict_get d k = None.
Proof. unfold dict_mem. destruct (dict_get d k); [discriminate|reflexivity]. Qed.

Lemma dict_get_forget {V : Type} (d : dict V) (k k' : str) :
  dict_get (if dict_mem d k then dict_del d k else d) k'
  = if str_eqb k k' then None else dict_get d k'.
Proof.
  destruct (dict_mem d k) eqn:E; [apply dict_get_del|].
  destruct (str_eqb k k') eqn:E'; [|reflexivity].
  apply str_eqb_eq in E'. subst k'. apply dict_mem_get, E.
Qed.

(** What the branch [set] does to the store. *)
Lemma blowkey_set_effect {C : Type} (target targetl key : str)
  (g : fish_globals C) :
  exists g' out,
    blowkey_set target targetl key g = (Ok WEECHAT_RC_OK, g', out)
    /\ dict_get (fish_keys g') targetl
       = Some (if startswith key (lit "cbc:") then skipn 4 key else key)
    /\ dict_flag (fish_cbc g') targetl = startswith key (lit "cbc:")
    /\ dict_get (fish_cyphers g') targetl = None
    /\ fish_DH1080ctx g' = fish_DH1080ctx g
    /\ forall t,
         str_eqb targetl t = false ->
         dict_get (fish_keys g') t = dict_get (fish_keys g) t
         /\ dict_get (fish_cbc g') t = dict_get (fish_cbc g) t
         /\ dict_get (fish_cyphers g') t = dict_get (fish_cyphers g) t.
Proof.
  unfold blowkey_set. destruct (startswith key (lit "cbc:")).
  - eexists _, _. split; [reflexivity|].
    cbn [fish_keys fish_cbc fish_cyphers fish_DH1080ctx].
    rewrite dict_get_set, dict_flag_set, dict_get_forget, !str_eqb_refl.
    repeat split; try reflexivity.
    + rewrite dict_get_set, H. reflexivity.
    + rewrite dict_get_set, H. reflexivity.
    + rewrite dict_get_forget, H. reflexivity.
  - destruct (dict_mem (fish_cbc g) targetl) eqn:Em.
    + eexists _, _. split; [reflexivity|].
      cbn [fish_keys fish_cbc fish_cyphers fish_DH1080ctx].
      unfold dict_flag.
      rewrite dict_get_set, dict_get_del, dict_get_forget, !str_eqb_refl.
      repeat split; try reflexivity.
      * rewrite dict_get_set, H. reflexivity.
      * rewrite dict_get_del, H. reflexivity.
      * rewrite dict_get_forget, H. reflexivity.
    + eexists _, _. split; [reflexivity|].
      cbn [fish_keys fish_cbc fish_cyphers fish_DH1080ctx].
      unfold dict_flag.
      rewrite dict_get_set, (dict_mem_get _ _ Em), dict_get_forget,
        !str_eqb_refl.
      repeat split; try reflexivity.
      * rewrite dict_get_set, H. reflexivity.
      * rewrite dict_get_forget, H. reflexivity.
Qed.

(** X20. [/blowkey set <target> <key>]: the key is everything after the
    target, spaces included.  The command stores it for the lower-case
    form of [server/target] without a leading [cbc:], marks the target
    CBC exactly when the prefix was there (an older mark is removed),
    drops the cached cipher object of the target, and leaves every other
    target alone. *)
Theorem blowkey_set_key {C : Type} (urandom : list bytes)
  (buffer : weechat_buffer) (target key targetl : str) (g : fish_globals C) :
  forallb no_space target = true ->
  str_eqb target (lit "-server") = false ->
  targetl = lower (localvar_server buffer ++ lit "/" ++ target) ->
  exists g' out,
    fish_cmd_blowkey urandom buffer (lit "set " ++ target ++ lit " " ++ key) g
    = (Ok WEECHAT_RC_OK, g', out)
    /\ dict_get (fish_keys g') targetl
       = Some (if startswith key (lit "cbc:") then skipn 4 key else key)
    /\ dict_flag (fish_cbc g') targetl = startswith key (lit "cbc:")
    /\ dict_get (fish_cyphers g') targetl = None
    /\ fish_DH1080ctx g' = fish_DH1080ctx g
    /\ forall t,
         str_eqb targetl t = false ->
         dict_get (fish_keys g') t = dict_get (fish_keys g) t
         /\ dict_get (fish_cbc g') t = dict_get (fish_cbc g) t
         /\ dict_get (fish_cyphers g') t = dict_get (fish_cyphers g) t.
Proof.
  intros Ht Hne ->.
  change (lit "set " ++ target ++ lit " " ++ key)
    with (lit "set" ++ " "%char :: target ++ " "%char :: key).
  rewrite (blowkey_plain urandom buffer (lit "set") _ g eq_refl
             (target_not_server_option target key Ht Hne)).
  rewrite (split_field target key Ht).
  unfold blowkey_dispatch, blowkey_target_user.
  pose proof (split_nonempty key) as Hk.
  destruct (split " " key) as [|k ks] eqn:Ek; [congruence|].
  cbn [nth length Nat.eqb Nat.ltb Nat.leb].
  change (str_eqb (lit "set") (lit "exchange")) with false.
  change (str_eqb (lit "set") (lit "set")) with true.
  cbn [andb]. rewrite andb_false_r. cbv zeta.
  rewrite (blowkey_argv2eol_word (lit "set") _ eq_refl) by discriminate.
  rewrite (after_word_key target key Ht).
  apply blowkey_set_effect.
Qed.

Lemma blowkey_set_key_witness :
  exists g' out,
    fish_cmd_blowkey [] (mk_buffer (lit "Net") (lit "server") [])
      (lit "set " ++ lit "Bob" ++ lit " " ++ lit "cbc:my secret") store_bob
    = (Ok WEECHAT_RC_OK, g', out)
    /\ dict_get (fish_keys g') (lit "net/bob")
       = Some (if startswith (lit "cbc:my secret") (lit "cbc:")
               then skipn 4 (lit "cbc:my secret") else lit "cbc:my secret")
    /\ dict_flag (fish_cbc g') (lit "net/bob")
       = startswith (lit "cbc:my secret") (lit "cbc:")
    /\ dict_get (fish_cyphers g') (lit "net/bob") = None
    /\ fish_DH1080ctx g' = fish_DH1080ctx store_bob
    /\ forall t,
         str_eqb (lit "net/bob") t = false ->
         dict_get (fish_keys g') t = dict_get (fish_keys store_bob) t
         /\ dict_get (fish_cbc g') t = dict_get (fish_cbc store_bob) t
         /\ dict_get (fish_cyphers g') t = dict_get (fish_cyphers store_bob) t.
Proof.
  apply (@blowkey_set_key unit [] (mk_buffer (lit "Net") (lit "server") [])
           (lit "Bob") (lit "cbc:my secret") (lit "net/bob") store_bob).
  - reflexivity.
  - reflexivity.
  - reflexivity.
Defined.

(** X21. [/blowkey set <key>] with a key of one word.  In a private or
    channel buffer the key is stored for the buffer's own target.  In any
    other buffer the word is taken for the target as well: the key is
    stored for a target of its own name. *)
Theorem blowkey_set_one_word {C : Type} (urandom : list bytes)
  (buffer : weechat_buffer) (key target_user targetl : str)
  (g : fish_globals C) :
  forallb no_space key = true ->
  target_user
  = (if str_eqb (localvar_type buffer) (lit "private")
        || str_eqb (localvar_type buffer) (lit "channel")
     then localvar_channel buffer else key) ->
  targetl = lower (localvar_server buffer ++ lit "/" ++ target_user) ->
  exists g' out,
    fish_cmd_blowkey urandom buffer (lit "set " ++ key) g
    = (Ok WEECHAT_RC_OK, g', out)
    /\ dict_get (fish_keys g') targetl
       = Some (if startswith key (lit "cbc:") then skipn 4 key else key)
    /\ dict_flag (fish_cbc g') targetl = startswith key (lit "cbc:")
    /\ dict_get (fish_cyphers g') targetl = None.
Proof.
  intros Hk -> ->.
  change (lit "set " ++ key) with (lit "set" ++ " "%char :: key).
  rewrite (blowkey_plain urandom buffer (lit "set") key g eq_refl
             (word_not_server_option key Hk)).
  rewrite (split_last key Hk).
  unfold blowkey_dispatch, blowkey_target_user.
  cbn [nth length Nat.eqb Nat.ltb Nat.leb].
  change (str_eqb (lit "set") (lit "exchange")) with false.
  change (str_eqb (lit "set") (lit "set")) with true.
  cbn [andb]. rewrite andb_true_r. cbv zeta.
  rewrite (blowkey_argv2eol_word (lit "set") _ eq_refl) by discriminate.
  rewrite (after_word_single key Hk).
  destruct (str_eqb (localvar_type buffer) (lit "private")
            || str_eqb (localvar_type buffer) (lit "channel"));
    cbv iota;
    match goal with
    | |- context [blowkey_set ?a ?b ?c ?d] =>
        destruct (blowkey_set_effect a b c d)
          as (g' & out & He & Hkey & Hflag & Hcy & _)
    end;
    exists g', out; repeat split; assumption.
Qed.

Lemma blowkey_set_one_word_witness :
  exists g' out,
    fish_cmd_blowkey [] (mk_buffer (lit "net") (lit "server") [])
      (lit "set " ++ lit "hunter2") store_bob
    = (Ok WEECHAT_RC_OK, g', out)
    /\ dict_get (fish_keys g') (lit "net/hunter2")
       = Some (if startswith (lit "hunter2") (lit "cbc:")
               then skipn 4 (lit "hunter2") else lit "hunter2")
    /\ dict_flag (fish_cbc g') (lit "net/hunter2")
       = startswith (lit "hunter2") (lit "cbc:")
    /\ dict_get (fish_cyphers g') (lit "net/hunter2") = None.
Proof.
  apply (@blowkey_set_one_word unit [] (mk_buffer (lit "net") (lit "server") [])
           (lit "hunter2") (lit "hunter2") (lit "net/hunter2") store_bob).
  - reflexivity.
  - reflexivity.
  - reflexivity.
Defined.

(** X22. [/blowkey remove <target>] returns [WEECHAT_RC_ERROR] and
    changes nothing when the target has no key.  Otherwise it deletes the
    key and the cached cipher object of the target and nothing else: the
    CBC mark of the target stays in [fish_cbc], so that a key read for it
    later from the file is a CBC key even without the prefix. *)
Theorem blowkey_remove_key {C : Type} (urandom : list bytes)
  (buffer : weechat_buffer) (target targetl value : str)
  (g : fish_globals C) :
  forallb no_space target = true ->
  targetl = lower (localvar_server buffer ++ lit "/" ++ target) ->
  (dict_mem (fish_keys g) targetl = false ->
   fish_cmd_blowkey urandom buffer (lit "remove " ++ target) g
   = (Ok WEECHAT_RC_ERROR, g, []))
  /\ (dict_mem (fish_keys g) targetl = true ->
      exists g' out,
        fish_cmd_blowkey urandom buffer (lit "remove " ++ target) g
        = (Ok WEECHAT_RC_OK, g', out)
        /\ dict_get (fish_keys g') targetl = None
        /\ dict_get (fish_cyphers g') targetl = None
        /\ fish_cbc g' = fish_cbc g
        /\ fish_DH1080ctx g' = fish_DH1080ctx g
        /\ (forall t,
              str_eqb targetl t = false ->
              dict_get (fish_keys g') t = dict_get (fish_keys g) t
              /\ dict_get (fish_cyphers g') t = dict_get (fish_cyphers g) t)
        /\ dict_flag
             (fish_cbc (snd (fish_config_keys_read_cb true targetl value g')))
             targetl
           = startswith value (lit "cbc:") || dict_flag (fish_cbc g) targetl).
Proof.
  intros Ht ->.
  change (lit "remove " ++ target) with (lit "remove" ++ " "%char :: target).
  rewrite (blowkey_plain urandom buffer (lit "remove") target g eq_refl
             (word_not_server_option target Ht)).
  rewrite (split_last target Ht).
  unfold blowkey_dispatch, blowkey_target_user.
  cbn [nth length Nat.eqb Nat.ltb Nat.leb].
  change (str_eqb (lit "remove") (lit "exchange")) with false.
  change (str_eqb (lit "remove") (lit "set")) with false.
  change (str_eqb (lit "remove") (lit "remove")) with true.
  cbn [andb]. cbv zeta iota. unfold blowkey_remove.
  cbn [length Nat.eqb negb].
  split; intros Hm; rewrite Hm; cbn [negb]; [reflexivity|].
  eexists _, _. split; [reflexivity|].
  cbn [fish_keys fish_cbc fish_cyphers fish_DH1080ctx].
  rewrite dict_get_del, dict_get_forget, !str_eqb_refl.
  repeat split; try reflexivity.
  - rewrite dict_get_del, H. reflexivity.
  - rewrite dict_get_forget, H. reflexivity.
  - unfold fish_config_keys_read_cb. cbn [negb].
    destruct (startswith value (lit "cbc:")); cbn [snd fish_cbc orb];
      [|reflexivity].
    rewrite dict_flag_set, str_eqb_refl. reflexivity.
Qed.

Lemma blowkey_remove_key_witness :
  (dict_mem (fish_keys store_bob) (lit "net/bob") = false ->
   fish_cmd_blowkey [] (mk_buffer (lit "net") (lit "server") [])
     (lit "remove " ++ lit "Bob") store_bob
   = (Ok WEECHAT_RC_ERROR, store_bob, []))
  /\ (dict_mem (fish_keys store_bob) (lit "net/bob") = true ->
      exists g' out,
        fish_cmd_blowkey [] (mk_buffer (lit "net") (lit "server") [])
          (lit "remove " ++ lit "Bob") store_bob
        = (Ok WEECHAT_RC_OK, g', out)
        /\ dict_get (fish_keys g') (lit "net/bob") = None
        /\ dict_get (fish_cyphers g') (lit "net/bob") = None
        /\ fish_cbc g' = fish_cbc store_bob
        /\ fish_DH1080ctx g' = fish_DH1080ctx store_bob
        /\ (forall t,
              str_eqb (lit "net/bob") t = false ->
              dict_get (fish_keys g') t = dict_get (fish_keys store_bob) t
              /\ dict_get (fish_cyphers g') t
                 = dict_get (fish_cyphers store_bob) t)
        /\ dict_flag
             (fish_cbc
                (snd (fish_config_keys_read_cb true (lit "net/bob")
                        (lit "plain") g')))
             (lit "net/bob")
           = startswith (lit "plain") (lit "cbc:")
             || dict_flag (fish_cbc store_bob) (lit "net/bob")).
Proof.
  apply (@blowkey_remove_key unit [] (mk_buffer (lit "net") (lit "server") [])
           (lit "Bob") (lit "net/bob") (lit "plain") store_bob).
  - reflexivity.
  - reflexivity.
Defined.

(** X23. [/blowkey exchange <nick>] in a buffer with a server name:
    the command builds a context, keeps it for the nick in state 1, and
    sends [DH1080_INIT], the encoding of the public value and [CBC] (the
    constructor's default) to the nick in a notice; the keys are as
    before.  Without a server name it returns [WEECHAT_RC_ERROR] and does
    nothing. *)
Theorem blowkey_exchange_init {C : Type} (urandom : list bytes)
  (buffer : weechat_buffer) (nick targetl : str) (ctx : DH1080Ctx)
  (g : fish_globals C) :
  forallb no_space nick = true ->
  targetl = lower (localvar_server buffer ++ lit "/" ++ nick) ->
  DH1080Ctx_init true urandom = Some ctx ->
  256 <= public ctx ->
  (localvar_server buffer = [] ->
   fish_cmd_blowkey urandom buffer (lit "exchange " ++ nick) g
   = (Ok WEECHAT_RC_ERROR, g, []))
  /\ (localvar_server buffer <> [] ->
      exists b e g',
        int2bytes (public ctx) = Ok b
        /\ dh1080_b64encode b = Ok e
        /\ fish_cmd_blowkey urandom buffer (lit "exchange " ++ nick) g
           = (Ok WEECHAT_RC_OK, g',
              [prnt (lit "Initiating DH1080 Exchange with "
                     ++ localvar_server buffer ++ lit "/" ++ nick);
               command (lit "/mute notice -server " ++ localvar_server buffer
                        ++ lit " " ++ nick ++ lit " "
                        ++ lit "DH1080_INIT " ++ e ++ lit " CBC")])
        /\ dict_get (fish_DH1080ctx g') targetl = Some (set_state ctx 1)
        /\ fish_keys g' = fish_keys g
        /\ fish_cbc g' = fish_cbc g
        /\ fish_cyphers g' = fish_cyphers g).
Proof.
  intros Hn -> Hinit Hpub.
  change (lit "exchange " ++ nick) with (lit "exchange" ++ " "%char :: nick).
  rewrite (blowkey_plain urandom buffer (lit "exchange") nick g eq_refl
             (word_not_server_option nick Hn)).
  rewrite (split_last nick Hn).
  unfold blowkey_dispatch, blowkey_target_user.
  cbn [nth length Nat.eqb Nat.ltb Nat.leb].
  change (str_eqb (lit "exchange") (lit "exchange")) with true.
  change (str_eqb (lit "exchange") (lit "set")) with false.
  change (str_eqb (lit "exchange") (lit "remove")) with false.
  cbn [andb]. cbv zeta iota. unfold blowkey_exchange.
  split.
  - intros ->. reflexivity.
  - intros Hs.
    replace (str_eqb (localvar_server buffer) []) with false
      by (symmetry; apply str_eqb_neq; exact Hs).
    rewrite Hinit.
    destruct (init_spec _ _ _ Hinit) as (Hst & _ & Hcbc & _).
    destruct (int2bytes_length (public ctx)) as (b & Hb & _ & _ & Hlen);
      [lia|]. specialize (Hlen Hpub).
    pose proof (dh1080_b64encode_spec b Hlen) as He.
    rewrite (dh1080_pack_wire ctx b _ Hb He), Hst, Hcbc. cbn [Z.eqb].
    eexists b, _, _. split; [exact Hb|]. split; [exact He|].
    split; [reflexivity|].
    cbn [fish_keys fish_cbc fish_cyphers fish_DH1080ctx].
    rewrite dict_get_set, str_eqb_refl. repeat split.
Qed.

Lemma blowkey_exchange_init_witness :
  (localvar_server (mk_buffer (lit "net") (lit "server") []) = [] ->
   fish_cmd_blowkey [draw1; draw2] (mk_buffer (lit "net") (lit "server") [])
     (lit "exchange " ++ lit "Bob") store_bob
   = (Ok WEECHAT_RC_ERROR, store_bob, []))
  /\ (localvar_server (mk_buffer (lit "net") (lit "server") []) <> [] ->
      exists b e g',
        int2bytes (public ctx2) = Ok b
        /\ dh1080_b64encode b = Ok e
        /\ fish_cmd_blowkey [draw1; draw2]
             (mk_buffer (lit "net") (lit "server") [])
             (lit "exchange " ++ lit "Bob") store_bob
           = (Ok WEECHAT_RC_OK, g',
              [prnt (lit "Initiating DH1080 Exchange with "
                     ++ localvar_server
                          (mk_buffer (lit "net") (lit "server") [])
                     ++ lit "/" ++ lit "Bob");
               command (lit "/mute notice -server "
                        ++ localvar_server
                             (mk_buffer (lit "net") (lit "server") [])
                        ++ lit " " ++ lit "Bob" ++ lit " "
                        ++ lit "DH1080_INIT " ++ e ++ lit " CBC")])
        /\ dict_get (fish_DH1080ctx g') (lit "net/bob")
           = Some (set_state ctx2 1)
        /\ fish_keys g' = fish_keys store_bob
        /\ fish_cbc g' = fish_cbc store_bob
        /\ fish_cyphers g' = fish_cyphers store_bob).
Proof.
  apply (@blowkey_exchange_init unit [draw1; draw2]
           (mk_buffer (lit "net") (lit "server") [])
           (lit "Bob") (lit "net/bob") ctx2 store_bob).
  - reflexivity.
  - reflexivity.
  - exact init_ctx2.
  - vm_compute. discriminate.
Defined.

(** ** Listing the keys *)

Lemma forallb_perm {A : Type} (f : A -> bool) (l l' : list A) :
  Permutation l l' -> forallb f l = forallb f l'.
Proof.
  induction 1 as [|x l l' _ IH|x y l|l l' l'' _ IH1 _ IH2]; cbn [forallb].
  - reflexivity.
  - rewrite IH. reflexivity.
  - destruct (f x), (f y); reflexivity.
  - congruence.
Qed.

Lemma list_keys_loop_outcome (cbcs : dict bool) (items : list (str * str)) :
  fst (list_keys_loop cbcs items)
  = (if forallb (fun kv => (length (split "/" (fst kv)) =? 2)%nat) items
     then Ok tt else Raise ValueError)
  /\ (forallb (fun kv => (length (split "/" (fst kv)) =? 2)%nat) items = true ->
      length (snd (list_keys_loop cbcs items)) = length items).
Proof.
  induction items as [|[target key] items IH];
    cbn [list_keys_loop forallb fst]; [split; reflexivity|].
  destruct (split "/" target) as [|a [|b [|c l]]];
    cbn [length Nat.eqb andb fst snd]; try (split; [reflexivity|discriminate]).
  destruct (list_keys_loop cbcs items) as [r out]. cbn [fst snd] in *.
  destruct IH as [IH1 IH2]. split; [exact IH1|].
  intros H. cbn [length]. rewrite (IH2 H). reflexivity.
Qed.

(** X24. [/blowkey] and [/blowkey list] leave the store as it is.  They
    print a header and one line for every key, unless some target does
    not consist of exactly two fields around one [/] (a target with a
    further [/], or one read from the file without any): then
    [fish_list_keys] raises [ValueError]. *)
Theorem blowkey_list_outcome {C : Type} (urandom : list bytes)
  (buffer : weechat_buffer) (args : str) (g : fish_globals C) :
  args = [] \/ args = lit "list" ->
  snd (fst (fish_cmd_blowkey urandom buffer args g)) = g
  /\ fst (fst (fish_cmd_blowkey urandom buffer args g))
     = (if forallb (fun kv => (length (split "/" (fst kv)) =? 2)%nat)
             (fish_keys g)
        then Ok WEECHAT_RC_OK else Raise ValueError)
  /\ (forallb (fun kv => (length (split "/" (fst kv)) =? 2)%nat)
        (fish_keys g) = true ->
      length (snd (fish_cmd_blowkey urandom buffer args g))
      = S (length (fish_keys g))).
Proof.
  intros Ha.
  assert (Hl : str_eqb args [] || str_eqb args (lit "list") = true).
  { destruct Ha as [-> | ->]; reflexivity. }
  unfold fish_cmd_blowkey. rewrite Hl. unfold fish_list_keys.
  pose proof (sorted_items_perm (fish_keys g)) as Hp.
  destruct (list_keys_loop_outcome (fish_cbc g) (sorted_items (fish_keys g)))
    as [H1 H2].
  rewrite (forallb_perm _ _ _ Hp) in H1, H2.
  destruct (list_keys_loop (fish_cbc g) (sorted_items (fish_keys g)))
    as [r out]. cbn [fst snd] in *.
  split; [reflexivity|]. split.
  - rewrite H1. destruct (forallb _ (fish_keys g)); reflexivity.
  - intros H. cbn [length]. rewrite (H2 H).
    rewrite (Permutation_length Hp). reflexivity.
Qed.

Lemma blowkey_list_outcome_witness :
  snd (fst (fish_cmd_blowkey [] (mk_buffer (lit "net") (lit "server") [])
              (lit "list") store_bob)) = store_bob
  /\ fst (fst (fish_cmd_blowkey [] (mk_buffer (lit "net") (lit "server") [])
                 (lit "list") store_bob))
     = (if forallb (fun kv => (length (split "/" (fst kv)) =? 2)%nat)
             (fish_keys store_bob)
        then Ok WEECHAT_RC_OK else Raise ValueError)
  /\ (forallb (fun kv => (length (split "/" (fst kv)) =? 2)%nat)
        (fish_keys store_bob) = true ->
      length (snd (fish_cmd_blowkey [] (mk_buffer (lit "net") (lit "server") [])
                     (lit "list") store_bob))
      = S (length (fish_keys store_bob))).
Proof.
  apply (@blowkey_list_outcome unit [] (mk_buffer (lit "net") (lit "server") [])
           (lit "list") store_bob).
  right. reflexivity.
Defined.
